(** * mathml-converter: the text / LaTeX pipeline of [src/App.tsx]

    A shallow embedding of the string-level functions of the application
    ([parseForDisplay], [escapeHtml], [escapeAndFormat], [generateDocx],
    [handleCopy], the unescaping of [handleContextMenu]) together with the
    fragment of the JavaScript string and regular-expression primitives they
    rely on, followed by the properties established about them.

    Conventions of the embedding:
    - a JavaScript string is a list of code units; a code unit is modelled by
      [ascii].  Every function of the program inspects only characters of the
      ASCII range (dollar, ampersand, angle brackets, double quote, carriage
      return, line feed, blanks) and copies all the others;
    - the external converters ([temml.renderToString], [mml2omml]) are
      parameters returning [option]: [None] stands for a thrown exception;
    - the document builder ([docx]) and the archive library ([jszip]) are
      parameters as well; every call to them is recorded in a trace. *)

From Stdlib Require Import Ascii String List Arith Lia Bool.
From Stdlib Require Import Decimal DecimalNat DecimalString.
Import ListNotations.

Local Open Scope char_scope.
Local Open Scope list_scope.

(* ================================================================== *)
(** * Part I: the embedding                                            *)
(* ================================================================== *)

(** ** JavaScript strings *)

Definition str := list ascii.

Abbreviation lit := list_ascii_of_string.

Definition CR : ascii := "013".
Definition LF : ascii := "010".
Definition DQUOTE : ascii := "034".

(** Truthiness of a string value: [if (s)] holds for non-empty strings. *)
Definition truthy (s : str) : bool :=
  match s with
  | [] => false
  | _ :: _ => true
  end.

(** [s.slice(a, b)] and [s.slice(a)] for non-negative integer arguments:
    both bounds are clamped to the length, an inverted range is empty. *)
Definition slice (s : str) (a b : nat) : str := firstn (b - a) (skipn a s).
Definition slice_from (s : str) (a : nat) : str := skipn a s.

Fixpoint str_eqb (a b : str) : bool :=
  match a, b with
  | [], [] => true
  | x :: a', y :: b' => Ascii.eqb x y && str_eqb a' b'
  | _, _ => false
  end.

(** [prefixb p s]: the literal [p] is read at the head of [s]. *)
Fixpoint prefixb (p s : str) : bool :=
  match p, s with
  | [], _ => true
  | x :: p', y :: s' => Ascii.eqb x y && prefixb p' s'
  | _ :: _, [] => false
  end.

(** Longest prefix of [s] made of characters of the class [cls]. *)
Fixpoint run (cls : ascii -> bool) (s : str) : nat :=
  match s with
  | [] => 0
  | c :: s' => if cls c then S (run cls s') else 0
  end.

(** ** Regular expressions

    A compiled pattern is modelled by what it does at one position: given
    the part of the subject that starts there, it returns the length of the
    match, if any.  The combinators below are the ones the patterns of the
    program are made of.  A quantified character class is greedy; in every
    pattern of the program the class is followed by a literal whose first
    character is outside of the class, so giving back characters can never
    turn a failure into a success and the longest run is the only
    candidate. *)

Definition matcher := str -> option nat.

Definition re_lit (p : str) : matcher :=
  fun s => if prefixb p s then Some (length p) else None.

Definition re_star (cls : ascii -> bool) : matcher :=
  fun s => Some (run cls s).

Definition re_plus (cls : ascii -> bool) : matcher :=
  fun s => match run cls s with
           | 0 => None
           | S n => Some (S n)
           end.

Definition re_seq (r1 r2 : matcher) : matcher :=
  fun s => match r1 s with
           | None => None
           | Some n => match r2 (skipn n s) with
                       | None => None
                       | Some k => Some (n + k)
                       end
           end.

(** *** Replacement text

    [GetSubstitution] of the language specification for a pattern without
    capture groups: [$$] is a dollar, [$&] the matched text, [$`] and [$']
    the parts of the subject before and after the match; any other use of
    the dollar is literal. *)
Fixpoint GetSubstitution (matched before after replacement : str) : str :=
  match replacement with
  | [] => []
  | c :: r =>
      if Ascii.eqb c "$" then
        match r with
        | [] => [c]
        | d :: r' =>
            if Ascii.eqb d "$" then "$" :: GetSubstitution matched before after r'
            else if Ascii.eqb d "&" then matched ++ GetSubstitution matched before after r'
            else if Ascii.eqb d "`" then before ++ GetSubstitution matched before after r'
            else if Ascii.eqb d "'" then after ++ GetSubstitution matched before after r'
            else c :: GetSubstitution matched before after r
        end
      else c :: GetSubstitution matched before after r
  end.

(** *** [s.replace(/re/g, replacement)]

    The subject is scanned from left to right; [before] is the part already
    passed, [skip] the number of characters of the current match that are
    still to be stepped over.  No pattern of the program matches the empty
    string. *)
Fixpoint replace_go (re : matcher) (replacement : str)
         (before : str) (skip : nat) (s : str) : str :=
  match s with
  | [] => []
  | c :: s' =>
      match skip with
      | S k => replace_go re replacement (before ++ [c]) k s'
      | O =>
          match re s with
          | Some (S k) =>
              GetSubstitution (firstn (S k) s) before (skipn (S k) s) replacement
                ++ replace_go re replacement (before ++ [c]) k s'
          | _ => c :: replace_go re replacement (before ++ [c]) 0 s'
          end
      end
  end.

Definition replace_g (re : matcher) (replacement : str) (s : str) : str :=
  replace_go re replacement [] 0 s.

(** *** [s.split(/re/)] for a pattern without groups that never matches the
    empty string: [cur] is the piece being collected. *)
Fixpoint split_go (re : matcher) (cur : str) (skip : nat) (s : str) : list str :=
  match s with
  | [] => [cur]
  | c :: s' =>
      match skip with
      | S k => split_go re cur k s'
      | O =>
          match re s with
          | Some (S k) => cur :: split_go re [] k s'
          | _ => split_go re (cur ++ [c]) 0 s'
          end
      end
  end.

Definition split (re : matcher) (s : str) : list str := split_go re [] 0 s.

(** ** The formula pattern [/\$\$([^$]+)\$\$|\$([^$]+)\$/g] *)

Definition not_dollar (c : ascii) : bool := negb (Ascii.eqb c "$").

(** First alternative, [\$\$([^$]+)\$\$]. *)
Definition re_block : matcher :=
  re_seq (re_lit (lit "$$")) (re_seq (re_plus not_dollar) (re_lit (lit "$$"))).

(** Second alternative, [\$([^$]+)\$]. *)
Definition re_inline : matcher :=
  re_seq (re_lit (lit "$")) (re_seq (re_plus not_dollar) (re_lit (lit "$"))).

(** The result of a successful [regex.exec]: [m0] is [match[0]], [m1] and
    [m2] the two groups ([None] for [undefined]). *)
Record RegExpExecArray : Type := mkMatch {
  index : nat;
  m0 : str;
  m1 : option str;
  m2 : option str
}.

(** The pattern tried at one position; the first alternative has priority. *)
Definition formula_at (i : nat) (s : str) : option RegExpExecArray :=
  match re_block s with
  | Some n => Some (mkMatch i (firstn n s) (Some (slice s 2 (n - 2))) None)
  | None =>
      match re_inline s with
      | Some n => Some (mkMatch i (firstn n s) None (Some (slice s 1 (n - 1))))
      | None => None
      end
  end.

(** Positions are tried one after the other, up to the end of the subject. *)
Fixpoint search (s : str) (i : nat) : option RegExpExecArray :=
  match formula_at i s with
  | Some m => Some m
  | None =>
      match s with
      | [] => None
      | _ :: s' => search s' (S i)
      end
  end.

(** [regex.exec(input)] when [regex.lastIndex] is [lastIndex]. *)
Definition exec (input : str) (lastIndex : nat) : option RegExpExecArray :=
  if (length input <? lastIndex)%nat then None
  else search (skipn lastIndex input) lastIndex.

(** The matches seen by [while ((match = regex.exec(input)) !== null)]: the
    pattern is global, so each call resumes at the end of the previous match.
    The bodies of the loops never touch [regex.lastIndex].  [fuel] bounds the
    number of iterations. *)
Fixpoint exec_loop (fuel : nat) (input : str) (lastIndex : nat)
  : list RegExpExecArray :=
  match fuel with
  | O => []
  | S fuel' =>
      match exec input lastIndex with
      | None => []
      | Some m => m :: exec_loop fuel' input (index m + length (m0 m))
      end
  end.

Definition matches (input : str) : list RegExpExecArray :=
  exec_loop (S (length input)) input 0.

(** The loop itself, as a relation: it stops at the first [null]. *)
Inductive ExecLoop (input : str) : nat -> list RegExpExecArray -> Prop :=
| ExecLoop_null : forall k,
    exec input k = None -> ExecLoop input k []
| ExecLoop_match : forall k m ms,
    exec input k = Some m ->
    ExecLoop input (index m + length (m0 m)) ms ->
    ExecLoop input k (m :: ms).

(** [match[1] || match[2]] and [!!match[1]]. *)
Definition latex_of (m : RegExpExecArray) : str :=
  match m1 m with
  | Some (c :: b) => c :: b
  | _ => match m2 m with
         | Some b => b
         | None => []
         end
  end.

Definition isBlock_of (m : RegExpExecArray) : bool :=
  match m1 m with
  | Some b => truthy b
  | None => false
  end.

(** ** Escaping ([escapeHtml], [escapeAndFormat], attribute escaping) *)

Definition escapeHtml (text : str) : str :=
  replace_g (re_lit (lit ">")) (lit "&gt;")
    (replace_g (re_lit (lit "<")) (lit "&lt;")
       (replace_g (re_lit (lit "&")) (lit "&amp;") text)).

Definition escapeAndFormat (text : str) : str :=
  replace_g (re_lit [CR]) (lit "<br>")
    (replace_g (re_lit [LF]) (lit "<br>")
       (replace_g (re_lit [CR; LF]) (lit "<br>") (escapeHtml text))).

(** The value written in the [data-latex] attribute by [parseForDisplay]:
    [escapeHtml(latex)] in which every double quote is then replaced by the
    entity [&quot;]. *)
Definition escapeLatexAttr (latex : str) : str :=
  replace_g (re_lit [DQUOTE]) (lit "&quot;") (escapeHtml latex).

(** The value stored in the context menu by [handleContextMenu] from the
    attribute text [latex]. *)
Definition unescapeLatexAttr (latex : str) : str :=
  replace_g (re_lit (lit "&amp;")) (lit "&")
    (replace_g (re_lit (lit "&gt;")) (lit ">")
       (replace_g (re_lit (lit "&lt;")) (lit "<")
          (replace_g (re_lit (lit "&quot;")) [DQUOTE] latex))).

Definition string_of_bool (b : bool) : str :=
  if b then lit "true" else lit "false".

(** ** Content items and spans *)

(** [ContentItem] of the program. *)
Inductive ContentItem : Type :=
| ItemText (value : str)
| ItemMath (omml : str) (isBlock : bool).

(** What one iteration of the scanning loop of [generateDocx] finds, before
    any conversion: a stretch of text, or a match with its delimited source
    [match[0]], its body and its display mode. *)
Inductive Span : Type :=
| SpanText (value : str)
| SpanFormula (source : str) (latex : str) (isBlock : bool).

Definition span_source (sp : Span) : str :=
  match sp with
  | SpanText v => v
  | SpanFormula src _ _ => src
  end.

Definition is_formula (sp : Span) : bool :=
  match sp with
  | SpanText _ => false
  | SpanFormula _ _ _ => true
  end.

(** The scanning loop of [generateDocx] with the [try] block left out: the
    text before each match is kept when it is not empty, then the match;
    the text after the last match is kept when it is not empty. *)
Definition segment_step (text : str) (st : list Span * nat)
           (m : RegExpExecArray) : list Span * nat :=
  let '(spans, lastIndex) := st in
  let textBefore := slice text lastIndex (index m) in
  let spans := if truthy textBefore then spans ++ [SpanText textBefore] else spans in
  let spans := spans ++ [SpanFormula (m0 m) (latex_of m) (isBlock_of m)] in
  (spans, index m + length (m0 m)).

Definition segment (text : str) : list Span :=
  let '(spans, lastIndex) := fold_left (segment_step text) (matches text) ([], 0) in
  let textAfter := slice_from text lastIndex in
  if truthy textAfter then spans ++ [SpanText textAfter] else spans.

Section Converters.

(** [latexToMathML] wraps [temml.renderToString], [mathmlToOmml] wraps
    [mml2omml]; [None] is a thrown exception. *)
Variable latexToMathML : str -> bool -> option str.
Variable mathmlToOmml : str -> option str.

(** *** [parseForDisplay] *)

Definition parseForDisplay_step (input : str) (st : str * nat)
           (m : RegExpExecArray) : str * nat :=
  let '(result, lastIndex) := st in
  let textBefore := slice input lastIndex (index m) in
  let result := result ++ escapeAndFormat textBefore in
  let latex := latex_of m in
  let isBlock := isBlock_of m in
  let result :=
    match latexToMathML latex isBlock with
    | Some mathml =>
        let escapedLatex := escapeLatexAttr latex in
        result ++ lit "<span class=" ++ [DQUOTE] ++ lit "math-formula" ++ [DQUOTE]
               ++ lit " data-latex=" ++ [DQUOTE] ++ escapedLatex ++ [DQUOTE]
               ++ lit " data-block=" ++ [DQUOTE] ++ string_of_bool isBlock ++ [DQUOTE]
               ++ lit ">" ++ mathml ++ lit "</span>"
    | None =>
        result ++ lit "<span class=" ++ [DQUOTE] ++ lit "error" ++ [DQUOTE]
               ++ lit ">" ++ escapeHtml (m0 m) ++ lit "</span>"
    end in
  (result, index m + length (m0 m)).

Definition parseForDisplay (input : str) : str :=
  let '(result, lastIndex) :=
    fold_left (parseForDisplay_step input) (matches input) ([], 0) in
  result ++ escapeAndFormat (slice_from input lastIndex).

(** *** [handleCopy]: the text written to the clipboard *)

Definition handleCopy_step (input : str) (st : str * nat)
           (m : RegExpExecArray) : str * nat :=
  let '(result, lastIndex) := st in
  let result := result ++ slice input lastIndex (index m) in
  let latex := latex_of m in
  let isBlock := isBlock_of m in
  let result :=
    match latexToMathML latex isBlock with
    | Some mathml => result ++ mathml
    | None => result ++ m0 m
    end in
  (result, index m + length (m0 m)).

Definition handleCopy (input : str) : str :=
  let '(result, lastIndex) :=
    fold_left (handleCopy_step input) (matches input) ([], 0) in
  result ++ slice_from input lastIndex.

(** *** [generateDocx]: from the text to the content items *)

(** The [try] block: both conversions in sequence, the [catch] falls back
    to the matched text. *)
Definition convert_match (m0 latex : str) (isBlock : bool) : ContentItem :=
  match latexToMathML latex isBlock with
  | Some mathml =>
      match mathmlToOmml mathml with
      | Some omml => ItemMath omml isBlock
      | None => ItemText m0
      end
  | None => ItemText m0
  end.

Definition items_step (text : str) (st : list ContentItem * nat)
           (m : RegExpExecArray) : list ContentItem * nat :=
  let '(items, lastIndex) := st in
  let textBefore := slice text lastIndex (index m) in
  let items := if truthy textBefore then items ++ [ItemText textBefore] else items in
  let latex := latex_of m in
  let isBlock := isBlock_of m in
  let items := items ++ [convert_match (m0 m) latex isBlock] in
  (items, index m + length (m0 m)).

Definition parseItems (text : str) : list ContentItem :=
  let '(items, lastIndex) := fold_left (items_step text) (matches text) ([], 0) in
  let textAfter := slice_from text lastIndex in
  if truthy textAfter then items ++ [ItemText textAfter] else items.

(** A span seen through the [try] block. *)
Definition convert_span (sp : Span) : ContentItem :=
  match sp with
  | SpanText v => ItemText v
  | SpanFormula src latex isBlock => convert_match src latex isBlock
  end.

(** The conversion of a formula fails when either step throws. *)
Definition conversion_fails (latex : str) (isBlock : bool) : Prop :=
  match latexToMathML latex isBlock with
  | None => True
  | Some mathml => mathmlToOmml mathml = None
  end.

End Converters.

(** ** [generateDocx]: paragraphs and placeholders *)

Inductive AlignmentType : Type := LEFT | CENTER.

(** The entries of [currentParagraphItems]. *)
Inductive ParagraphItem : Type :=
| PText (value : str)
| PPlaceholder (id : str).

(** [new TextRun(t)] and [new Paragraph({ children, alignment })]. *)
Record TextRun : Type := mkTextRun { run_text : str }.

Record Paragraph : Type := mkParagraph {
  children : list TextRun;
  alignment : AlignmentType
}.

(** The mutable variables of the paragraph-building part of [generateDocx].
    [mathPlaceholders] is a [Map]: its entries are kept in insertion order,
    which is the order in which [for ... of] visits them. *)
Record Assembly : Type := mkAssembly {
  paragraphs : list Paragraph;
  mathPlaceholders : list (str * str);
  placeholderIndex : nat;
  currentParagraphItems : list ParagraphItem
}.

Definition emptyAssembly : Assembly := mkAssembly [] [] 0 [].

(** [Map.prototype.set]: the value of an existing key is replaced in place,
    a new key is added at the end. *)
Fixpoint map_set (k v : str) (m : list (str * str)) : list (str * str) :=
  match m with
  | [] => [(k, v)]
  | (k', v') :: m' =>
      if str_eqb k k' then (k, v) :: m' else (k', v') :: map_set k v m'
  end.

(** A non-negative integer in a template literal: its decimal digits. *)
Definition string_of_nat (n : nat) : str :=
  lit (NilEmpty.string_of_uint (Nat.to_uint n)).

Definition PLACEHOLDER_PREFIX : str := lit "__MATH_PLACEHOLDER_".

(** The template [__MATH_PLACEHOLDER_${placeholderIndex}__]. *)
Definition placeholder_of (placeholderIndex : nat) : str :=
  PLACEHOLDER_PREFIX ++ string_of_nat placeholderIndex ++ lit "__".

Definition run_of_item (item : ParagraphItem) : TextRun :=
  match item with
  | PText value => mkTextRun value
  | PPlaceholder id => mkTextRun id
  end.

Definition flushParagraph (alignment : AlignmentType) (a : Assembly) : Assembly :=
  match currentParagraphItems a with
  | [] => a
  | _ :: _ =>
      let children := map run_of_item (currentParagraphItems a) in
      let paragraphs :=
        if (0 <? length children)%nat
        then paragraphs a ++ [mkParagraph children alignment]
        else paragraphs a in
      mkAssembly paragraphs (mathPlaceholders a) (placeholderIndex a) []
  end.

(** [/\n\n+/] and [/\n/]. *)
Definition is_LF (c : ascii) : bool := Ascii.eqb c LF.
Definition re_blank_lines : matcher := re_seq (re_lit [LF]) (re_plus is_LF).

(** The loop [for (let i = 0; i < parts.length; i++)] over the pieces of a
    text item, [parts] being what is left from index [i] on. *)
Fixpoint add_parts (i : nat) (parts : list str) (a : Assembly) : Assembly :=
  match parts with
  | [] => a
  | part :: rest =>
      let a := if (0 <? i)%nat then flushParagraph LEFT a else a in
      let cleanedText := replace_g (re_lit [LF]) (lit " ") part in
      let a :=
        if truthy cleanedText
        then mkAssembly (paragraphs a) (mathPlaceholders a) (placeholderIndex a)
                        (currentParagraphItems a ++ [PText cleanedText])
        else a in
      add_parts (S i) rest a
  end.

(** The body of [for (const item of items)]. *)
Definition assemble_step (a : Assembly) (item : ContentItem) : Assembly :=
  match item with
  | ItemMath omml true =>
      let a := flushParagraph LEFT a in
      let placeholder := placeholder_of (placeholderIndex a) in
      mkAssembly
        (paragraphs a ++ [mkParagraph [mkTextRun placeholder] CENTER])
        (map_set placeholder omml (mathPlaceholders a))
        (S (placeholderIndex a))
        (currentParagraphItems a)
  | ItemMath omml false =>
      let placeholder := placeholder_of (placeholderIndex a) in
      mkAssembly
        (paragraphs a)
        (map_set placeholder omml (mathPlaceholders a))
        (S (placeholderIndex a))
        (currentParagraphItems a ++ [PPlaceholder placeholder])
  | ItemText value =>
      add_parts 0 (split re_blank_lines value) a
  end.

(** The whole loop followed by the last [flushParagraph()]. *)
Definition assemble (items : list ContentItem) : Assembly :=
  flushParagraph LEFT (fold_left assemble_step items emptyAssembly).

(** Line endings are normalised first. *)
Definition normalize (input : str) : str :=
  replace_g (re_lit [CR]) [LF] (replace_g (re_lit [CR; LF]) [LF] input).

(** ** [generateDocx]: the container and its post-processing *)

(** White space of [\s] among the code units modelled. *)
Definition is_space (c : ascii) : bool :=
  match nat_of_ascii c with
  | 9 | 10 | 11 | 12 | 13 | 32 | 160 => true
  | _ => false
  end.

Definition not_gt (c : ascii) : bool := negb (Ascii.eqb c ">").

(** [new RegExp(`<w:r[^>]*>\\s*<w:t[^>]*>${placeholder}</w:t>\\s*</w:r>`, "g")].
    The placeholder is spliced in the pattern text; the tokens of the program
    are made of capitals, digits and underscores, which stand for themselves
    in a pattern. *)
Definition placeholderPattern (placeholder : str) : matcher :=
  re_seq (re_lit (lit "<w:r"))
 (re_seq (re_star not_gt)
 (re_seq (re_lit (lit ">"))
 (re_seq (re_star is_space)
 (re_seq (re_lit (lit "<w:t"))
 (re_seq (re_star not_gt)
 (re_seq (re_lit (lit ">"))
 (re_seq (re_lit placeholder)
 (re_seq (re_lit (lit "</w:t>"))
 (re_seq (re_star is_space)
         (re_lit (lit "</w:r>"))))))))))).

(** The loop [for (const [placeholder, omml] of mathPlaceholders)]. *)
Definition substitute (documentXml : str) (mathPlaceholders : list (str * str)) : str :=
  fold_left
    (fun modifiedXml entry =>
       replace_g (placeholderPattern (fst entry)) (snd entry) modifiedXml)
    mathPlaceholders documentXml.

(** Calls to the external libraries, in the order they are made. *)
Inductive Call : Type :=
| CallPackerToBlob
| CallZipLoad
| CallZipRead
| CallZipWrite
| CallZipGenerate.

(** The promise returned by [generateDocx]. *)
Inductive Outcome (Blob : Type) : Type :=
| Resolved (blob : Blob)
| Rejected.

Arguments Resolved {Blob} blob.
Arguments Rejected {Blob}.

Section DocxExport.

Variable latexToMathML : str -> bool -> option str.
Variable mathmlToOmml : str -> option str.

Variables Blob Zip : Type.
(** [Packer.toBlob(new Document({ sections: [{ children: paragraphs }] }))]. *)
Variable Packer_toBlob : list Paragraph -> Blob.
(** [JSZip.loadAsync(await blob.arrayBuffer())]; [None] is a rejection. *)
Variable JSZip_loadAsync : Blob -> option Zip.
(** [zip.file("word/document.xml")?.async("string")]; [None] is [undefined]. *)
Variable zip_read : Zip -> option str.
(** [zip.file("word/document.xml", modifiedXml)]. *)
Variable zip_write : Zip -> str -> Zip.
(** [zip.generateAsync({ type: "blob", ... })]. *)
Variable zip_generateAsync : Zip -> Blob.

(** The content items, the paragraphs and the placeholder map of an input. *)
Definition docxItems (input : str) : list ContentItem :=
  parseItems latexToMathML mathmlToOmml (normalize input).

Definition docxAssembly (input : str) : Assembly :=
  assemble (docxItems input).

Definition generateDocx (input : str) : Outcome Blob * list Call :=
  let a := docxAssembly input in
  let blob := Packer_toBlob (paragraphs a) in
  if (length (mathPlaceholders a) =? 0)%nat then
    (Resolved blob, [CallPackerToBlob])
  else
    match JSZip_loadAsync blob with
    | None => (Rejected, [CallPackerToBlob; CallZipLoad])
    | Some zip =>
        match zip_read zip with
        | None => (Resolved blob, [CallPackerToBlob; CallZipLoad; CallZipRead])
        | Some documentXml =>
            if truthy documentXml then
              let modifiedXml := substitute documentXml (mathPlaceholders a) in
              let zip := zip_write zip modifiedXml in
              (Resolved (zip_generateAsync zip),
               [CallPackerToBlob; CallZipLoad; CallZipRead; CallZipWrite;
                CallZipGenerate])
            else (Resolved blob, [CallPackerToBlob; CallZipLoad; CallZipRead])
        end
    end.

End DocxExport.

(** ** Notions used to state the properties *)

(** A pattern is bounded when a match never runs past the subject. *)
Definition bounded (re : matcher) : Prop :=
  forall s n, re s = Some n -> n <= length s.

(** A match of the subject [s] found from position [from] on: it lies inside
    [s] and [m0] is the text at its position. *)
Definition match_in (s : str) (from : nat) (m : RegExpExecArray) : Prop :=
  from <= index m /\
  1 <= length (m0 m) /\
  index m + length (m0 m) <= length s /\
  m0 m = slice s (index m) (index m + length (m0 m)).

(** [p] occurs in [s] as a substring, and its decision procedure. *)
Definition occurs (p s : str) : Prop := exists a b, s = a ++ p ++ b.

Fixpoint occursb (p s : str) : bool :=
  prefixb p s ||
  match s with
  | [] => false
  | _ :: s' => occursb p s'
  end.

(** [p] is read at the head of [s]. *)
Definition starts (p s : str) : Prop := exists b, s = p ++ b.

(** No character of [p] belongs to [q]. *)
Definition disjointb (p q : str) : bool :=
  forallb (fun c => negb (existsb (Ascii.eqb c) q)) p.

(** Whether the formula pattern matches somewhere depends on the dollars
    and on the stretches between them only.  A left-to-right reading with
    four states decides it: no dollar pending, a dollar just read, a dollar
    followed by a non-empty stretch without dollar, and a formula found. *)
Inductive ScanState : Type := Idle | Opened | InBody | Found.

Definition scan_step (q : ScanState) (c : ascii) : ScanState :=
  match q with
  | Idle => if not_dollar c then Idle else Opened
  | Opened => if not_dollar c then InBody else Opened
  | InBody => if not_dollar c then InBody else Found
  | Found => Found
  end.

Definition scan (q : ScanState) (s : str) : ScanState := fold_left scan_step s q.

(** The three scanning loops of the program have one shape: from
    [lastIndex] on, the text before each match goes through [onText], the
    match through [onMatch], and the text after the last match through
    [onText] again. *)
Fixpoint pieces_with {A : Type} (onText : str -> list A)
         (onMatch : RegExpExecArray -> list A)
         (input : str) (ms : list RegExpExecArray) (lastIndex : nat) : list A :=
  match ms with
  | [] => onText (slice_from input lastIndex)
  | m :: ms' =>
      onText (slice input lastIndex (index m)) ++ onMatch m
        ++ pieces_with onText onMatch input ms' (index m + length (m0 m))
  end.

(** The pieces themselves: the text between the matches and [match[0]]. *)
Definition cover (input : str) (ms : list RegExpExecArray) (lastIndex : nat) : str :=
  pieces_with (fun t => t) m0 input ms lastIndex.

(** What the loops of [generateDocx] (before conversion), [parseForDisplay]
    and [handleCopy] do with a stretch of text and with a match. *)
Definition text_span (t : str) : list Span :=
  if truthy t then [SpanText t] else [].

Definition formula_span (m : RegExpExecArray) : list Span :=
  [SpanFormula (m0 m) (latex_of m) (isBlock_of m)].

Definition display_match (latexToMathML : str -> bool -> option str)
           (m : RegExpExecArray) : str :=
  match latexToMathML (latex_of m) (isBlock_of m) with
  | Some mathml =>
      lit "<span class=" ++ [DQUOTE] ++ lit "math-formula" ++ [DQUOTE]
        ++ lit " data-latex=" ++ [DQUOTE] ++ escapeLatexAttr (latex_of m) ++ [DQUOTE]
        ++ lit " data-block=" ++ [DQUOTE] ++ string_of_bool (isBlock_of m) ++ [DQUOTE]
        ++ lit ">" ++ mathml ++ lit "</span>"
  | None =>
      lit "<span class=" ++ [DQUOTE] ++ lit "error" ++ [DQUOTE]
        ++ lit ">" ++ escapeHtml (m0 m) ++ lit "</span>"
  end.

Definition copy_match (latexToMathML : str -> bool -> option str)
           (m : RegExpExecArray) : str :=
  match latexToMathML (latex_of m) (isBlock_of m) with
  | Some mathml => mathml
  | None => m0 m
  end.

(** The part of the text a content item stands for, [sp] being the span it
    was made from: a text item carries it, a math item replaces it. *)
Definition item_source (sp : Span) (it : ContentItem) : str :=
  match it with
  | ItemText v => v
  | ItemMath _ _ => span_source sp
  end.

Definition is_math (it : ContentItem) : bool :=
  match it with
  | ItemText _ => false
  | ItemMath _ _ => true
  end.

(** The runs of a paragraph tree, in document order, and the runs of an
    assembly in progress (the open paragraph comes last). *)
Definition runs_of (ps : list Paragraph) : list TextRun := flat_map children ps.

Definition pending_runs (a : Assembly) : list TextRun :=
  runs_of (paragraphs a) ++ map run_of_item (currentParagraphItems a).

(** Number of runs whose text contains [tok]. *)
Definition run_count (tok : str) (rs : list TextRun) : nat :=
  length (filter (fun r => occursb tok (run_text r)) rs).

Definition tokens (a : Assembly) : list str := map fst (mathPlaceholders a).

(** The run standing for the math item number [k], and the runs that carry
    the reserved prefix of the placeholders. *)
Definition placeholder_run (k : nat) : TextRun := mkTextRun (placeholder_of k).

Definition has_prefix (r : TextRun) : bool :=
  occursb PLACEHOLDER_PREFIX (run_text r).

(** A global replacement whose replacement text is taken literally. *)
Fixpoint replace_plain (re : matcher) (replacement : str) (skip : nat) (s : str) : str :=
  match s with
  | [] => []
  | c :: s' =>
      match skip with
      | S k => replace_plain re replacement k s'
      | O =>
          match re s with
          | Some (S k) => replacement ++ replace_plain re replacement k s'
          | _ => c :: replace_plain re replacement 0 s'
          end
      end
  end.

(** The four stages of the attribute escaping, character by character, and
    the stages the unescaping goes back through. *)
Definition ent (x : ascii) (e : str) (c : ascii) : str :=
  if Ascii.eqb x c then e else [c].

Definition esc4 (c : ascii) : str :=
  if Ascii.eqb "&" c then lit "&amp;"
  else if Ascii.eqb "<" c then lit "&lt;"
  else if Ascii.eqb ">" c then lit "&gt;"
  else if Ascii.eqb DQUOTE c then lit "&quot;"
  else [c].

Definition esc3 (c : ascii) : str :=
  if Ascii.eqb "&" c then lit "&amp;"
  else if Ascii.eqb "<" c then lit "&lt;"
  else if Ascii.eqb ">" c then lit "&gt;"
  else [c].

Definition esc2 (c : ascii) : str :=
  if Ascii.eqb "&" c then lit "&amp;"
  else if Ascii.eqb ">" c then lit "&gt;"
  else [c].

Definition esc1 (c : ascii) : str :=
  if Ascii.eqb "&" c then lit "&amp;" else [c].

(** ** Sample collaborators, used to exercise the statements *)

Definition sample_latexToMathML (latex : str) (displayMode : bool) : option str :=
  Some (lit "<math>" ++ latex ++ lit "</math>").

Definition sample_mathmlToOmml (mathml : str) : option str :=
  Some (lit "<m:oMath>" ++ mathml ++ lit "</m:oMath>").

Definition failing_latexToMathML (latex : str) (displayMode : bool) : option str :=
  None.

(** A converter that throws on the formulas that use an unknown macro. *)
Definition strict_latexToMathML (latex : str) (displayMode : bool) : option str :=
  if occursb (lit "\badmacro") latex then None
  else Some (lit "<math>" ++ latex ++ lit "</math>").

(** A container that is its own archive: the document body is a fixed text. *)
Definition sample_toBlob (ps : list Paragraph) : list Paragraph := ps.
Definition sample_loadAsync (b : list Paragraph) : option (list Paragraph) := Some b.
Definition sample_read (z : list Paragraph) : option str := Some (lit "<w:document/>").
Definition sample_write (z : list Paragraph) (xml : str) : list Paragraph := z.
Definition sample_generateAsync (z : list Paragraph) : list Paragraph := z.

(** ** The context menu of the preview ([handleContextMenu], [handleCopyMathML]) *)

(** [element.dataset]: the [data-latex] and [data-block] attributes, [None]
    for [undefined]. *)
Record Dataset : Type := mkDataset {
  data_latex : option str;
  data_block : option str
}.

(** What the handlers read from a mouse event: the pointer coordinates and
    [target.closest(".math-formula")] ([None] for [null]). *)
Record MouseEvent (Coord : Type) : Type := mkMouseEvent {
  clientX : Coord;
  clientY : Coord;
  closest_formula : option Dataset
}.

Arguments mkMouseEvent {Coord} _ _ _.
Arguments clientX {Coord} _.
Arguments clientY {Coord} _.
Arguments closest_formula {Coord} _.

(** The [contextMenu] state of the component. *)
Record ContextMenu (Coord : Type) : Type := mkContextMenu {
  menu_x : Coord;
  menu_y : Coord;
  menu_latex : str;
  menu_isBlock : bool
}.

Arguments mkContextMenu {Coord} _ _ _ _.
Arguments menu_x {Coord} _.
Arguments menu_y {Coord} _.
Arguments menu_latex {Coord} _.
Arguments menu_isBlock {Coord} _.

(** [handleContextMenu]: the new [contextMenu] state and whether
    [e.preventDefault()] was called. *)
Definition handleContextMenu {Coord : Type} (e : MouseEvent Coord)
           (contextMenu : option (ContextMenu Coord))
  : option (ContextMenu Coord) * bool :=
  match closest_formula e with
  | Some mathFormula =>
      let latex := match data_latex mathFormula with
                   | Some (c :: l) => c :: l
                   | _ => []
                   end in
      let isBlock := match data_block mathFormula with
                     | Some b => str_eqb b (lit "true")
                     | None => false
                     end in
      (Some (mkContextMenu (clientX e) (clientY e) (unescapeLatexAttr latex) isBlock),
       true)
  | None => (contextMenu, false)
  end.

(** [handleCopyMathML]: the new [contextMenu] state, the text written to
    the clipboard if any, and whether [console.error] was called.
    [writeText] tells whether [navigator.clipboard.writeText] resolves. *)
Definition handleCopyMathML {Coord : Type}
           (latexToMathML : str -> bool -> option str)
           (writeText : str -> bool)
           (contextMenu : option (ContextMenu Coord))
  : option (ContextMenu Coord) * option str * bool :=
  match contextMenu with
  | None => (None, None, false)
  | Some menu =>
      match latexToMathML (menu_latex menu) (menu_isBlock menu) with
      | Some mathml =>
          if writeText mathml then (None, Some mathml, false)
          else (contextMenu, None, true)
      | None => (contextMenu, None, true)
      end
  end.

(** [handleCloseContextMenu] and [handleClickOutside]. *)
Definition handleCloseContextMenu {Coord : Type}
           (contextMenu : option (ContextMenu Coord)) : option (ContextMenu Coord) :=
  None.

Definition handleClickOutside {Coord : Type}
           (contextMenu : option (ContextMenu Coord)) : option (ContextMenu Coord) :=
  match contextMenu with
  | Some _ => None
  | None => contextMenu
  end.

(** ** Further notions used to state properties *)

(** The text of a run made from a piece of a text item. *)
Definition cleanText (part : str) : str := replace_g (re_lit [LF]) (lit " ") part.

(** The runs a text item contributes, and the runs expected from a list of
    content items when the next placeholder has the ordinal [k]. *)
Definition text_runs (value : str) : list TextRun :=
  map mkTextRun (filter truthy (map cleanText (split re_blank_lines value))).

Fixpoint expected_runs (items : list ContentItem) (k : nat) : list TextRun :=
  match items with
  | [] => []
  | ItemText value :: rest => text_runs value ++ expected_runs rest k
  | ItemMath _ _ :: rest => placeholder_run k :: expected_runs rest (S k)
  end.

(** The two ways a text changes the assembly: a piece is added to the open
    paragraph, or the open paragraph is closed; and the paragraph made of one
    left-aligned text run. *)
Definition push_text (t : str) (a : Assembly) : Assembly :=
  mkAssembly (paragraphs a) (mathPlaceholders a) (placeholderIndex a)
             (currentParagraphItems a ++ [PText t]).

Definition single_paragraph (t : str) : Paragraph :=
  mkParagraph [mkTextRun t] LEFT.

(** The fragments of the math items, in order. *)
Fixpoint fragments (items : list ContentItem) : list str :=
  match items with
  | [] => []
  | ItemText _ :: rest => fragments rest
  | ItemMath omml _ :: rest => omml :: fragments rest
  end.

Definition is_block_math (it : ContentItem) : bool :=
  match it with
  | ItemMath _ true => true
  | _ => false
  end.

Definition is_center (p : Paragraph) : bool :=
  match alignment p with
  | CENTER => true
  | LEFT => false
  end.

(** A match lies before another one. *)
Definition match_before (m m' : RegExpExecArray) : Prop :=
  index m + length (m0 m) <= index m'.

(** The delimiter of a formula. *)
Definition delimiter (isBlock : bool) : str :=
  if isBlock then lit "$$" else lit "$".

(** What a match holds: a body that is not empty and has no dollar, and as
    matched text the body between two delimiters of its display mode. *)
Definition well_shaped (m : RegExpExecArray) : Prop :=
  latex_of m <> [] /\
  forallb not_dollar (latex_of m) = true /\
  m0 m = delimiter (isBlock_of m) ++ latex_of m ++ delimiter (isBlock_of m).

(** The characters the escaping removes from a text. *)
Definition is_markup (c : ascii) : bool :=
  Ascii.eqb c "<" || Ascii.eqb c ">".

Definition is_line_break (c : ascii) : bool :=
  Ascii.eqb c CR || Ascii.eqb c LF.

(** The character-wise part of [escapeAndFormat]: a line break becomes
    [<br>], any other character is escaped. *)
Definition format_char (c : ascii) : str :=
  if is_line_break c then lit "<br>" else esc3 c.

(** Capital letters, digits and the underscore. *)
Definition is_word_char (c : ascii) : bool :=
  let n := nat_of_ascii c in
  ((65 <=? n) && (n <=? 90))%nat || ((48 <=? n) && (n <=? 57))%nat || (n =? 95)%nat.

(** A run of the document body whose text is [text], with the attributes
    [attrs] on its [w:t] element. *)
Definition run_xml (attrs text : str) : str :=
  lit "<w:r><w:t" ++ attrs ++ lit ">" ++ text ++ lit "</w:t></w:r>".

(** ** The document body as the post-processing sees it

    A piece is a run whose text is a token, with the attributes of its
    [w:t] element, or any other stretch of the body. *)
Inductive Piece : Type :=
| Chunk (text : str)
| Slot (attrs token : str).

Definition piece_xml (p : Piece) : str :=
  match p with
  | Chunk text => text
  | Slot attrs token => run_xml attrs token
  end.

Definition document_xml (pieces : list Piece) : str :=
  concat (map piece_xml pieces).

(** A stretch is closed when it is empty or ends with [>]. *)
Fixpoint closedb (s : str) : bool :=
  match s with
  | [] => true
  | c :: s' =>
      match s' with
      | [] => Ascii.eqb c ">"
      | _ :: _ => closedb s'
      end
  end.

(** A closed stretch in which the reserved prefix does not occur. *)
Definition inert (s : str) : bool :=
  closedb s && negb (occursb PLACEHOLDER_PREFIX s).

(** A body made for the tokens [keys]: every run that holds a token holds
    one of [keys] and has no [>] in its attributes, and the stretches
    between these runs are inert. *)
Definition piece_ok (keys : list str) (p : Piece) : bool :=
  match p with
  | Chunk text => inert text
  | Slot attrs token => forallb not_gt attrs && existsb (str_eqb token) keys
  end.

(** A fragment that the replacement inserts as it is, and that is inert. *)
Definition fragment_ok (omml : str) : bool :=
  forallb not_dollar omml && inert omml.

(** No [<] and no [>]. *)
Definition plain (s : str) : bool := forallb (fun c => negb (is_markup c)) s.

(** What one replacement needs of a piece, for the token [tok]. *)
Definition piece_wf (tok : str) (p : Piece) : bool :=
  match p with
  | Chunk text => closedb text && negb (occursb tok text)
  | Slot attrs token => forallb not_gt attrs && plain token
  end.

(** The run of the token [tok] gives way to the fragment. *)
Definition fill (tok omml : str) (p : Piece) : Piece :=
  match p with
  | Chunk _ => p
  | Slot _ token => if str_eqb token tok then Chunk omml else p
  end.

(** What follows the first [>]. *)
Fixpoint after_gt (s : str) : str :=
  match s with
  | [] => []
  | c :: s' => if Ascii.eqb c ">" then s' else after_gt s'
  end.

(** A document body for a paragraph tree, in the manner of the document
    builder: a run whose text is one of [keys] is a placeholder run. *)
Definition sample_attrs : str :=
  lit " xml:space=" ++ [DQUOTE] ++ lit "preserve" ++ [DQUOTE].

Definition sample_run (keys : list str) (r : TextRun) : Piece :=
  if existsb (str_eqb (run_text r)) keys then Slot sample_attrs (run_text r)
  else Chunk (run_xml sample_attrs (run_text r)).

Definition sample_paragraph (keys : list str) (p : Paragraph) : list Piece :=
  Chunk (match alignment p with
         | LEFT => lit "<w:p>"
         | CENTER => lit "<w:p><w:pPr><w:jc w:val=" ++ [DQUOTE] ++ lit "center"
                       ++ [DQUOTE] ++ lit "/></w:pPr>"
         end)
  :: map (sample_run keys) (children p) ++ [Chunk (lit "</w:p>")].

Definition sample_body (keys : list str) (ps : list Paragraph) : list Piece :=
  Chunk (lit "<w:body>") :: flat_map (sample_paragraph keys) ps
    ++ [Chunk (lit "</w:body>")].

(** A converter whose fragment holds the two characters [$&]. *)
Definition dollar_mathmlToOmml (mathml : str) : option str :=
  Some (lit "<m:oMath><m:t>$&amp;</m:t></m:oMath>").

(** The four entities [handleContextMenu] decodes. *)
Definition entities : list str :=
  [lit "&quot;"; lit "&lt;"; lit "&gt;"; lit "&amp;"].

(** ** Proof automation *)

(** A statement about one character, settled on each of the 256 characters. *)
Ltac each_char c :=
  destruct c as [[|] [|] [|] [|] [|] [|] [|] [|]]; reflexivity.

(* ================================================================== *)
(** * Part II: properties                                              *)
(* ================================================================== *)

(** ** Patterns consume a prefix of the subject *)

Lemma prefixb_length : forall p s, prefixb p s = true -> length p <= length s.
Proof.
  induction p as [|x p IH]; intros [|y s] H; simpl in *; try lia; try discriminate.
  apply andb_true_iff in H. destruct H as [_ H]. apply IH in H. lia.
Qed.

Lemma run_length : forall cls s, run cls s <= length s.
Proof.
  intros cls s. induction s as [|c s IH]; simpl; [lia|].
  destruct (cls c); lia.
Qed.

Lemma bounded_lit : forall p, bounded (re_lit p).
Proof.
  intros p s n. unfold re_lit. destruct (prefixb p s) eqn:E; [|discriminate].
  intros H. injection H as <-. now apply prefixb_length.
Qed.

Lemma bounded_star : forall cls, bounded (re_star cls).
Proof.
  intros cls s n H. unfold re_star in H. injection H as <-. apply run_length.
Qed.

Lemma bounded_plus : forall cls, bounded (re_plus cls).
Proof.
  intros cls s n. unfold re_plus. pose proof (run_length cls s) as L.
  destruct (run cls s); [discriminate|]. intros H. now injection H as <-.
Qed.

Lemma bounded_seq : forall r1 r2, bounded r1 -> bounded r2 -> bounded (re_seq r1 r2).
Proof.
  intros r1 r2 B1 B2 s n. unfold re_seq.
  destruct (r1 s) as [a|] eqn:E1; [|discriminate].
  destruct (r2 (skipn a s)) as [b|] eqn:E2; [|discriminate].
  intros H. injection H as <-.
  apply B1 in E1. apply B2 in E2. rewrite length_skipn in E2. lia.
Qed.

Lemma bounded_block : bounded re_block.
Proof. repeat first [apply bounded_seq | apply bounded_lit | apply bounded_plus]. Qed.

Lemma bounded_inline : bounded re_inline.
Proof. repeat first [apply bounded_seq | apply bounded_lit | apply bounded_plus]. Qed.

(** Both alternatives of the formula pattern start with a dollar. *)
Lemma re_block_pos : forall s n, re_block s = Some n -> 1 <= n.
Proof.
  intros s n. unfold re_block, re_seq, re_lit.
  destruct (prefixb _ s); [|discriminate].
  destruct (match re_plus not_dollar _ with Some _ => _ | None => _ end);
    [|discriminate].
  intros H. injection H as <-. simpl. lia.
Qed.

Lemma re_inline_pos : forall s n, re_inline s = Some n -> 1 <= n.
Proof.
  intros s n. unfold re_inline, re_seq, re_lit.
  destruct (prefixb _ s); [|discriminate].
  destruct (match re_plus not_dollar _ with Some _ => _ | None => _ end);
    [|discriminate].
  intros H. injection H as <-. simpl. lia.
Qed.

(** ** What [exec] returns *)

Lemma formula_at_spec : forall i s m,
    formula_at i s = Some m ->
    index m = i /\ 1 <= length (m0 m) <= length s /\ m0 m = firstn (length (m0 m)) s.
Proof.
  intros i s m. unfold formula_at.
  destruct (re_block s) as [n|] eqn:B.
  - intros H. injection H as <-. simpl.
    pose proof (bounded_block _ _ B). pose proof (re_block_pos _ _ B).
    rewrite length_firstn, Nat.min_l by lia. auto.
  - destruct (re_inline s) as [n|] eqn:I; [|discriminate].
    intros H. injection H as <-. simpl.
    pose proof (bounded_inline _ _ I). pose proof (re_inline_pos _ _ I).
    rewrite length_firstn, Nat.min_l by lia. auto.
Qed.

Lemma search_spec : forall s i m,
    search s i = Some m ->
    exists j, index m = i + j /\ 1 <= length (m0 m) /\
              j + length (m0 m) <= length s /\
              m0 m = firstn (length (m0 m)) (skipn j s).
Proof.
  induction s as [|c s IH]; intros i m; simpl.
  - discriminate.
  - destruct (formula_at i (c :: s)) eqn:F.
    + intros H. injection H as ->. apply formula_at_spec in F.
      exists 0. rewrite Nat.add_0_r. simpl in *. intuition lia.
    + intros H. apply IH in H. destruct H as (j & Hi & Hp & Hl & Hm).
      exists (S j). simpl. repeat split; try lia. exact Hm.
Qed.

Lemma exec_spec : forall input k m,
    exec input k = Some m -> match_in input k m.
Proof.
  intros input k m. unfold exec.
  destruct (length input <? k)%nat eqn:L; [discriminate|].
  apply Nat.ltb_ge in L. intros H. apply search_spec in H.
  destruct H as (j & Hi & Hp & Hl & Hm).
  rewrite length_skipn in Hl. rewrite skipn_skipn in Hm.
  unfold match_in, slice. repeat split; try lia.
  rewrite Hi. replace (k + j + length (m0 m) - (k + j)) with (length (m0 m)) by lia.
  rewrite (Nat.add_comm k j). exact Hm.
Qed.

(** ** The scanning loop terminates: [matches] is the loop *)

Lemma exec_loop_adequate : forall fuel input k,
    length input - k < fuel -> ExecLoop input k (exec_loop fuel input k).
Proof.
  induction fuel as [|fuel IH]; intros input k Hf; [lia|].
  simpl. destruct (exec input k) as [m|] eqn:E.
  - apply ExecLoop_match; [exact E|].
    apply exec_spec in E. destruct E as (H1 & H2 & H3 & _).
    apply IH. lia.
  - now apply ExecLoop_null.
Qed.

Lemma matches_loop : forall input, ExecLoop input 0 (matches input).
Proof. intros input. apply exec_loop_adequate. lia. Qed.

(** The loop determines its matches. *)
Lemma ExecLoop_fun : forall input k ms ms',
    ExecLoop input k ms -> ExecLoop input k ms' -> ms = ms'.
Proof.
  intros input k ms ms' H. revert ms'.
  induction H as [k E|k m ms E _ IH]; intros ms' H';
    inversion H' as [k' E'|k' m' ms'' E' L']; subst; try congruence.
  assert (m = m') by congruence. subst. f_equal. now apply IH.
Qed.

(** ** The pieces of a scan cover the subject *)

Lemma slice_split : forall (s : str) a b,
    a <= b -> b <= length s -> skipn a s = slice s a b ++ skipn b s.
Proof.
  intros s a b Hab Hb. unfold slice.
  replace (skipn b s) with (skipn (b - a) (skipn a s)).
  - now rewrite firstn_skipn.
  - rewrite skipn_skipn. f_equal. lia.
Qed.

Lemma cover_loop : forall input k ms,
    ExecLoop input k ms -> cover input ms k = skipn k input.
Proof.
  intros input k ms H. unfold cover.
  induction H as [k E|k m ms E _ IH]; simpl; [reflexivity|].
  apply exec_spec in E. destruct E as (H1 & H2 & H3 & H4).
  rewrite IH. rewrite (slice_split input k (index m)) by lia.
  rewrite (slice_split input (index m) (index m + length (m0 m))) by lia.
  rewrite <- H4. reflexivity.
Qed.

Lemma cover_matches : forall input, cover input (matches input) 0 = input.
Proof. intros input. now rewrite (cover_loop input 0) by apply matches_loop. Qed.

(** ** Global replacement with a literal replacement text *)

Lemma GetSubstitution_literal : forall matched before after replacement,
    forallb not_dollar replacement = true ->
    GetSubstitution matched before after replacement = replacement.
Proof.
  intros matched before after replacement.
  induction replacement as [|c r IH]; simpl; [reflexivity|].
  intros H. apply andb_true_iff in H. destruct H as [Hc Hr].
  unfold not_dollar in Hc. apply negb_true_iff in Hc. rewrite Hc.
  now rewrite IH.
Qed.

Lemma replace_go_plain : forall re replacement,
    forallb not_dollar replacement = true ->
    forall s before skip,
      replace_go re replacement before skip s = replace_plain re replacement skip s.
Proof.
  intros re replacement Hr s. induction s as [|c s IH]; intros before skip; simpl;
    [reflexivity|].
  destruct skip as [|k]; [|apply IH].
  destruct (re (c :: s)) as [[|k]|]; rewrite ?IH; try reflexivity.
  now rewrite GetSubstitution_literal.
Qed.

Lemma replace_g_plain : forall re replacement s,
    forallb not_dollar replacement = true ->
    replace_g re replacement s = replace_plain re replacement 0 s.
Proof. intros. unfold replace_g. now apply replace_go_plain. Qed.

(** Replacing one character is a character-wise expansion. *)
Lemma replace_char : forall x replacement s,
    replace_plain (re_lit [x]) replacement 0 s = flat_map (ent x replacement) s.
Proof.
  intros x replacement s. induction s as [|c s IH]; [reflexivity|].
  cbn [replace_plain flat_map]. unfold re_lit at 1, ent at 1.
  cbn [prefixb length]. rewrite andb_true_r.
  destruct (Ascii.eqb x c); cbn [app]; now rewrite IH.
Qed.

Lemma flat_map_comp : forall (f g : ascii -> str) (s : str),
    flat_map g (flat_map f s) = flat_map (fun c => flat_map g (f c)) s.
Proof.
  intros f g s. induction s as [|c s IH]; simpl; [reflexivity|].
  now rewrite flat_map_app, IH.
Qed.

(** ** Escaping and unescaping of the [data-latex] attribute *)

Lemma escapeLatexAttr_chars : forall s, escapeLatexAttr s = flat_map esc4 s.
Proof.
  intros s. unfold escapeLatexAttr, escapeHtml.
  rewrite !replace_g_plain by reflexivity.
  cbn [list_ascii_of_string].
  rewrite !replace_char, !flat_map_comp.
  apply flat_map_ext. intros c. each_char c.
Qed.

Lemma unescape_quot_step : forall c rest,
    replace_plain (re_lit (lit "&quot;")) [DQUOTE] 0 (esc4 c ++ rest)
    = esc3 c ++ replace_plain (re_lit (lit "&quot;")) [DQUOTE] 0 rest.
Proof. intros c rest. each_char c. Qed.

Lemma unescape_lt_step : forall c rest,
    replace_plain (re_lit (lit "&lt;")) (lit "<") 0 (esc3 c ++ rest)
    = esc2 c ++ replace_plain (re_lit (lit "&lt;")) (lit "<") 0 rest.
Proof. intros c rest. each_char c. Qed.

Lemma unescape_gt_step : forall c rest,
    replace_plain (re_lit (lit "&gt;")) (lit ">") 0 (esc2 c ++ rest)
    = esc1 c ++ replace_plain (re_lit (lit "&gt;")) (lit ">") 0 rest.
Proof. intros c rest. each_char c. Qed.

Lemma unescape_amp_step : forall c rest,
    replace_plain (re_lit (lit "&amp;")) (lit "&") 0 (esc1 c ++ rest)
    = c :: replace_plain (re_lit (lit "&amp;")) (lit "&") 0 rest.
Proof. intros c rest. each_char c. Qed.

Lemma unescape_quot : forall s,
    replace_plain (re_lit (lit "&quot;")) [DQUOTE] 0 (flat_map esc4 s) = flat_map esc3 s.
Proof.
  induction s as [|c s IH]; [reflexivity|].
  cbn [flat_map]. now rewrite unescape_quot_step, IH.
Qed.

Lemma unescape_lt : forall s,
    replace_plain (re_lit (lit "&lt;")) (lit "<") 0 (flat_map esc3 s) = flat_map esc2 s.
Proof.
  induction s as [|c s IH]; [reflexivity|].
  cbn [flat_map]. now rewrite unescape_lt_step, IH.
Qed.

Lemma unescape_gt : forall s,
    replace_plain (re_lit (lit "&gt;")) (lit ">") 0 (flat_map esc2 s) = flat_map esc1 s.
Proof.
  induction s as [|c s IH]; [reflexivity|].
  cbn [flat_map]. now rewrite unescape_gt_step, IH.
Qed.

Lemma unescape_amp : forall s,
    replace_plain (re_lit (lit "&amp;")) (lit "&") 0 (flat_map esc1 s) = s.
Proof.
  induction s as [|c s IH]; [reflexivity|].
  cbn [flat_map]. now rewrite unescape_amp_step, IH.
Qed.

(** C9. The unescaping of [handleContextMenu] undoes the escaping written in
    the [data-latex] attribute by [parseForDisplay], for every string. *)
Theorem unescape_escape_latex :
  forall s : str, unescapeLatexAttr (escapeLatexAttr s) = s.
Proof.
  intros s. rewrite escapeLatexAttr_chars. unfold unescapeLatexAttr.
  rewrite !replace_g_plain by reflexivity.
  now rewrite unescape_quot, unescape_lt, unescape_gt, unescape_amp.
Qed.

(** ** Substrings *)

Lemma prefixb_starts : forall p s, prefixb p s = true <-> starts p s.
Proof.
  induction p as [|x p IH]; intros s; simpl.
  - split; [intros _; now exists s|reflexivity].
  - destruct s as [|y s].
    + split; [discriminate|]. intros [b H]. discriminate.
    + rewrite andb_true_iff, Ascii.eqb_eq, IH. split.
      * intros [-> [b ->]]. now exists b.
      * intros [b H]. injection H as -> ->. split; [reflexivity|now exists b].
Qed.

Lemma starts_occurs : forall p s, starts p s -> occurs p s.
Proof. intros p s [b ->]. now exists [], b. Qed.

Lemma occurs_cons : forall p x s, occurs p s -> occurs p (x :: s).
Proof. intros p x s (a & b & ->). now exists (x :: a), b. Qed.

Lemma occurs_cons_inv : forall p x s,
    occurs p (x :: s) -> starts p (x :: s) \/ occurs p s.
Proof.
  intros p x s (a & b & H). destruct a as [|y a].
  - left. now exists b.
  - right. injection H as _ ->. now exists a, b.
Qed.

Lemma occurs_nil : forall s, occurs [] s.
Proof. intros s. now exists [], s. Qed.

Lemma occursb_occurs : forall p s, occursb p s = true <-> occurs p s.
Proof.
  intros p s. induction s as [|x s IH]; simpl.
  - rewrite orb_false_r, prefixb_starts. split; [apply starts_occurs|].
    intros (a & b & H). destruct a; [now exists b|discriminate].
  - rewrite orb_true_iff, prefixb_starts, IH. split.
    + intros [H|H]; [now apply starts_occurs|now apply occurs_cons].
    + apply occurs_cons_inv.
Qed.

Lemma occursb_false : forall p s, occursb p s = false <-> ~ occurs p s.
Proof.
  intros p s. rewrite <- occursb_occurs. now destruct (occursb p s).
Qed.

Lemma occurs_trans : forall p q s, occurs p q -> occurs q s -> occurs p s.
Proof.
  intros p q s (a & b & ->) (a' & b' & ->).
  exists (a' ++ a), (b ++ b'). now rewrite <- !app_assoc.
Qed.

Lemma occurs_app_r : forall p a s, occurs p s -> occurs p (a ++ s).
Proof. intros p a s (x & y & ->). exists (a ++ x), y. now rewrite <- app_assoc. Qed.

Lemma occurs_app_l : forall p s b, occurs p s -> occurs p (s ++ b).
Proof. intros p s b (x & y & ->). exists x, (y ++ b). now rewrite <- !app_assoc. Qed.

Lemma occurs_skipn : forall p k s, occurs p (skipn k s) -> occurs p s.
Proof.
  intros p k s H. rewrite <- (firstn_skipn k s). now apply occurs_app_r.
Qed.

Lemma occurs_In_concat : forall (x : str) (l : list str),
    In x l -> occurs x (concat l).
Proof.
  intros x l H. apply in_split in H. destruct H as (l1 & l2 & ->).
  rewrite concat_app. simpl. exists (concat l1), (concat l2). reflexivity.
Qed.

Lemma disjointb_spec : forall p q c,
    disjointb p q = true -> In c p -> In c q -> False.
Proof.
  intros p q c H Hp Hq. unfold disjointb in H. rewrite forallb_forall in H.
  apply H in Hp. apply negb_true_iff in Hp.
  assert (E : existsb (Ascii.eqb c) q = true).
  { apply existsb_exists. exists c. split; [exact Hq|apply Ascii.eqb_refl]. }
  congruence.
Qed.

Lemma disjointb_tail : forall x p q, disjointb (x :: p) q = true -> disjointb p q = true.
Proof. intros x p q H. simpl in H. now apply andb_true_iff in H. Qed.

(** A string made of characters foreign to [q] meets [q ++ s] only in [s]. *)
Lemma occurs_app_disjoint : forall p q s,
    disjointb p q = true -> occurs p (q ++ s) -> p = [] \/ occurs p s.
Proof.
  intros p q s D. induction q as [|y q IH]; simpl; intros H; [now right|].
  apply occurs_cons_inv in H. destruct H as [[b H]|H].
  - destruct p as [|x p]; [now left|]. injection H as -> _.
    exfalso. apply (disjointb_spec _ _ x D); now left.
  - apply IH; [|exact H].
    unfold disjointb in *. rewrite forallb_forall in *. intros c Hc.
    specialize (D c Hc). simpl in D. apply negb_true_iff in D.
    apply orb_false_iff in D. apply negb_true_iff. tauto.
Qed.

Lemma starts_disjoint : forall x p q t b,
    disjointb (x :: p) q = true -> q <> [] -> q ++ t = (x :: p) ++ b -> False.
Proof.
  intros x p q t b D N H. destruct q as [|y q]; [now elim N|].
  injection H as -> _. apply (disjointb_spec _ _ x D); now left.
Qed.

(** ** A replacement cannot create text foreign to the replacement string *)

Section ReplaceReflects.

Variable re : matcher.
Variable replacement : str.
Hypothesis replacement_not_empty : replacement <> [].

Lemma replace_plain_starts : forall s p,
    disjointb p replacement = true ->
    starts p (replace_plain re replacement 0 s) -> starts p s.
Proof.
  induction s as [|c s IH]; intros p D [b H]; simpl in H.
  - destruct p; [now exists []|discriminate].
  - destruct p as [|x p]; [now exists (c :: s)|].
    destruct (re (c :: s)) as [[|k]|].
    + injection H as <- H.
      destruct (IH p (disjointb_tail _ _ _ D)) as [b' ->]; [now exists b|].
      now exists b'.
    + exfalso. exact (starts_disjoint _ _ _ _ _ D replacement_not_empty H).
    + injection H as <- H.
      destruct (IH p (disjointb_tail _ _ _ D)) as [b' ->]; [now exists b|].
      now exists b'.
Qed.

Lemma replace_plain_occurs : forall s p skip,
    disjointb p replacement = true ->
    occurs p (replace_plain re replacement skip s) -> occurs p s.
Proof.
  induction s as [|c s IH]; intros p skip D H; simpl in H; [exact H|].
  destruct skip as [|k]; [|apply occurs_cons; now apply (IH p k)].
  assert (K : forall t, starts p (c :: replace_plain re replacement 0 s)
                        \/ occurs p (replace_plain re replacement t s) ->
                        occurs p (c :: s)).
  { intros t [[b Hs]|Ho]; [|apply occurs_cons; now apply (IH p t)].
    destruct p as [|x p]; [apply occurs_nil|]. injection Hs as <- Hs.
    destruct (replace_plain_starts s p (disjointb_tail _ _ _ D)) as [b' ->];
      [now exists b|].
    now exists [], b'. }
  destruct (re (c :: s)) as [[|k]|].
  - apply occurs_cons_inv in H. now apply (K 0).
  - apply occurs_app_disjoint in H; [|exact D].
    destruct H as [->|H]; [apply occurs_nil|]. apply (K k). now right.
  - apply occurs_cons_inv in H. now apply (K 0).
Qed.

Lemma replace_g_occurs : forall s p,
    forallb not_dollar replacement = true ->
    disjointb p replacement = true ->
    occurs p (replace_g re replacement s) -> occurs p s.
Proof.
  intros s p L D. rewrite replace_g_plain by exact L. apply replace_plain_occurs, D.
Qed.

End ReplaceReflects.

(** ** The pieces of a split are parts of the subject *)

Lemma split_go_parts : forall re s cur skip part,
    In part (split_go re cur skip s) ->
    (exists t, part = cur ++ t /\ starts t (skipn skip s)) \/ occurs part s.
Proof.
  intros re s. induction s as [|c s IH]; intros cur skip part H; simpl in H.
  - destruct H as [<-|[]]. left. exists []. rewrite app_nil_r.
    split; [reflexivity|]. destruct skip; now exists [].
  - destruct skip as [|k].
    + assert (K : In part (split_go re (cur ++ [c]) 0 s) ->
                  (exists t, part = cur ++ t /\ starts t (c :: s)) \/ occurs part (c :: s)).
      { intros Hin. apply IH in Hin. destruct Hin as [(t & -> & [b Hb])|Ho].
        - left. exists (c :: t). rewrite <- app_assoc. split; [reflexivity|].
          simpl in Hb. subst s. now exists b.
        - right. now apply occurs_cons. }
      destruct (re (c :: s)) as [[|k]|]; try (now apply K).
      destruct H as [<-|H].
      * left. exists []. rewrite app_nil_r. split; [reflexivity|]. now exists (c :: s).
      * right. apply occurs_cons. apply IH in H.
        destruct H as [(t & -> & Hs)|Ho]; [|exact Ho].
        apply (occurs_skipn _ k). now apply starts_occurs.
    + apply IH in H. destruct H as [(t & -> & Hs)|Ho].
      * left. now exists t.
      * right. now apply occurs_cons.
Qed.

Lemma split_parts : forall re s part, In part (split re s) -> occurs part s.
Proof.
  intros re s part H. apply split_go_parts in H.
  destruct H as [(t & -> & Hs)|Ho]; [|exact Ho]. now apply starts_occurs.
Qed.

(** ** The two alternatives of the formula pattern, declaratively

    At a given position an alternative has at most one match: the body is
    followed by a dollar, hence it is the whole run of non-dollar characters.
    The matcher finds exactly that match. *)

Lemma run_all : forall cls s, forallb cls (firstn (run cls s) s) = true.
Proof.
  intros cls s. induction s as [|c s IH]; simpl; [reflexivity|].
  destruct (cls c) eqn:E; simpl; [now rewrite E|reflexivity].
Qed.

Lemma run_app : forall cls body c rest,
    forallb cls body = true -> cls c = false ->
    run cls (body ++ c :: rest) = length body.
Proof.
  intros cls body c rest Hb Hc. induction body as [|x body IH]; simpl.
  - now rewrite Hc.
  - simpl in Hb. apply andb_true_iff in Hb. destruct Hb as [-> Hb]. now rewrite IH.
Qed.

Lemma skipn_length_app : forall (a b : str), skipn (length a) (a ++ b) = b.
Proof. intros a b. induction a as [|x a IH]; simpl; [reflexivity|exact IH]. Qed.

Lemma delimited_iff : forall (d' : str) (s : str) (n : nat),
    let d := "$" :: d' in
    re_seq (re_lit d) (re_seq (re_plus not_dollar) (re_lit d)) s = Some n <->
    exists body rest,
      body <> [] /\ forallb not_dollar body = true /\
      s = d ++ body ++ d ++ rest /\
      n = length d + (length body + length d).
Proof.
  intros d' s n d. unfold re_seq, re_lit. split.
  - destruct (prefixb d s) eqn:P; [|discriminate].
    apply prefixb_starts in P. destruct P as [s1 ->].
    rewrite skipn_length_app. unfold re_plus.
    destruct (run not_dollar s1) as [|k] eqn:R; [discriminate|].
    assert (A : forallb not_dollar (firstn (S k) s1) = true)
      by (rewrite <- R; apply run_all).
    assert (L : S k <= length s1) by (rewrite <- R; apply run_length).
    destruct (prefixb d (skipn (S k) s1)) eqn:P2; [|discriminate].
    apply prefixb_starts in P2. destruct P2 as [rest E].
    intros H. injection H as <-.
    exists (firstn (S k) s1), rest. repeat split.
    + intros N. apply (f_equal (@length ascii)) in N.
      rewrite length_firstn in N. cbn [length] in N. lia.
    + exact A.
    + rewrite <- E. now rewrite firstn_skipn.
    + rewrite length_firstn. unfold d. cbn [length]. lia.
  - intros (body & rest & Hne & Hall & -> & ->).
    assert (P : prefixb d (d ++ body ++ d ++ rest) = true)
      by (apply prefixb_starts; now eexists).
    rewrite P, skipn_length_app. unfold re_plus.
    assert (R : run not_dollar (body ++ d ++ rest) = length body)
      by (apply run_app; [exact Hall|reflexivity]).
    rewrite R. destruct body as [|x body]; [now elim Hne|].
    cbn [length]. change (S (length body)) with (length (x :: body)).
    rewrite skipn_length_app.
    assert (P2 : prefixb d (d ++ rest) = true)
      by (apply prefixb_starts; now eexists).
    now rewrite P2.
Qed.

Lemma re_block_iff : forall s n,
    re_block s = Some n <->
    exists body rest,
      body <> [] /\ forallb not_dollar body = true /\
      s = lit "$$" ++ body ++ lit "$$" ++ rest /\ n = length body + 4.
Proof.
  intros s n. unfold re_block.
  rewrite (delimited_iff (lit "$") s n). simpl.
  split; intros (body & rest & H1 & H2 & H3 & H4); exists body, rest;
    repeat split; auto; lia.
Qed.

Lemma re_inline_iff : forall s n,
    re_inline s = Some n <->
    exists body rest,
      body <> [] /\ forallb not_dollar body = true /\
      s = lit "$" ++ body ++ lit "$" ++ rest /\ n = length body + 2.
Proof.
  intros s n. unfold re_inline.
  rewrite (delimited_iff [] s n). simpl.
  split; intros (body & rest & H1 & H2 & H3 & H4); exists body, rest;
    repeat split; auto; lia.
Qed.

(** [exec] returns the leftmost match at or after [lastIndex]. *)
Lemma search_leftmost : forall s i m,
    search s i = Some m ->
    forall j, i <= j < index m -> formula_at j (skipn (j - i) s) = None.
Proof.
  induction s as [|c s IH]; intros i m H j Hj; simpl in H.
  - discriminate.
  - destruct (formula_at i (c :: s)) as [m'|] eqn:F.
    + injection H as ->. apply formula_at_spec in F. lia.
    + destruct (Nat.eq_dec j i) as [->|N].
      * rewrite Nat.sub_diag. simpl.
        unfold formula_at in *.
        destruct (re_block (c :: s)); [discriminate|].
        destruct (re_inline (c :: s)); [discriminate|reflexivity].
      * replace (j - i) with (S (j - S i)) by lia. simpl.
        apply (IH (S i) m H). lia.
Qed.

(** ** Where the formula pattern can match *)

Lemma scan_app : forall q a b, scan q (a ++ b) = scan (scan q a) b.
Proof. intros q a b. apply fold_left_app. Qed.

Lemma scan_Found : forall s, scan Found s = Found.
Proof. induction s as [|c s IH]; simpl; [reflexivity|exact IH]. Qed.

(** A stretch without dollar moves each state as one of its characters. *)
Lemma scan_body : forall body q,
    forallb not_dollar body = true -> body <> [] ->
    scan q body = match q with
                  | Idle => Idle
                  | Opened | InBody => InBody
                  | Found => Found
                  end.
Proof.
  induction body as [|c body IH]; intros q Hb Hne; [now elim Hne|].
  simpl in Hb. apply andb_true_iff in Hb. destruct Hb as [Hc Hb].
  destruct body as [|c' body].
  - destruct q; simpl; now rewrite ?Hc.
  - change (scan q (c :: c' :: body)) with (scan (scan_step q c) (c' :: body)).
    rewrite IH by (auto; discriminate).
    destruct q; simpl; now rewrite ?Hc.
Qed.

Lemma scan_no_dollar : forall s q,
    forallb not_dollar s = true -> q <> Found -> scan q s <> Found.
Proof.
  intros s q Hs Hq. destruct s as [|c s]; [exact Hq|].
  rewrite scan_body by (auto; discriminate). now destruct q.
Qed.

(** The stretch of characters of a class at the head of a string. *)
Lemma run_split : forall cls s,
    exists body rest,
      s = body ++ rest /\ forallb cls body = true /\ run cls s = length body /\
      (rest = [] \/ exists c r, rest = c :: r /\ cls c = false).
Proof.
  intros cls s. induction s as [|c s (body & rest & E & A & R & T)].
  - exists [], []. simpl. auto.
  - simpl. destruct (cls c) eqn:C.
    + exists (c :: body), rest. simpl. rewrite C, A, R, <- E. auto.
    + exists [], (c :: s). simpl. repeat split; auto. right. now exists c, s.
Qed.

Lemma not_dollar_false : forall c, not_dollar c = false -> c = "$".
Proof.
  intros c H. unfold not_dollar in H. apply negb_false_iff in H.
  now apply Ascii.eqb_eq in H.
Qed.

Lemma formula_at_not_dollar : forall i c s,
    not_dollar c = true -> formula_at i (c :: s) = None.
Proof.
  intros i c s H. unfold not_dollar in H. apply negb_true_iff in H.
  assert (P : forall p, prefixb ("$" :: p) (c :: s) = false).
  { intros p. cbn [prefixb]. now rewrite (Ascii.eqb_sym "$" c), H. }
  unfold formula_at, re_block, re_inline, re_seq, re_lit.
  cbn [list_ascii_of_string]. now rewrite !P.
Qed.

Lemma search_cons : forall c s i,
    search (c :: s) i
    = match formula_at i (c :: s) with
      | Some m => Some m
      | None => search s (S i)
      end.
Proof. reflexivity. Qed.

Lemma search_no_dollar : forall s i,
    forallb not_dollar s = true -> search s i = None.
Proof.
  induction s as [|c s IH]; intros i H; [reflexivity|].
  simpl in H. apply andb_true_iff in H. destruct H as [Hc Hs].
  rewrite search_cons. rewrite formula_at_not_dollar by exact Hc. now apply IH.
Qed.

Lemma formula_at_Some : forall i s,
    (exists n, re_block s = Some n) \/ (exists n, re_inline s = Some n) ->
    formula_at i s <> None.
Proof.
  intros i s H. unfold formula_at.
  destruct (re_block s); [discriminate|].
  destruct H as [[n H]|[n H]]; [discriminate|]. now rewrite H.
Qed.

Lemma search_found : forall s i, formula_at i s <> None -> search s i <> None.
Proof.
  intros s i H. destruct s as [|c s]; [exact H|].
  rewrite search_cons. destruct (formula_at i (c :: s)); [discriminate|now elim H].
Qed.

(** The reading finds a formula exactly when [exec] finds a match. *)
Lemma search_scan : forall s i, search s i = None <-> scan Idle s <> Found.
Proof.
  induction s as [|c s IH]; intros i.
  - split; [discriminate|reflexivity].
  - destruct (not_dollar c) eqn:C.
    + rewrite search_cons. rewrite formula_at_not_dollar by exact C.
      change (scan Idle (c :: s)) with (scan (scan_step Idle c) s).
      simpl. rewrite C. apply IH.
    + apply not_dollar_false in C. subst c.
      change (scan Idle ("$" :: s)) with (scan Opened s).
      destruct s as [|x s'].
      * split; [discriminate|reflexivity].
      * destruct (not_dollar x) eqn:X.
        -- (* a dollar, then a stretch: the inline form, if it is closed *)
           destruct (run_split not_dollar (x :: s')) as (body & rest & E & A & R & T).
           assert (Hne : body <> []).
           { intros ->. simpl in R. now rewrite X in R. }
           destruct T as [->|(c & r & -> & Hc)].
           ++ rewrite app_nil_r in E. subst body.
              split; [intros _; apply scan_no_dollar; [exact A|discriminate]|].
              intros _. rewrite search_cons.
              assert (F : formula_at i ("$" :: x :: s') = None).
              { unfold formula_at.
                destruct (re_block ("$" :: x :: s')) as [n|] eqn:B.
                - apply re_block_iff in B. destruct B as (b & r & _ & _ & B & _).
                  simpl in B. injection B as -> _. discriminate.
                - destruct (re_inline ("$" :: x :: s')) as [n|] eqn:I; [|reflexivity].
                  apply re_inline_iff in I. destruct I as (b & r & _ & Hb & I & _).
                  simpl in I. injection I as I. exfalso.
                  assert (In "$" (x :: s')) by (rewrite I; apply in_elt).
                  rewrite forallb_forall in A. now apply A in H. }
              rewrite F. now apply search_no_dollar.
           ++ apply not_dollar_false in Hc. subst c. rewrite E.
              split.
              ** intros H. exfalso. revert H. apply search_found, formula_at_Some.
                 right. exists (length body + 2). apply re_inline_iff.
                 now exists body, r.
              ** intros H. exfalso. apply H.
                 rewrite scan_app, (scan_body body) by assumption. simpl. apply scan_Found.
        -- (* two dollars: the block form here, or whatever starts at the second *)
           apply not_dollar_false in X. subst x.
           change (scan Opened ("$" :: s')) with (scan Idle ("$" :: s')).
           rewrite <- (IH (S i)). rewrite search_cons.
           destruct (formula_at i ("$" :: "$" :: s')) as [m|] eqn:F;
             [|reflexivity].
           split; [discriminate|]. intros H. exfalso. revert H.
           apply search_found, formula_at_Some. right.
           unfold formula_at in F.
           destruct (re_block ("$" :: "$" :: s')) as [n|] eqn:B.
           ++ apply re_block_iff in B. destruct B as (b & r & Hne & Hb & B & _).
              simpl in B. injection B as ->.
              exists (length b + 2). apply re_inline_iff.
              exists b, ("$" :: r). repeat split; auto.
           ++ destruct (re_inline ("$" :: "$" :: s')) as [n|] eqn:I; [|discriminate].
              apply re_inline_iff in I. destruct I as (b & r & Hne & Hb & I & _).
              destruct b as [|y b]; [now elim Hne|]. simpl in I. injection I as <- _.
              discriminate.
Qed.

Lemma matches_nil_iff : forall input, matches input = [] <-> scan Idle input <> Found.
Proof.
  intros input. rewrite <- (search_scan input 0).
  unfold matches. cbn [exec_loop]. unfold exec. simpl.
  destruct (search input 0); split; (discriminate || reflexivity).
Qed.

(** A replacement that trades stretches without dollar for stretches without
    dollar leaves the reading unchanged. *)
Lemma scan_replace_plain : forall re replacement,
    (forall t n, re t = Some (S n) ->
                 S n <= length t /\
                 forall q, scan q replacement = scan q (firstn (S n) t)) ->
    forall s k q, scan q (replace_plain re replacement k s) = scan q (skipn k s).
Proof.
  intros re replacement Hre s. induction s as [|c s IH]; intros k q.
  - now destruct k.
  - cbn [replace_plain]. destruct k as [|k]; [|apply IH].
    destruct (re (c :: s)) as [[|n]|] eqn:E.
    + simpl. apply (IH 0).
    + destruct (Hre _ _ E) as [_ Hq].
      rewrite scan_app, Hq, IH.
      change (skipn 0 (c :: s)) with (c :: s).
      replace (scan q (c :: s))
        with (scan q (firstn (S n) (c :: s) ++ skipn (S n) (c :: s)))
        by now rewrite firstn_skipn.
      now rewrite scan_app.
    + simpl. apply (IH 0).
Qed.

Lemma scan_replace_lit : forall p replacement s q,
    p <> [] -> forallb not_dollar replacement = true ->
    (forall q', scan q' replacement = scan q' p) ->
    scan q (replace_g (re_lit p) replacement s) = scan q s.
Proof.
  intros p replacement s q Hp Hl Hq.
  rewrite replace_g_plain by exact Hl.
  rewrite scan_replace_plain; [reflexivity|].
  intros t n. unfold re_lit. destruct (prefixb p t) eqn:P; [|discriminate].
  intros H. injection H as H. pose proof (prefixb_length _ _ P) as L.
  apply prefixb_starts in P. destruct P as [b ->].
  split; [lia|]. intros q'. rewrite <- H, firstn_app, Nat.sub_diag, firstn_all.
  simpl. rewrite app_nil_r. apply Hq.
Qed.

Lemma scan_normalize : forall input, scan Idle (normalize input) = scan Idle input.
Proof.
  intros input. unfold normalize.
  rewrite scan_replace_lit; [|discriminate|reflexivity|intros []; reflexivity].
  apply scan_replace_lit; [discriminate|reflexivity|intros []; reflexivity].
Qed.

(** Normalising the line endings neither creates nor removes a match. *)
Lemma matches_normalize : forall input,
    matches (normalize input) = [] <-> matches input = [].
Proof.
  intros input. now rewrite !matches_nil_iff, scan_normalize.
Qed.

(** ** The scanning loops of [generateDocx] *)

Lemma truthy_false : forall s, truthy s = false -> s = [].
Proof. now intros [|c s]. Qed.

(** A loop that appends [onText] of the text before the match and [onMatch]
    of the match to its accumulator, and moves past the match, produces the
    pieces of [pieces_with]. *)
Lemma fold_pieces :
  forall (A : Type) (input : str) (onText : str -> list A)
         (onMatch : RegExpExecArray -> list A)
         (step : list A * nat -> RegExpExecArray -> list A * nat),
    (forall acc k m,
        step (acc, k) m
        = (acc ++ onText (slice input k (index m)) ++ onMatch m,
           index m + length (m0 m))) ->
    forall ms acc k,
      fst (fold_left step ms (acc, k))
        ++ onText (slice_from input (snd (fold_left step ms (acc, k))))
      = acc ++ pieces_with onText onMatch input ms k.
Proof.
  intros A input onText onMatch step Hstep ms.
  induction ms as [|m ms IH]; intros acc k; simpl; [reflexivity|].
  rewrite Hstep, IH. now rewrite <- !app_assoc.
Qed.

Lemma segment_pieces : forall text,
    segment text = pieces_with text_span formula_span text (matches text) 0.
Proof.
  intros text. unfold segment.
  assert (S : forall acc k m,
             segment_step text (acc, k) m
             = (acc ++ text_span (slice text k (index m)) ++ formula_span m,
                index m + length (m0 m))).
  { intros acc k m. unfold segment_step, text_span, formula_span.
    destruct (truthy (slice text k (index m))); now rewrite <- ?app_assoc. }
  pose proof (fold_pieces Span text text_span formula_span (segment_step text) S
                (matches text) [] 0) as H.
  destruct (fold_left (segment_step text) (matches text) ([], 0)) as [spans k].
  simpl in H. rewrite <- H. unfold text_span.
  destruct (truthy (slice_from text k)); now rewrite ?app_nil_r.
Qed.

Lemma handleCopy_pieces : forall l2m input,
    handleCopy l2m input
    = pieces_with (fun t => t) (copy_match l2m) input (matches input) 0.
Proof.
  intros l2m input. unfold handleCopy.
  assert (S : forall acc k m,
             handleCopy_step l2m input (acc, k) m
             = (acc ++ slice input k (index m) ++ copy_match l2m m,
                index m + length (m0 m))).
  { intros acc k m. unfold handleCopy_step, copy_match.
    destruct (l2m (latex_of m) (isBlock_of m)); now rewrite <- ?app_assoc. }
  pose proof (fold_pieces ascii input (fun t => t) (copy_match l2m)
                (handleCopy_step l2m input) S (matches input) [] 0) as H.
  match goal with
  | |- (let '(r, k) := ?p in _) = _ =>
      transitivity (fst p ++ slice_from input (snd p)); [now destruct p|exact H]
  end.
Qed.

Lemma parseForDisplay_pieces : forall l2m input,
    parseForDisplay l2m input
    = pieces_with escapeAndFormat (display_match l2m) input (matches input) 0.
Proof.
  intros l2m input. unfold parseForDisplay.
  assert (S : forall acc k m,
             parseForDisplay_step l2m input (acc, k) m
             = (acc ++ escapeAndFormat (slice input k (index m)) ++ display_match l2m m,
                index m + length (m0 m))).
  { intros acc k m. unfold parseForDisplay_step, display_match.
    destruct (l2m (latex_of m) (isBlock_of m)); now rewrite <- ?app_assoc. }
  pose proof (fold_pieces ascii input escapeAndFormat (display_match l2m)
                (parseForDisplay_step l2m input) S (matches input) [] 0) as H.
  match goal with
  | |- (let '(r, k) := ?p in _) = _ =>
      transitivity (fst p ++ escapeAndFormat (slice_from input (snd p)));
        [now destruct p|exact H]
  end.
Qed.

(** When the converter throws on every formula, the text copied by
    [handleCopy] is the input. *)
Lemma handleCopy_failing : forall input,
    handleCopy failing_latexToMathML input = input.
Proof.
  intros input. rewrite handleCopy_pieces. apply cover_matches.
Qed.

Lemma spans_cover : forall text ms k,
    concat (map span_source (pieces_with text_span formula_span text ms k))
    = cover text ms k.
Proof.
  intros text ms. unfold cover.
  assert (T : forall t, concat (map span_source (text_span t)) = t).
  { intros t. unfold text_span. destruct (truthy t) eqn:E; simpl.
    - apply app_nil_r.
    - now apply truthy_false in E. }
  induction ms as [|m ms IH]; intros k; cbn [pieces_with]; [apply T|].
  rewrite !map_app, !concat_app, T, IH. unfold formula_span. simpl.
  now rewrite app_nil_r.
Qed.

Lemma segment_sources : forall text,
    concat (map span_source (segment text)) = text.
Proof.
  intros text. rewrite segment_pieces, spans_cover. apply cover_matches.
Qed.

Section Segmentation.

Variable latexToMathML : str -> bool -> option str.
Variable mathmlToOmml : str -> option str.

(** The loop of [generateDocx] is the segmentation followed by the [try]
    block on each span. *)
Lemma items_fold_segment : forall text ms spans k,
    fold_left (items_step latexToMathML mathmlToOmml text) ms
              (map (convert_span latexToMathML mathmlToOmml) spans, k)
    = (map (convert_span latexToMathML mathmlToOmml)
           (fst (fold_left (segment_step text) ms (spans, k))),
       snd (fold_left (segment_step text) ms (spans, k))).
Proof.
  intros text ms. induction ms as [|m ms IH]; intros spans k; simpl; [reflexivity|].
  rewrite <- IH. f_equal. f_equal.
  destruct (truthy (slice text k (index m))); now rewrite !map_app.
Qed.

Lemma parseItems_segment : forall text,
    parseItems latexToMathML mathmlToOmml text
    = map (convert_span latexToMathML mathmlToOmml) (segment text).
Proof.
  intros text. unfold parseItems, segment.
  pose proof (items_fold_segment text (matches text) [] 0) as H. simpl in H.
  rewrite H.
  destruct (fold_left (segment_step text) (matches text) ([], 0)) as [spans k].
  simpl. destruct (truthy (slice_from text k)); now rewrite ?map_app.
Qed.

Lemma item_source_convert : forall sp,
    item_source sp (convert_span latexToMathML mathmlToOmml sp) = span_source sp.
Proof.
  intros [v|src latex b]; simpl; [reflexivity|].
  unfold convert_match.
  destruct (latexToMathML latex b) as [mathml|]; [|reflexivity].
  now destruct (mathmlToOmml mathml).
Qed.

Lemma combine_map_r : forall (A B : Type) (f : A -> B) (l : list A),
    combine l (map f l) = map (fun x => (x, f x)) l.
Proof. intros A B f l. induction l as [|x l IH]; simpl; congruence. Qed.

(** A formula whose conversion fails becomes the text of its source. *)
Lemma convert_failure : forall src latex b,
    conversion_fails latexToMathML mathmlToOmml latex b ->
    convert_span latexToMathML mathmlToOmml (SpanFormula src latex b) = ItemText src.
Proof.
  intros src latex b. unfold conversion_fails. simpl. unfold convert_match.
  destruct (latexToMathML latex b) as [mathml|]; [|reflexivity].
  now intros ->.
Qed.

End Segmentation.

(** C1. Round-trip coverage, for every subject of the scanning pass (the
    input in [parseForDisplay], the input with its line endings normalised in
    [generateDocx]): the text pieces of the loop and the matched text of
    every match, in order, spell the subject exactly; so do the spans kept by
    [generateDocx], taken with the delimited source of each formula; the
    content items are in one-to-one correspondence with the spans, and
    reading each text item as its value (a degraded formula carries its
    matched text verbatim) and each math item as the delimited source of its
    span spells the subject again, whatever the converters do. *)
Theorem round_trip_coverage :
  forall (latexToMathML : str -> bool -> option str)
         (mathmlToOmml : str -> option str) (input : str),
    cover input (matches input) 0 = input /\
    concat (map span_source (segment input)) = input /\
    length (parseItems latexToMathML mathmlToOmml input) = length (segment input) /\
    concat (map (fun p => item_source (fst p) (snd p))
                (combine (segment input)
                         (parseItems latexToMathML mathmlToOmml input))) = input.
Proof.
  intros l2m m2o input. split; [apply cover_matches|].
  split; [apply segment_sources|].
  rewrite parseItems_segment. split; [apply length_map|].
  rewrite combine_map_r, map_map. simpl.
  rewrite (map_ext _ span_source) by apply item_source_convert.
  apply segment_sources.
Qed.

(** C6. Balanced markers: the doubled marker is one block formula. *)
Theorem balanced_marker_spans :
  segment (lit "$$a$$ and $b$")
  = [ SpanFormula (lit "$$a$$") (lit "a") true;
      SpanText (lit " and ");
      SpanFormula (lit "$b$") (lit "b") false ].
Proof. vm_compute. reflexivity. Qed.

(** C7. Odd markers: the unmatched trailing marker stays in the text. *)
Theorem odd_marker_spans :
  segment (lit "$a$ and $b")
  = [ SpanFormula (lit "$a$") (lit "a") false;
      SpanText (lit " and $b") ].
Proof. vm_compute. reflexivity. Qed.

(** C10. Without any match of the formula pattern, the text copied to the
    clipboard by [handleCopy] is the input itself, whereas the preview of
    [parseForDisplay] is the input escaped and with its line breaks
    converted. *)
Theorem handleCopy_no_match :
  forall (latexToMathML : str -> bool -> option str) (input : str),
    matches input = [] ->
    handleCopy latexToMathML input = input /\
    parseForDisplay latexToMathML input = escapeAndFormat input.
Proof.
  intros l2m input H. unfold handleCopy, parseForDisplay. rewrite H.
  split; reflexivity.
Qed.

Lemma handleCopy_no_match_witness :
  let input := lit "a<b & c" ++ [LF] ++ lit "d" in
  matches input = [] /\
  handleCopy sample_latexToMathML input = input /\
  parseForDisplay sample_latexToMathML input = lit "a&lt;b &amp; c<br>d".
Proof.
  intros input.
  assert (H : matches input = []) by reflexivity.
  split; [exact H|].
  destruct (handleCopy_no_match sample_latexToMathML input H) as [C D].
  split; [exact C|]. rewrite D. reflexivity.
Defined.

(** ** The paragraph builder keeps the placeholder map on text *)

Lemma flushParagraph_placeholders : forall al a,
    mathPlaceholders (flushParagraph al a) = mathPlaceholders a /\
    placeholderIndex (flushParagraph al a) = placeholderIndex a /\
    currentParagraphItems (flushParagraph al a) = [].
Proof.
  intros al a. unfold flushParagraph.
  destruct (currentParagraphItems a) eqn:E; simpl; auto.
Qed.

Lemma add_parts_placeholders : forall parts i a,
    mathPlaceholders (add_parts i parts a) = mathPlaceholders a /\
    placeholderIndex (add_parts i parts a) = placeholderIndex a.
Proof.
  induction parts as [|part rest IH]; intros i a; [auto|].
  simpl.
  set (a1 := if (0 <? i)%nat then flushParagraph LEFT a else a).
  assert (E : mathPlaceholders a1 = mathPlaceholders a /\
              placeholderIndex a1 = placeholderIndex a).
  { unfold a1. destruct (0 <? i)%nat; [|auto].
    destruct (flushParagraph_placeholders LEFT a) as (F1 & F2 & _). auto. }
  destruct E as [E1 E2].
  match goal with
  | |- context [add_parts (S i) rest ?x] => destruct (IH (S i) x) as [-> ->]
  end.
  destruct (truthy _); simpl; auto.
Qed.

Lemma assemble_text_placeholders : forall items a,
    forallb (fun it => negb (is_math it)) items = true ->
    mathPlaceholders (fold_left assemble_step items a) = mathPlaceholders a.
Proof.
  induction items as [|it items IH]; intros a H; simpl in *; [reflexivity|].
  apply andb_true_iff in H. destruct H as [Hit H].
  rewrite IH by exact H.
  destruct it as [v|o b]; [|discriminate]. simpl.
  apply add_parts_placeholders.
Qed.

Lemma convert_text_spans : forall l2m m2o spans,
    existsb is_formula spans = false ->
    forallb (fun it => negb (is_math it)) (map (convert_span l2m m2o) spans) = true.
Proof.
  intros l2m m2o spans. induction spans as [|sp spans IH]; simpl; [reflexivity|].
  intros H. apply orb_false_iff in H. destruct H as [Hs H].
  rewrite IH by exact H. destruct sp; [reflexivity|discriminate].
Qed.

(** C4. Local degradation: a formula span whose conversion fails at either
    step yields, at the same position among the content items, a text item
    holding the delimited source of the formula; the export is not rejected
    for it (a rejection can only come from the archive loader). *)
Theorem conversion_failure_degrades :
  forall (latexToMathML : str -> bool -> option str)
         (mathmlToOmml : str -> option str)
         (Blob Zip : Type)
         (Packer_toBlob : list Paragraph -> Blob)
         (JSZip_loadAsync : Blob -> option Zip)
         (zip_read : Zip -> option str)
         (zip_write : Zip -> str -> Zip)
         (zip_generateAsync : Zip -> Blob)
         (input : str) (i : nat) (src latex : str) (b : bool),
    nth_error (segment (normalize input)) i = Some (SpanFormula src latex b) ->
    conversion_fails latexToMathML mathmlToOmml latex b ->
    (forall blob, JSZip_loadAsync blob <> None) ->
    nth_error (docxItems latexToMathML mathmlToOmml input) i = Some (ItemText src) /\
    exists blob,
      fst (generateDocx latexToMathML mathmlToOmml Blob Zip Packer_toBlob
             JSZip_loadAsync zip_read zip_write zip_generateAsync input)
      = Resolved blob.
Proof.
  intros l2m m2o Blob Zip toBlob load read write gen input i src latex b Hi Hf Hl.
  split.
  - unfold docxItems. rewrite parseItems_segment, nth_error_map, Hi. simpl.
    f_equal. change (convert_match l2m m2o src latex b)
      with (convert_span l2m m2o (SpanFormula src latex b)).
    now apply convert_failure.
  - unfold generateDocx.
    destruct (length (mathPlaceholders (docxAssembly l2m m2o input)) =? 0)%nat;
      [eexists; reflexivity|].
    destruct (load (toBlob (paragraphs (docxAssembly l2m m2o input)))) as [zip|] eqn:L;
      [|now apply Hl in L].
    destruct (read zip) as [xml|]; [|eexists; reflexivity].
    destruct (truthy xml); eexists; reflexivity.
Qed.

Lemma conversion_failure_degrades_witness :
  let input := lit "see $x^2$ here" in
  nth_error (segment (normalize input)) 1
  = Some (SpanFormula (lit "$x^2$") (lit "x^2") false) /\
  conversion_fails failing_latexToMathML sample_mathmlToOmml (lit "x^2") false /\
  nth_error (docxItems failing_latexToMathML sample_mathmlToOmml input) 1
  = Some (ItemText (lit "$x^2$")) /\
  exists blob,
    fst (generateDocx failing_latexToMathML sample_mathmlToOmml _ _ sample_toBlob
           sample_loadAsync sample_read sample_write sample_generateAsync input)
    = Resolved blob.
Proof.
  intros input.
  assert (H1 : nth_error (segment (normalize input)) 1
               = Some (SpanFormula (lit "$x^2$") (lit "x^2") false)) by reflexivity.
  assert (H2 : conversion_fails failing_latexToMathML sample_mathmlToOmml
                 (lit "x^2") false) by exact I.
  assert (H3 : forall blob, sample_loadAsync blob <> None)
    by (intros blob; discriminate).
  split; [exact H1|]. split; [exact H2|].
  exact (conversion_failure_degrades failing_latexToMathML sample_mathmlToOmml
           _ _ sample_toBlob sample_loadAsync sample_read sample_write
           sample_generateAsync input 1 (lit "$x^2$") (lit "x^2") false H1 H2 H3).
Defined.

(** C5. Block-math isolation: for [pre], a blank line, [$$x$$], a blank line
    and [post], when both conversions of [x] succeed the paragraph tree is a
    left-aligned paragraph with the run [pre], a centred paragraph with the
    placeholder of [x] alone, and a left-aligned paragraph with the run
    [post]; the blank lines produce no paragraph. *)
Theorem block_math_isolation :
  forall (latexToMathML : str -> bool -> option str)
         (mathmlToOmml : str -> option str) (mathml omml : str),
    latexToMathML (lit "x") true = Some mathml ->
    mathmlToOmml mathml = Some omml ->
    let input := lit "pre" ++ [LF; LF] ++ lit "$$x$$" ++ [LF; LF] ++ lit "post" in
    paragraphs (docxAssembly latexToMathML mathmlToOmml input)
    = [ mkParagraph [mkTextRun (lit "pre")] LEFT;
        mkParagraph [mkTextRun (placeholder_of 0)] CENTER;
        mkParagraph [mkTextRun (lit "post")] LEFT ] /\
    mathPlaceholders (docxAssembly latexToMathML mathmlToOmml input)
    = [ (placeholder_of 0, omml) ].
Proof.
  intros l2m m2o mathml omml H1 H2 input.
  unfold docxAssembly, docxItems. rewrite parseItems_segment.
  replace (segment (normalize input))
    with [ SpanText (lit "pre" ++ [LF; LF]);
           SpanFormula (lit "$$x$$") (lit "x") true;
           SpanText ([LF; LF] ++ lit "post") ]
    by (vm_compute; reflexivity).
  cbn [map convert_span]. unfold convert_match. rewrite H1, H2.
  split; vm_compute; reflexivity.
Qed.

Lemma block_math_isolation_witness :
  let input := lit "pre" ++ [LF; LF] ++ lit "$$x$$" ++ [LF; LF] ++ lit "post" in
  sample_latexToMathML (lit "x") true = Some (lit "<math>x</math>") /\
  sample_mathmlToOmml (lit "<math>x</math>")
  = Some (lit "<m:oMath><math>x</math></m:oMath>") /\
  paragraphs (docxAssembly sample_latexToMathML sample_mathmlToOmml input)
  = [ mkParagraph [mkTextRun (lit "pre")] LEFT;
      mkParagraph [mkTextRun (placeholder_of 0)] CENTER;
      mkParagraph [mkTextRun (lit "post")] LEFT ] /\
  mathPlaceholders (docxAssembly sample_latexToMathML sample_mathmlToOmml input)
  = [ (placeholder_of 0, lit "<m:oMath><math>x</math></m:oMath>") ].
Proof.
  intros input. split; [reflexivity|]. split; [reflexivity|].
  apply (block_math_isolation sample_latexToMathML sample_mathmlToOmml
           (lit "<math>x</math>") (lit "<m:oMath><math>x</math></m:oMath>"));
    reflexivity.
Defined.

Lemma existsb_text_span : forall t, existsb is_formula (text_span t) = false.
Proof. intros t. unfold text_span. now destruct (truthy t). Qed.

(** The spans have a formula exactly when the pattern matches somewhere. *)
Lemma segment_no_formula : forall text,
    existsb is_formula (segment text) = false <-> matches text = [].
Proof.
  intros text. rewrite segment_pieces. destruct (matches text) as [|m ms].
  - simpl. rewrite existsb_text_span. tauto.
  - cbn [pieces_with]. rewrite !existsb_app. simpl. rewrite orb_true_r.
    split; discriminate.
Qed.

(** C8. No-math fast path: when the segmentation of the input has no formula
    span (which is also the case of its segmentation after the line endings
    are normalised), the placeholder map is empty and the export resolves to
    the very container returned by the document builder, the builder being
    the only external call made: the archive is neither loaded nor
    re-serialised. *)
Theorem no_math_fast_path :
  forall (latexToMathML : str -> bool -> option str)
         (mathmlToOmml : str -> option str)
         (Blob Zip : Type)
         (Packer_toBlob : list Paragraph -> Blob)
         (JSZip_loadAsync : Blob -> option Zip)
         (zip_read : Zip -> option str)
         (zip_write : Zip -> str -> Zip)
         (zip_generateAsync : Zip -> Blob)
         (input : str),
    existsb is_formula (segment input) = false ->
    existsb is_formula (segment (normalize input)) = false /\
    mathPlaceholders (docxAssembly latexToMathML mathmlToOmml input) = [] /\
    generateDocx latexToMathML mathmlToOmml Blob Zip Packer_toBlob
      JSZip_loadAsync zip_read zip_write zip_generateAsync input
    = (Resolved (Packer_toBlob
                   (paragraphs (docxAssembly latexToMathML mathmlToOmml input))),
       [CallPackerToBlob]).
Proof.
  intros l2m m2o Blob Zip toBlob load read write gen input H.
  assert (N : existsb is_formula (segment (normalize input)) = false).
  { apply segment_no_formula, matches_normalize, segment_no_formula, H. }
  assert (E : mathPlaceholders (docxAssembly l2m m2o input) = []).
  { unfold docxAssembly, assemble, docxItems.
    destruct (flushParagraph_placeholders LEFT
      (fold_left assemble_step
         (parseItems l2m m2o (normalize input)) emptyAssembly)) as [-> _].
    rewrite assemble_text_placeholders; [reflexivity|].
    rewrite parseItems_segment. now apply convert_text_spans. }
  split; [exact N|]. split; [exact E|]. unfold generateDocx. now rewrite E.
Qed.

Lemma no_math_fast_path_witness :
  let input := lit "plain text," ++ [CR; LF] ++ lit "5$ only" in
  existsb is_formula (segment input) = false /\
  mathPlaceholders (docxAssembly sample_latexToMathML sample_mathmlToOmml input) = [] /\
  generateDocx sample_latexToMathML sample_mathmlToOmml _ _ sample_toBlob
    sample_loadAsync sample_read sample_write sample_generateAsync input
  = (Resolved (sample_toBlob
                 (paragraphs (docxAssembly sample_latexToMathML sample_mathmlToOmml
                                input))),
     [CallPackerToBlob]).
Proof.
  intros input.
  assert (H : existsb is_formula (segment input) = false) by reflexivity.
  split; [exact H|].
  exact (proj2 (no_math_fast_path sample_latexToMathML sample_mathmlToOmml _ _
                  sample_toBlob sample_loadAsync sample_read sample_write
                  sample_generateAsync input H)).
Defined.

(** ** Placeholder tokens *)

Lemma str_eqb_eq : forall a b, str_eqb a b = true <-> a = b.
Proof.
  induction a as [|x a IH]; intros [|y b]; simpl; try (split; [discriminate|discriminate]);
    [tauto|].
  rewrite andb_true_iff, Ascii.eqb_eq, IH. split.
  - now intros [-> ->].
  - intros H. now injection H.
Qed.

Lemma map_set_fresh : forall k v m,
    ~ In k (map fst m) -> map_set k v m = m ++ [(k, v)].
Proof.
  intros k v m. induction m as [|[k' v'] m IH]; simpl; intros H; [reflexivity|].
  destruct (str_eqb k k') eqn:E.
  - apply str_eqb_eq in E. subst. tauto.
  - rewrite IH; [reflexivity|tauto].
Qed.

Lemma lit_inj : forall a b : string, lit a = lit b -> a = b.
Proof.
  intros a b H. rewrite <- (string_of_list_ascii_of_string a).
  rewrite <- (string_of_list_ascii_of_string b). now rewrite H.
Qed.

Lemma string_of_nat_inj : forall a b, string_of_nat a = string_of_nat b -> a = b.
Proof.
  intros a b H. unfold string_of_nat in H. apply lit_inj in H.
  assert (E : Some (Nat.to_uint a) = Some (Nat.to_uint b))
    by now rewrite <- !NilEmpty.usu, H.
  injection E as E. rewrite <- (Unsigned.of_to a), <- (Unsigned.of_to b). now rewrite E.
Qed.

Lemma placeholder_of_inj : forall a b, placeholder_of a = placeholder_of b -> a = b.
Proof.
  intros a b H. unfold placeholder_of in H.
  apply app_inv_head, app_inv_tail in H. now apply string_of_nat_inj.
Qed.

(** The digits of a number are decimal digits. *)
Lemma uint_digits : forall d c,
    In c (lit (NilEmpty.string_of_uint d)) -> In c (lit "0123456789").
Proof.
  induction d; simpl; intros c H; try tauto;
    destruct H as [<-|H]; simpl; try tauto; apply IHd in H; simpl in H; tauto.
Qed.

Lemma string_of_nat_digits : forall n c,
    In c (string_of_nat n) -> In c (lit "0123456789").
Proof. intros n c. apply uint_digits. Qed.

Lemma digit_not_underscore : forall c, In c (lit "0123456789") -> c <> "_".
Proof. intros c H. simpl in H. intuition (subst; discriminate). Qed.

Lemma digit_not_M : forall c, In c (lit "0123456789") -> c <> "M".
Proof. intros c H. simpl in H. intuition (subst; discriminate). Qed.

Lemma prefix_in_placeholder : forall k, occurs PLACEHOLDER_PREFIX (placeholder_of k).
Proof. intros k. exists [], (string_of_nat k ++ lit "__"). reflexivity. Qed.

(** Two strings of digits followed by an underscore agree up to it. *)
Lemma digits_until_underscore : forall d1 d2 x y,
    (forall c, In c d1 -> c <> "_") -> (forall c, In c d2 -> c <> "_") ->
    d1 ++ "_" :: x = d2 ++ "_" :: y -> d1 = d2.
Proof.
  induction d1 as [|a d1 IH]; intros [|b d2] x y H1 H2 H; simpl in H.
  - reflexivity.
  - injection H as <- _. exfalso. apply (H2 "_"); [now left|reflexivity].
  - injection H as -> _. exfalso. apply (H1 "_"); [now left|reflexivity].
  - injection H as -> H. f_equal. apply (IH d2 x y); auto.
    + intros c Hc. apply H1. now right.
    + intros c Hc. apply H2. now right.
Qed.

(** The capital M of the prefix is the only one of a token. *)
Lemma count_M_digits : forall n, count_occ ascii_dec (string_of_nat n) "M" = 0.
Proof.
  intros n. apply count_occ_not_In. intros H.
  apply string_of_nat_digits, digit_not_M in H. now apply H.
Qed.

Lemma placeholder_occurs_inj : forall k j,
    occurs (placeholder_of k) (placeholder_of j) -> k = j.
Proof.
  intros k j (a & b & H). unfold placeholder_of, PLACEHOLDER_PREFIX in H.
  assert (Ha : a = []).
  { destruct a as [|c1 a]; [reflexivity|]. exfalso.
    simpl in H. injection H as <- H.
    destruct a as [|c2 a]; [simpl in H; discriminate|].
    injection H as <- H.
    destruct a as [|c3 a]; [simpl in H; discriminate|].
    injection H as <- H.
    apply (f_equal (fun s => count_occ ascii_dec s "M")) in H.
    simpl in H. rewrite !count_occ_app in H. simpl in H.
    rewrite !count_occ_app in H. simpl in H. rewrite !count_M_digits in H. lia. }
  subst a. simpl in H. injection H as H.
  symmetry. apply string_of_nat_inj.
  apply (digits_until_underscore _ _ (lit "_") (lit "_" ++ b)).
  - intros c Hc. now apply digit_not_underscore, (string_of_nat_digits j).
  - intros c Hc. now apply digit_not_underscore, (string_of_nat_digits k).
  - simpl. simpl in H. rewrite H. rewrite <- app_assoc. reflexivity.
Qed.

Lemma placeholder_occursb : forall k j,
    occursb (placeholder_of k) (placeholder_of j) = (k =? j)%nat.
Proof.
  intros k j. destruct (k =? j)%nat eqn:E.
  - apply Nat.eqb_eq in E. subst. apply occursb_occurs.
    exists [], []. now rewrite app_nil_r.
  - apply occursb_false. intros H. apply placeholder_occurs_inj in H.
    apply Nat.eqb_neq in E. contradiction.
Qed.

(** ** What the text of the document is made of *)

Lemma normalize_occurs : forall p input,
    disjointb p [LF] = true -> occurs p (normalize input) -> occurs p input.
Proof.
  intros p input D H. unfold normalize in H.
  apply replace_g_occurs in H; [|discriminate|reflexivity|exact D].
  apply replace_g_occurs in H; [exact H|discriminate|reflexivity|exact D].
Qed.

Lemma span_in_text : forall text sp, In sp (segment text) -> occurs (span_source sp) text.
Proof.
  intros text sp H. rewrite <- (segment_sources text) at 1.
  apply occurs_In_concat. now apply in_map.
Qed.

Lemma item_text_in_text : forall l2m m2o text v,
    In (ItemText v) (parseItems l2m m2o text) -> occurs v text.
Proof.
  intros l2m m2o text v H. rewrite parseItems_segment in H.
  apply in_map_iff in H. destruct H as (sp & E & Hin).
  apply span_in_text in Hin. destruct sp as [v'|src latex b]; simpl in *.
  - now injection E as <-.
  - unfold convert_match in E.
    destruct (l2m latex b) as [mathml|]; [destruct (m2o mathml)|];
      try discriminate; now injection E as <-.
Qed.

(** Text free of the reserved prefix in the input stays so in every text
    item of the export. *)
Lemma text_items_clean : forall l2m m2o input v,
    occursb PLACEHOLDER_PREFIX input = false ->
    In (ItemText v) (docxItems l2m m2o input) ->
    ~ occurs PLACEHOLDER_PREFIX v.
Proof.
  intros l2m m2o input v H Hin Ho. apply occursb_false in H. apply H.
  apply normalize_occurs; [reflexivity|].
  apply (occurs_trans _ v); [exact Ho|]. now apply (item_text_in_text l2m m2o).
Qed.

(** ** Invariants of the paragraph builder *)

Lemma runs_of_snoc : forall ps p, runs_of (ps ++ [p]) = runs_of ps ++ children p.
Proof.
  intros ps p. unfold runs_of. rewrite flat_map_app. simpl. now rewrite app_nil_r.
Qed.

Lemma pending_flush : forall al a,
    pending_runs (flushParagraph al a) = pending_runs a.
Proof.
  intros al a. unfold flushParagraph, pending_runs.
  destruct (currentParagraphItems a) as [|x l] eqn:E; [now rewrite E|].
  simpl. now rewrite runs_of_snoc, app_nil_r.
Qed.

Lemma has_prefix_placeholder : forall k, has_prefix (placeholder_run k) = true.
Proof. intros k. apply occursb_occurs, prefix_in_placeholder. Qed.

Lemma add_parts_runs : forall parts i a,
    (forall part, In part parts -> ~ occurs PLACEHOLDER_PREFIX part) ->
    filter has_prefix (pending_runs (add_parts i parts a))
    = filter has_prefix (pending_runs a).
Proof.
  induction parts as [|part rest IH]; intros i a H; [reflexivity|].
  simpl. rewrite IH by (intros p Hp; apply H; now right).
  set (a1 := if (0 <? i)%nat then flushParagraph LEFT a else a).
  assert (E1 : pending_runs a1 = pending_runs a).
  { unfold a1. destruct (0 <? i)%nat; [apply pending_flush|reflexivity]. }
  set (cleaned := replace_g (re_lit [LF]) [" "] part).
  destruct (truthy cleaned); [|now rewrite E1].
  unfold pending_runs in *. simpl. rewrite map_app, app_assoc, filter_app, E1.
  simpl. unfold has_prefix at 2. simpl.
  replace (occursb PLACEHOLDER_PREFIX cleaned) with false; [now rewrite app_nil_r|].
  symmetry. apply occursb_false. intros Ho.
  apply replace_g_occurs in Ho; [|discriminate|reflexivity|reflexivity].
  apply (H part); [now left|exact Ho].
Qed.

(** The tokens registered so far are those of the ordinals below
    [placeholderIndex], in order. *)
Lemma tokens_step : forall a it,
    tokens a = map placeholder_of (seq 0 (placeholderIndex a)) ->
    tokens (assemble_step a it)
    = map placeholder_of (seq 0 (placeholderIndex (assemble_step a it))) /\
    placeholderIndex (assemble_step a it)
    = placeholderIndex a + (if is_math it then 1 else 0).
Proof.
  intros a it H.
  assert (F : forall n m omml,
             map fst m = map placeholder_of (seq 0 n) ->
             map fst (map_set (placeholder_of n) omml m)
             = map placeholder_of (seq 0 (S n))).
  { intros n m omml Hm. rewrite map_set_fresh.
    - rewrite map_app, Hm, seq_S, map_app. reflexivity.
    - rewrite Hm. intros Hin. apply in_map_iff in Hin.
      destruct Hin as (j & Hj & Hin). apply placeholder_of_inj in Hj. subst j.
      apply in_seq in Hin. lia. }
  destruct it as [v|omml [|]]; unfold tokens in *; simpl.
  - destruct (add_parts_placeholders (split re_blank_lines v) 0 a) as [-> ->].
    split; [exact H|lia].
  - destruct (flushParagraph_placeholders LEFT a) as (-> & -> & _).
    split; [now apply F|lia].
  - split; [now apply F|lia].
Qed.

(** The runs carrying the reserved prefix are the placeholder runs, as long
    as no text item carries it. *)
Lemma runs_step : forall a it,
    (forall v, it = ItemText v -> ~ occurs PLACEHOLDER_PREFIX v) ->
    filter has_prefix (pending_runs a)
    = map placeholder_run (seq 0 (placeholderIndex a)) ->
    filter has_prefix (pending_runs (assemble_step a it))
    = map placeholder_run (seq 0 (placeholderIndex (assemble_step a it))).
Proof.
  intros a it Hclean H. destruct it as [v|omml [|]]; cbn [assemble_step].
  - destruct (add_parts_placeholders (split re_blank_lines v) 0 a) as [_ ->].
    rewrite add_parts_runs; [exact H|].
    intros part Hp Ho. apply (Hclean v eq_refl).
    apply (occurs_trans _ part); [exact Ho|]. now apply (split_parts re_blank_lines).
  - destruct (flushParagraph_placeholders LEFT a) as (_ & E2 & E3).
    rewrite <- (pending_flush LEFT a) in H.
    unfold pending_runs in *.
    cbn [paragraphs currentParagraphItems placeholderIndex].
    rewrite E3 in *. cbn [map] in *. rewrite app_nil_r in *.
    rewrite runs_of_snoc, filter_app, H, E2, seq_S, map_app.
    cbn [children map filter plus]. fold (placeholder_run (placeholderIndex a)).
    now rewrite has_prefix_placeholder.
  - unfold pending_runs in *.
    cbn [paragraphs currentParagraphItems placeholderIndex].
    rewrite map_app, app_assoc, filter_app, H, seq_S, map_app.
    cbn [run_of_item map filter plus]. fold (placeholder_run (placeholderIndex a)).
    now rewrite has_prefix_placeholder.
Qed.

Lemma assemble_fold_tokens : forall items a,
    tokens a = map placeholder_of (seq 0 (placeholderIndex a)) ->
    tokens (fold_left assemble_step items a)
    = map placeholder_of (seq 0 (placeholderIndex (fold_left assemble_step items a))) /\
    placeholderIndex (fold_left assemble_step items a)
    = placeholderIndex a + length (filter is_math items).
Proof.
  induction items as [|it items IH]; intros a H; simpl; [split; [exact H|lia]|].
  destruct (tokens_step a it H) as [T P].
  destruct (IH _ T) as [T' P']. split; [exact T'|].
  rewrite P', P. destruct (is_math it); simpl; lia.
Qed.

Lemma assemble_fold_runs : forall items a,
    (forall v, In (ItemText v) items -> ~ occurs PLACEHOLDER_PREFIX v) ->
    filter has_prefix (pending_runs a)
    = map placeholder_run (seq 0 (placeholderIndex a)) ->
    filter has_prefix (pending_runs (fold_left assemble_step items a))
    = map placeholder_run (seq 0 (placeholderIndex (fold_left assemble_step items a))).
Proof.
  induction items as [|it items IH]; intros a Hc H; simpl; [exact H|].
  apply IH.
  - intros v Hv. apply Hc. now right.
  - apply runs_step; [|exact H]. intros v ->. apply Hc. now left.
Qed.

(** The final [flushParagraph()] closes the open paragraph. *)
Lemma assemble_runs : forall items,
    runs_of (paragraphs (assemble items))
    = pending_runs (fold_left assemble_step items emptyAssembly).
Proof.
  intros items. unfold assemble.
  rewrite <- (pending_flush LEFT). unfold pending_runs.
  destruct (flushParagraph_placeholders LEFT
              (fold_left assemble_step items emptyAssembly)) as (_ & _ & ->).
  simpl. now rewrite app_nil_r.
Qed.

Lemma assemble_tokens : forall items,
    tokens (assemble items)
    = map placeholder_of (seq 0 (length (filter is_math items))) /\
    placeholderIndex (assemble items) = length (filter is_math items).
Proof.
  intros items. unfold assemble, tokens.
  destruct (flushParagraph_placeholders LEFT
              (fold_left assemble_step items emptyAssembly)) as (-> & -> & _).
  destruct (assemble_fold_tokens items emptyAssembly eq_refl) as [T P].
  simpl in P. unfold tokens in T. now rewrite T, P.
Qed.

(** ** Counting runs *)

Lemma filter_filter_implies : forall (A : Type) (f g : A -> bool) (l : list A),
    (forall x, f x = true -> g x = true) ->
    filter f (filter g l) = filter f l.
Proof.
  intros A f g l H. induction l as [|x l IH]; simpl; [reflexivity|].
  destruct (g x) eqn:G; simpl.
  - destruct (f x); now rewrite IH.
  - destruct (f x) eqn:F; [|exact IH]. apply H in F. congruence.
Qed.

Lemma filter_map_length : forall (A B : Type) (f : B -> bool) (g : A -> B) (l : list A),
    length (filter f (map g l)) = length (filter (fun x => f (g x)) l).
Proof.
  intros A B f g l. induction l as [|x l IH]; simpl; [reflexivity|].
  destruct (f (g x)); simpl; now rewrite IH.
Qed.

Lemma count_below_seq : forall k n a,
    k < a -> length (filter (Nat.eqb k) (seq a n)) = 0.
Proof.
  intros k n. induction n as [|n IH]; intros a H; simpl; [reflexivity|].
  destruct (Nat.eqb_spec k a); [lia|]. apply IH. lia.
Qed.

Lemma count_in_seq : forall k n a,
    a <= k < a + n -> length (filter (Nat.eqb k) (seq a n)) = 1.
Proof.
  intros k n. induction n as [|n IH]; intros a H; simpl; [lia|].
  destruct (Nat.eqb_spec k a).
  - simpl. rewrite count_below_seq; lia.
  - apply IH. lia.
Qed.

(** ** The pattern of a token on a document body *)

Lemma re_seq_lit : forall p (r : matcher) t,
    re_seq (re_lit p) r (p ++ t)
    = match r t with
      | Some k => Some (length p + k)
      | None => None
      end.
Proof.
  intros p r t. unfold re_seq, re_lit.
  assert (P : prefixb p (p ++ t) = true) by (apply prefixb_starts; now exists t).
  now rewrite P, skipn_length_app.
Qed.

Lemma run_stop : forall cls x t,
    forallb cls x = true ->
    match t with [] => true | c :: _ => negb (cls c) end = true ->
    run cls (x ++ t) = length x.
Proof.
  intros cls x t Hx Ht. induction x as [|c x IH].
  - destruct t as [|c t]; [reflexivity|]. apply negb_true_iff in Ht.
    simpl. now rewrite Ht.
  - simpl in Hx. apply andb_true_iff in Hx. destruct Hx as [Hc Hx].
    simpl. now rewrite Hc, IH.
Qed.

Lemma re_seq_star : forall cls (r : matcher) x t,
    forallb cls x = true ->
    match t with [] => true | c :: _ => negb (cls c) end = true ->
    re_seq (re_star cls) r (x ++ t)
    = match r t with
      | Some k => Some (length x + k)
      | None => None
      end.
Proof.
  intros cls r x t Hx Ht. unfold re_seq, re_star.
  now rewrite run_stop, skipn_length_app.
Qed.

(** The pattern of a token matches the whole of a run holding the token. *)
Lemma placeholderPattern_run : forall tok attrs rest,
    forallb not_gt attrs = true ->
    placeholderPattern tok (run_xml attrs tok ++ rest)
    = Some (length (run_xml attrs tok)).
Proof.
  intros tok attrs rest Ha. unfold placeholderPattern, run_xml.
  change (lit "<w:r><w:t") with (lit "<w:r" ++ [] ++ lit ">" ++ [] ++ lit "<w:t").
  rewrite <- !app_assoc.
  rewrite re_seq_lit.
  rewrite (re_seq_star not_gt _ []) by reflexivity.
  rewrite re_seq_lit.
  rewrite (re_seq_star is_space _ []) by reflexivity.
  rewrite re_seq_lit.
  rewrite (re_seq_star not_gt _ attrs) by (auto; reflexivity).
  rewrite re_seq_lit, re_seq_lit.
  change (lit "</w:t></w:r>" ++ rest) with (lit "</w:t>" ++ [] ++ lit "</w:r>" ++ rest).
  rewrite re_seq_lit.
  rewrite (re_seq_star is_space _ []) by reflexivity.
  unfold re_lit.
  assert (P : prefixb (lit "</w:r>") (lit "</w:r>" ++ rest) = true) by reflexivity.
  rewrite P. f_equal. rewrite !length_app. simpl. lia.
Qed.

Lemma replace_go_prefix : forall re replacement a s before,
    (forall j, j < length a -> re (skipn j (a ++ s)) = None) ->
    replace_go re replacement before 0 (a ++ s)
    = a ++ replace_go re replacement (before ++ a) 0 s.
Proof.
  intros re replacement a s. induction a as [|c a IH]; intros before H.
  - now rewrite app_nil_r.
  - rewrite <- app_comm_cons. cbn [replace_go].
    rewrite (H 0 (Nat.lt_0_succ _) : re (c :: a ++ s) = None).
    rewrite IH.
    + now rewrite <- app_assoc.
    + intros j Hj. apply (H (S j)). simpl. lia.
Qed.

Lemma replace_go_skip : forall re replacement s k before,
    replace_go re replacement before k s
    = replace_go re replacement (before ++ firstn k s) 0 (skipn k s).
Proof.
  intros re replacement s. induction s as [|c s IH]; intros k before.
  - now destruct k.
  - destruct k as [|k].
    + cbn [firstn skipn]. now rewrite app_nil_r.
    + cbn [replace_go firstn skipn]. rewrite IH. now rewrite <- app_assoc.
Qed.


(** *** What a match of the pattern looks like *)

Lemma re_seq_inv : forall (r1 r2 : matcher) s n,
    re_seq r1 r2 s = Some n ->
    exists a b, r1 s = Some a /\ r2 (skipn a s) = Some b /\ n = a + b.
Proof.
  intros r1 r2 s n. unfold re_seq.
  destruct (r1 s) as [a|]; [|discriminate].
  destruct (r2 (skipn a s)) as [b|] eqn:E; [|discriminate].
  intros H. injection H as <-. exists a, b. auto.
Qed.

Lemma re_lit_inv : forall p s n, re_lit p s = Some n -> s = p ++ skipn n s.
Proof.
  intros p s n. unfold re_lit. destruct (prefixb p s) eqn:P; [|discriminate].
  intros H. injection H as <-. apply prefixb_starts in P. destruct P as [b ->].
  now rewrite skipn_length_app.
Qed.

Lemma re_star_inv : forall cls s n,
    re_star cls s = Some n ->
    exists body, s = body ++ skipn n s /\ forallb cls body = true.
Proof.
  intros cls s n H. unfold re_star in H. injection H as <-.
  exists (firstn (run cls s) s). split; [now rewrite firstn_skipn|apply run_all].
Qed.

Lemma after_gt_app : forall x t,
    forallb not_gt x = true -> after_gt (x ++ ">" :: t) = t.
Proof.
  intros x t. induction x as [|c x IH]; intros H; [reflexivity|].
  simpl in H. apply andb_true_iff in H. destruct H as [Hc H].
  unfold not_gt in Hc. apply negb_true_iff in Hc.
  simpl. rewrite Hc. now apply IH.
Qed.

Lemma space_not_gt : forall c, is_space c && negb (not_gt c) = false.
Proof. intros c. each_char c. Qed.

Lemma spaces_not_gt : forall s, forallb is_space s = true -> forallb not_gt s = true.
Proof.
  intros s H. apply forallb_forall. intros c Hc.
  rewrite forallb_forall in H. apply H in Hc.
  pose proof (space_not_gt c) as K. rewrite Hc in K. simpl in K.
  now apply negb_false_iff in K.
Qed.

(** A match starts with [<w:r], and the token, followed by [<], stands
    right after the second [>] from the start. *)
Lemma placeholderPattern_inv : forall tok s n,
    placeholderPattern tok s = Some n ->
    prefixb (lit "<w:r") s = true /\
    starts (tok ++ ["<"]) (after_gt (after_gt s)).
Proof.
  intros tok s n H. unfold placeholderPattern in H.
  apply re_seq_inv in H. destruct H as (n1 & k1 & L1 & H & _).
  apply re_seq_inv in H. destruct H as (n2 & k2 & L2 & H & _).
  apply re_seq_inv in H. destruct H as (n3 & k3 & L3 & H & _).
  apply re_seq_inv in H. destruct H as (n4 & k4 & L4 & H & _).
  apply re_seq_inv in H. destruct H as (n5 & k5 & L5 & H & _).
  apply re_seq_inv in H. destruct H as (n6 & k6 & L6 & H & _).
  apply re_seq_inv in H. destruct H as (n7 & k7 & L7 & H & _).
  apply re_seq_inv in H. destruct H as (n8 & k8 & L8 & H & _).
  apply re_seq_inv in H. destruct H as (n9 & k9 & L9 & _ & _).
  split.
  { unfold re_lit in L1. now destruct (prefixb (lit "<w:r") s). }
  apply re_lit_inv in L1, L3, L5, L7, L8, L9.
  apply re_star_inv in L2, L4, L6.
  destruct L2 as (A & L2 & HA). destruct L4 as (S & L4 & HS).
  destruct L6 as (B & L6 & HB).
  remember (skipn n1 s) as s1. remember (skipn n2 s1) as s2.
  remember (skipn n3 s2) as s3. remember (skipn n4 s3) as s4.
  remember (skipn n5 s4) as s5. remember (skipn n6 s5) as s6.
  remember (skipn n7 s6) as s7. remember (skipn n8 s7) as s8.
  assert (E1 : after_gt s = s3).
  { rewrite L1, L2, L3. rewrite app_assoc. apply after_gt_app.
    rewrite forallb_app, HA. reflexivity. }
  assert (E2 : after_gt s3 = s7).
  { rewrite L4, L5, L6, L7. rewrite 2 app_assoc. apply after_gt_app.
    rewrite !forallb_app, HB, (spaces_not_gt S HS). reflexivity. }
  rewrite E1, E2. rewrite L8, L9. exists (lit "/w:t>" ++ skipn n9 s8).
  now rewrite <- app_assoc.
Qed.

(** *** Closed stretches *)

Lemma closedb_tail : forall c x, closedb (c :: x) = true -> closedb x = true.
Proof. intros c x H. destruct x as [|d x]; [reflexivity|exact H]. Qed.

Lemma closedb_last : forall x,
    closedb x = true -> x <> [] -> exists x0, x = x0 ++ [">"].
Proof.
  induction x as [|c x IH]; intros H N; [now elim N|].
  destruct x as [|d x].
  - simpl in H. apply Ascii.eqb_eq in H. subst c. now exists [].
  - destruct IH as [x0 E]; [exact H|discriminate|].
    exists (c :: x0). now rewrite E.
Qed.

Lemma closedb_app : forall x y,
    closedb x = true -> closedb y = true -> closedb (x ++ y) = true.
Proof.
  induction x as [|c x IH]; intros y Hx Hy; [exact Hy|].
  destruct x as [|d x].
  - destruct y as [|e y]; [exact Hx|exact Hy].
  - change (closedb (d :: x ++ y) = true). now apply (IH y).
Qed.

Lemma closedb_skipn : forall j x, closedb x = true -> closedb (skipn j x) = true.
Proof.
  induction j as [|j IH]; intros x H; [exact H|].
  destruct x as [|c x]; [reflexivity|]. apply IH. now apply closedb_tail in H.
Qed.

Lemma after_gt_closed : forall x R,
    closedb x = true -> x <> [] ->
    after_gt (x ++ R) = after_gt x ++ R /\
    closedb (after_gt x) = true /\
    exists u, x = u ++ after_gt x.
Proof.
  induction x as [|c x IH]; intros R H N; [now elim N|].
  simpl. destruct (Ascii.eqb c ">") eqn:C.
  - split; [reflexivity|]. split; [now apply closedb_tail in H|]. now exists [c].
  - destruct x as [|d x]; [simpl in H; congruence|].
    destruct (IH R H) as (E & K & u & U); [discriminate|].
    split; [exact E|]. split; [exact K|]. exists (c :: u).
    rewrite <- app_comm_cons. f_equal. exact U.
Qed.

Lemma starts_app_cases : forall p x y,
    starts p (x ++ y) -> starts p x \/ exists q, p = x ++ q.
Proof.
  induction p as [|a p IH]; intros x y [z H].
  - left. now exists x.
  - destruct x as [|b x]; [right; now exists (a :: p)|].
    simpl in H. injection H as -> H.
    destruct (IH x y) as [[w ->]|[q ->]]; [now exists z| |].
    + left. now exists w.
    + right. now exists q.
Qed.

Lemma closed_starts : forall p x y,
    closedb x = true -> x <> [] -> forallb not_gt p = true ->
    starts p (x ++ y) -> starts p x.
Proof.
  intros p x y H N P S. apply starts_app_cases in S. destruct S as [S|[q ->]];
    [exact S|].
  exfalso. destruct (closedb_last x H N) as [x0 ->].
  rewrite !forallb_app in P. simpl in P. rewrite andb_false_r in P. discriminate.
Qed.

Lemma closed_occurs_app : forall p x y,
    closedb x = true -> forallb not_gt p = true ->
    occurs p (x ++ y) -> occurs p x \/ occurs p y.
Proof.
  intros p x y H P. induction x as [|c x IH]; intros O; [now right|].
  simpl in O. apply occurs_cons_inv in O. destruct O as [S|O].
  - left. apply starts_occurs. apply (closed_starts p (c :: x) y); auto. discriminate.
  - destruct IH as [K|K]; [now apply closedb_tail in H|exact O| |].
    + left. now apply occurs_cons.
    + now right.
Qed.

(** *** One token against a body made of pieces *)

Lemma until_lt : forall a b x y,
    plain a = true -> plain b = true -> a ++ "<" :: x = b ++ "<" :: y -> a = b.
Proof.
  induction a as [|c a IH]; intros [|d b] x y Ha Hb H; simpl in *.
  - reflexivity.
  - injection H as <- _. discriminate Hb.
  - injection H as -> _. discriminate Ha.
  - injection H as -> H. apply andb_true_iff in Ha, Hb.
    f_equal. apply (IH b x y); tauto.
Qed.

Section OneToken.

Variable tok : str.
Hypothesis tok_plain : plain tok = true.
Hypothesis tok_not_empty : tok <> [].

Lemma guard_not_gt : forallb not_gt (tok ++ ["<"]) = true.
Proof.
  rewrite forallb_app. cbn [forallb]. rewrite !andb_true_r.
  apply forallb_forall. intros c Hc. unfold plain in tok_plain.
  rewrite forallb_forall in tok_plain. apply tok_plain in Hc.
  unfold is_markup in Hc. apply negb_true_iff, orb_false_iff in Hc.
  unfold not_gt. now rewrite (proj2 Hc).
Qed.

Lemma guard_not_lt : forall z, ~ starts (tok ++ ["<"]) ("<" :: z).
Proof.
  intros z [b H]. destruct tok as [|c t] eqn:E; [now elim tok_not_empty|].
  simpl in H. injection H as <- _. discriminate tok_plain.
Qed.

Lemma guard_occurs : forall x, starts (tok ++ ["<"]) x -> occurs tok x.
Proof. intros x [b ->]. exists [], ("<" :: b). now rewrite <- app_assoc. Qed.

Lemma guard_token : forall t y,
    plain t = true -> starts (tok ++ ["<"]) (t ++ "<" :: y) -> t = tok.
Proof.
  intros t y Ht [b H]. rewrite <- app_assoc in H. simpl in H.
  now apply (until_lt t tok y b).
Qed.

(** Nothing that follows a closed stretch free of the token starts with
    the token, and nothing that follows its first [>] does. *)
Lemma level0 : forall rest x,
    forallb (piece_wf tok) rest = true ->
    closedb x = true -> ~ occurs tok x ->
    ~ starts (tok ++ ["<"]) (x ++ document_xml rest).
Proof.
  induction rest as [|p rest IH]; intros x W C F S.
  - destruct x as [|c x].
    + destruct S as [b S]. destruct tok; [now elim tok_not_empty|discriminate].
    + apply F, guard_occurs. apply (closed_starts _ _ (document_xml [])); auto.
      * discriminate.
      * apply guard_not_gt.
  - destruct x as [|c x].
    + cbn [forallb] in W. apply andb_true_iff in W. destruct W as [Wp W].
      unfold document_xml in S. cbn [app map concat] in S.
      destruct p as [y|attrs t]; cbn [piece_xml piece_wf] in S, Wp.
      * apply andb_true_iff in Wp. destruct Wp as [Cy Fy].
        apply negb_true_iff, occursb_false in Fy.
        now apply (IH y W Cy Fy).
      * now apply guard_not_lt in S.
    + apply F, guard_occurs.
      apply (closed_starts _ _ (document_xml (p :: rest))); auto.
      * discriminate.
      * apply guard_not_gt.
Qed.

Lemma occurs_suffix : forall (p u v : str), occurs p v -> occurs p (u ++ v).
Proof. intros p u v. apply occurs_app_r. Qed.

Lemma level1 : forall rest x,
    forallb (piece_wf tok) rest = true ->
    closedb x = true -> ~ occurs tok x ->
    ~ starts (tok ++ ["<"]) (after_gt (x ++ document_xml rest)).
Proof.
  assert (K : forall rest x,
             forallb (piece_wf tok) rest = true ->
             closedb x = true -> ~ occurs tok x -> x <> [] ->
             ~ starts (tok ++ ["<"]) (after_gt (x ++ document_xml rest))).
  { intros rest x W C F N.
    destruct (after_gt_closed x (document_xml rest) C N) as (-> & C' & u & U).
    apply level0; auto. intros O. apply F. rewrite U. now apply occurs_app_r. }
  induction rest as [|p rest IH]; intros x W C F S.
  - destruct x as [|c x]; [|revert S; apply K; auto; discriminate].
    destruct S as [b S]. destruct tok; [now elim tok_not_empty|discriminate].
  - destruct x as [|c x]; [|revert S; apply K; auto; discriminate].
    cbn [forallb] in W. apply andb_true_iff in W. destruct W as [Wp W].
    unfold document_xml in S. cbn [app map concat] in S.
    destruct p as [y|attrs t]; cbn [piece_xml piece_wf] in S, Wp.
    + apply andb_true_iff in Wp. destruct Wp as [Cy Fy].
      apply negb_true_iff, occursb_false in Fy.
      now apply (IH y W Cy Fy).
    + unfold run_xml in S. simpl in S. now apply guard_not_lt in S.
Qed.

(** No match starts inside a closed stretch free of the token. *)
Lemma no_match_chunk : forall rest x j,
    forallb (piece_wf tok) rest = true ->
    closedb x = true -> ~ occurs tok x -> j < length x ->
    placeholderPattern tok (skipn j (x ++ document_xml rest)) = None.
Proof.
  intros rest x j W C F Hj.
  destruct (placeholderPattern tok (skipn j (x ++ document_xml rest))) as [n|] eqn:E;
    [|reflexivity].
  exfalso. apply placeholderPattern_inv in E. destruct E as [_ S].
  rewrite skipn_app in S. replace (j - length x) with 0 in S by lia.
  cbn [skipn] in S.
  assert (N : skipn j x <> []).
  { intros Z. apply (f_equal (@length ascii)) in Z. rewrite length_skipn in Z.
    simpl in Z. lia. }
  destruct (after_gt_closed (skipn j x) (document_xml rest)
              (closedb_skipn j x C) N) as (A & C' & u & U).
  rewrite A in S. revert S. apply level1; auto.
  intros O. apply F. apply (occurs_skipn _ j). rewrite U. now apply occurs_app_r.
Qed.

(** The rest of an element, from any of its positions, ends at its [>]. *)
Lemma atom_suffix : forall body j Z,
    forallb not_gt body = true -> j <= length body ->
    after_gt (skipn j (body ++ [">"]) ++ Z) = Z.
Proof.
  induction body as [|c body IH]; intros j Z H Hj.
  - replace j with 0 by (simpl in Hj; lia). reflexivity.
  - destruct j as [|j].
    + cbn [skipn]. rewrite <- app_assoc. now apply after_gt_app.
    + cbn [app skipn]. simpl in H. apply andb_true_iff in H.
      apply IH; [tauto|simpl in Hj; lia].
Qed.

(** No match starts inside a run, except at the head of a run of the
    token. *)
Lemma no_match_slot : forall rest attrs t j,
    forallb (piece_wf tok) rest = true ->
    forallb not_gt attrs = true -> plain t = true ->
    j < length (run_xml attrs t) -> (j = 0 -> t <> tok) ->
    placeholderPattern tok (skipn j (run_xml attrs t ++ document_xml rest)) = None.
Proof.
  intros rest attrs t j W Ha Ht Hj Hz.
  set (R := document_xml rest).
  destruct (placeholderPattern tok (skipn j (run_xml attrs t ++ R))) as [n|] eqn:E;
    [|reflexivity].
  exfalso. apply placeholderPattern_inv in E. destruct E as [P St].
  assert (Pt : forallb not_gt (t ++ lit "</w:t") = true).
  { rewrite forallb_app. cbn [forallb list_ascii_of_string]. rewrite andb_true_r.
    apply forallb_forall. intros c Hc. unfold plain in Ht.
    rewrite forallb_forall in Ht. apply Ht in Hc.
    unfold is_markup in Hc. apply negb_true_iff, orb_false_iff in Hc.
    unfold not_gt. now rewrite (proj2 Hc). }
  set (A2 := (lit "<w:t" ++ attrs) ++ [">"]).
  set (A3 := (t ++ lit "</w:t") ++ [">"]).
  set (A4 := lit "</w:r" ++ [">"]).
  assert (X : run_xml attrs t ++ R = lit "<w:r>" ++ A2 ++ A3 ++ A4 ++ R).
  { unfold run_xml, A2, A3, A4. rewrite <- !app_assoc. reflexivity. }
  rewrite X in P, St.
  assert (L : length (run_xml attrs t) = 5 + length A2 + length A3 + length A4).
  { unfold run_xml, A2, A3, A4. rewrite !length_app. simpl. lia. }
  destruct j as [|[|[|[|[|j]]]]]; try (cbn in P; discriminate P).
  - (* at the head of a run of another token *)
    cbn [skipn] in St.
    change (lit "<w:r>" ++ A2 ++ A3 ++ A4 ++ R)
      with ((lit "<w:r") ++ ">" :: A2 ++ A3 ++ A4 ++ R) in St.
    rewrite after_gt_app in St by reflexivity.
    pose proof (atom_suffix (lit "<w:t" ++ attrs) 0 (A3 ++ A4 ++ R)) as K.
    cbn [skipn] in K. fold A2 in K.
    rewrite K in St; [|now rewrite forallb_app, Ha|lia].
    unfold A3 in St. rewrite <- !app_assoc in St.
    apply guard_token in St; [|exact Ht]. now apply Hz.
  - (* further in the run *)
    clear P X.
    assert (Q : skipn (S (S (S (S (S j))))) (lit "<w:r>" ++ A2 ++ A3 ++ A4 ++ R)
                = skipn j (A2 ++ A3 ++ A4 ++ R)) by reflexivity.
    rewrite Q in St. clear Q.
    assert (L2 : length A2 = S (length (lit "<w:t" ++ attrs)))
      by (unfold A2; rewrite length_app; simpl; lia).
    assert (L3 : length A3 = S (length (t ++ lit "</w:t")))
      by (unfold A3; rewrite length_app; simpl; lia).
    assert (L4 : length A4 = 6) by reflexivity.
    rewrite skipn_app in St.
    destruct (Nat.lt_ge_cases j (length A2)) as [J|J].
    + (* in the opening tag of the text: the second [>] closes the text *)
      replace (j - length A2) with 0 in St by lia. cbn [skipn] in St.
      unfold A2 at 1 in St.
      rewrite (atom_suffix (lit "<w:t" ++ attrs) j (A3 ++ A4 ++ R)) in St;
        [|now rewrite forallb_app, Ha|lia].
      pose proof (atom_suffix (t ++ lit "</w:t") 0 (A4 ++ R) Pt) as K.
      cbn [skipn] in K. fold A3 in K.
      rewrite K in St by lia. now apply guard_not_lt in St.
    + rewrite (skipn_all2 A2) in St by lia. rewrite app_nil_l in St.
      rewrite skipn_app in St.
      destruct (Nat.lt_ge_cases (j - length A2) (length A3)) as [J3|J3].
      * (* in the text: the second [>] closes the run *)
        replace (j - length A2 - length A3) with 0 in St by lia. cbn [skipn] in St.
        unfold A3 at 1 in St.
        rewrite (atom_suffix (t ++ lit "</w:t") (j - length A2) (A4 ++ R)) in St;
          [|exact Pt|lia].
        pose proof (atom_suffix (lit "</w:r") 0 R) as K.
        cbn [skipn] in K. fold A4 in K. rewrite K in St by (auto; simpl; lia).
        revert St. apply (level0 rest []); auto.
        intros O. destruct O as (a & b & O).
        destruct a; [|discriminate]. destruct tok; [now elim tok_not_empty|discriminate].
      * (* in the closing tag of the run *)
        rewrite (skipn_all2 A3) in St by lia. rewrite app_nil_l in St.
        rewrite skipn_app in St.
        replace (j - length A2 - length A3 - length A4) with 0 in St by lia.
        cbn [skipn] in St.
        unfold A4 in St.
        rewrite (atom_suffix (lit "</w:r") (j - length A2 - length A3) R) in St;
          [|reflexivity|change (length (lit "</w:r")) with 5; lia].
        revert St. apply (level1 rest []); auto.
        intros O. destruct O as (a & b & O).
        destruct a; [|discriminate]. destruct tok; [now elim tok_not_empty|discriminate].
Qed.

(** A run of the token gives way to the fragment. *)
Lemma run_replaced : forall omml attrs R before,
    forallb not_dollar omml = true -> forallb not_gt attrs = true ->
    replace_go (placeholderPattern tok) omml before 0 (run_xml attrs tok ++ R)
    = omml ++ replace_go (placeholderPattern tok) omml
                (before ++ run_xml attrs tok) 0 R.
Proof.
  intros omml attrs R before Ho Ha.
  pose proof (placeholderPattern_run tok attrs R Ha) as M.
  assert (S : exists c s', run_xml attrs tok = c :: s')
    by (unfold run_xml; cbn; eauto).
  destruct S as (c & s' & E). rewrite E in *.
  rewrite <- app_comm_cons in *. cbn [replace_go length] in *. rewrite M.
  rewrite GetSubstitution_literal by exact Ho. f_equal.
  rewrite replace_go_skip. rewrite firstn_app, skipn_app.
  rewrite firstn_all, skipn_all, Nat.sub_diag. cbn [firstn skipn].
  rewrite !app_nil_r, app_nil_l. f_equal.
  rewrite <- app_assoc. reflexivity.
Qed.

(** One replacement, on a body made of pieces: the runs of the token give
    way to the fragment and nothing else changes. *)
Lemma replace_document : forall omml ps before,
    forallb not_dollar omml = true ->
    forallb (piece_wf tok) ps = true ->
    replace_go (placeholderPattern tok) omml before 0 (document_xml ps)
    = document_xml (map (fill tok omml) ps).
Proof.
  intros omml ps before Ho. revert before.
  induction ps as [|p ps IH]; intros before W; [reflexivity|].
  cbn [forallb] in W. apply andb_true_iff in W. destruct W as [Wp W].
  unfold document_xml. cbn [map concat]. fold (document_xml ps).
  fold (document_xml (map (fill tok omml) ps)).
  destruct p as [x|attrs t]; cbn [piece_xml piece_wf fill] in *.
  - apply andb_true_iff in Wp. destruct Wp as [C F].
    apply negb_true_iff, occursb_false in F.
    rewrite replace_go_prefix; [now rewrite IH|].
    intros j Hj. now apply no_match_chunk.
  - apply andb_true_iff in Wp. destruct Wp as [Ha Ht].
    destruct (str_eqb t tok) eqn:E.
    + apply str_eqb_eq in E. subst t. cbn [piece_xml].
      rewrite run_replaced by assumption. now rewrite IH.
    + cbn [piece_xml]. rewrite replace_go_prefix; [now rewrite IH|].
      intros j Hj. apply no_match_slot; auto.
      intros _ Z. apply str_eqb_eq in Z. congruence.
Qed.

End OneToken.

(** *** The tokens of the program against a body made of pieces *)

Lemma placeholder_plain : forall k, plain (placeholder_of k) = true.
Proof.
  intros k. unfold plain, placeholder_of. rewrite !forallb_app.
  replace (forallb (fun c => negb (is_markup c)) (string_of_nat k)) with true;
    [reflexivity|].
  symmetry. apply forallb_forall. intros c H. apply string_of_nat_digits in H.
  simpl in H. intuition (subst; reflexivity).
Qed.

Lemma placeholder_not_nil : forall k, placeholder_of k <> [].
Proof. intros k. discriminate. Qed.

Lemma inert_token_free : forall k x,
    inert x = true -> closedb x = true /\ ~ occurs (placeholder_of k) x.
Proof.
  intros k x H. unfold inert in H. apply andb_true_iff in H. destruct H as [C F].
  split; [exact C|]. apply negb_true_iff, occursb_false in F. intros O. apply F.
  apply (occurs_trans _ (placeholder_of k)); [apply prefix_in_placeholder|exact O].
Qed.

Lemma piece_ok_wf : forall keys k p,
    (forall t, In t keys -> exists j, t = placeholder_of j) ->
    piece_ok keys p = true -> piece_wf (placeholder_of k) p = true.
Proof.
  intros keys k [x|attrs t] K H; cbn [piece_ok piece_wf] in *.
  - destruct (inert_token_free k x H) as [C F]. rewrite C.
    apply occursb_false in F. now rewrite F.
  - apply andb_true_iff in H. destruct H as [-> H]. apply existsb_exists in H.
    destruct H as (t' & Hin & E). apply str_eqb_eq in E. subst t'.
    destruct (K t Hin) as [j ->]. now rewrite placeholder_plain.
Qed.

Lemma fill_ok : forall tok omml keys p,
    fragment_ok omml = true ->
    piece_ok (tok :: keys) p = true -> piece_ok keys (fill tok omml p) = true.
Proof.
  intros tok omml keys [x|attrs t] F H; cbn [piece_ok fill] in *; [exact H|].
  destruct (str_eqb t tok) eqn:E; cbn [piece_ok].
  - unfold fragment_ok in F. apply andb_true_iff in F. tauto.
  - cbn [existsb] in H. now rewrite E in H.
Qed.

(** The substitution loop on a body made for the keys of the map: every
    placeholder run gives way to a fragment, and a body of inert stretches
    is left. *)
Lemma substitute_pieces : forall entries ps,
    (forall t, In t (map fst entries) -> exists j, t = placeholder_of j) ->
    forallb (fun entry => fragment_ok (snd entry)) entries = true ->
    forallb (piece_ok (map fst entries)) ps = true ->
    exists ps',
      substitute (document_xml ps) entries = document_xml ps' /\
      forallb (piece_ok []) ps' = true.
Proof.
  induction entries as [|[tok omml] entries IH]; intros ps K F W.
  - now exists ps.
  - cbn [map fst snd forallb] in *. apply andb_true_iff in F. destruct F as [Fo F].
    destruct (K tok (or_introl eq_refl)) as [k ->].
    assert (Wf : forallb (piece_wf (placeholder_of k)) ps = true).
    { apply forallb_forall. intros p Hp. rewrite forallb_forall in W.
      apply (piece_ok_wf (placeholder_of k :: map fst entries)); auto. }
    assert (D : forallb not_dollar omml = true).
    { unfold fragment_ok in Fo. apply andb_true_iff in Fo. tauto. }
    destruct (IH (map (fill (placeholder_of k) omml) ps)) as (ps' & E & I).
    + intros t Ht. apply K. now right.
    + exact F.
    + rewrite forallb_forall in W. apply forallb_forall. intros p Hp.
      apply in_map_iff in Hp. destruct Hp as (q & <- & Hq).
      apply fill_ok; auto.
    + exists ps'. split; [|exact I]. rewrite <- E.
      unfold substitute. cbn [fold_left fst snd]. unfold replace_g.
      rewrite (replace_document (placeholder_of k)); auto.
      * apply placeholder_plain.
      * apply placeholder_not_nil.
Qed.

Lemma inert_document : forall ps,
    forallb (piece_ok []) ps = true -> inert (document_xml ps) = true.
Proof.
  induction ps as [|[x|attrs t] ps IH]; intros H; [reflexivity| |].
  - cbn [forallb piece_ok] in H. apply andb_true_iff in H. destruct H as [Hx H].
    specialize (IH H). unfold inert in *.
    apply andb_true_iff in Hx, IH. destruct Hx as [Cx Fx], IH as [C F].
    unfold document_xml in *. cbn [map concat piece_xml].
    apply andb_true_iff. split; [now apply closedb_app|].
    apply negb_true_iff, occursb_false. intros O.
    apply closed_occurs_app in O; [|exact Cx|reflexivity].
    apply negb_true_iff, occursb_false in Fx, F. tauto.
  - cbn [forallb piece_ok existsb] in H. rewrite andb_false_r in H. discriminate.
Qed.

(** After the loop no token of the map is left in the body. *)
Lemma substitute_no_token : forall entries ps tok,
    (forall t, In t (map fst entries) -> exists j, t = placeholder_of j) ->
    forallb (fun entry => fragment_ok (snd entry)) entries = true ->
    forallb (piece_ok (map fst entries)) ps = true ->
    In tok (map fst entries) ->
    occursb tok (substitute (document_xml ps) entries) = false.
Proof.
  intros entries ps tok K F W Hin.
  destruct (substitute_pieces entries ps K F W) as (ps' & -> & I).
  destruct (K tok Hin) as [k ->].
  apply occursb_false. apply inert_document in I.
  now destruct (inert_token_free k _ I).
Qed.

(** ** Placeholders against the text of the user *)

(** C2, as the program has it.  Nothing in [generateDocx] inspects the text
    for the reserved marker, so a collision is excluded only for inputs that
    do not carry it: when the prefix [__MATH_PLACEHOLDER_] does not occur in
    the input, no registered token occurs in any text item of the export
    (plain text and degraded formulas alike). *)
Theorem placeholder_free_input_no_collision :
  forall (latexToMathML : str -> bool -> option str)
         (mathmlToOmml : str -> option str) (input tok v : str),
    occursb PLACEHOLDER_PREFIX input = false ->
    In tok (tokens (docxAssembly latexToMathML mathmlToOmml input)) ->
    In (ItemText v) (docxItems latexToMathML mathmlToOmml input) ->
    occursb tok v = false.
Proof.
  intros l2m m2o input tok v Hfree Htok Hv.
  apply occursb_false. intros Ho.
  apply (text_items_clean l2m m2o input v Hfree Hv).
  unfold docxAssembly in Htok.
  destruct (assemble_tokens (docxItems l2m m2o input)) as [T _].
  rewrite T in Htok. apply in_map_iff in Htok. destruct Htok as (k & <- & _).
  apply (occurs_trans _ (placeholder_of k)); [apply prefix_in_placeholder|exact Ho].
Qed.

Lemma placeholder_free_input_no_collision_witness :
  let input := lit "area $x^2$ of a square" in
  occursb PLACEHOLDER_PREFIX input = false /\
  In (placeholder_of 0)
     (tokens (docxAssembly sample_latexToMathML sample_mathmlToOmml input)) /\
  In (ItemText (lit "area "))
     (docxItems sample_latexToMathML sample_mathmlToOmml input) /\
  occursb (placeholder_of 0) (lit "area ") = false.
Proof.
  intros input.
  assert (H1 : occursb PLACEHOLDER_PREFIX input = false) by reflexivity.
  assert (H2 : In (placeholder_of 0)
                  (tokens (docxAssembly sample_latexToMathML sample_mathmlToOmml input)))
    by (vm_compute; left; reflexivity).
  assert (H3 : In (ItemText (lit "area "))
                  (docxItems sample_latexToMathML sample_mathmlToOmml input))
    by (vm_compute; left; reflexivity).
  split; [exact H1|]. split; [exact H2|]. split; [exact H3|].
  exact (placeholder_free_input_no_collision sample_latexToMathML sample_mathmlToOmml
           input (placeholder_of 0) (lit "area ") H1 H2 H3).
Defined.

(** C2 as stated fails: the text may spell a token that gets registered. *)
Lemma placeholder_collision_counterexample :
  In (placeholder_of 0)
     (tokens (docxAssembly sample_latexToMathML sample_mathmlToOmml
                (lit "__MATH_PLACEHOLDER_0__ is $x$"))) /\
  In (ItemText (lit "__MATH_PLACEHOLDER_0__ is "))
     (docxItems sample_latexToMathML sample_mathmlToOmml
        (lit "__MATH_PLACEHOLDER_0__ is $x$")) /\
  occursb (placeholder_of 0) (lit "__MATH_PLACEHOLDER_0__ is ") = true.
Proof.
  repeat split; vm_compute; auto.
Qed.

(** C3, as the program has it.  The math items of an input register as many
    tokens, pairwise distinct.  When the prefix [__MATH_PLACEHOLDER_] does
    not occur in the input, each registered token occurs in exactly one run
    of the paragraph tree handed to the document builder.  And whenever the
    document body read back from the archive is made of runs that hold one
    registered token each (no [>] in the attributes of their text element)
    between stretches that are empty or end with [>] and do not hold the
    reserved prefix, and every fragment of the map holds no dollar, is
    empty or ends with [>] and does not hold the reserved prefix, no
    registered token occurs in the body the substitution loop leaves. *)
Theorem placeholder_uniqueness :
  forall (latexToMathML : str -> bool -> option str)
         (mathmlToOmml : str -> option str) (input : str),
    let a := docxAssembly latexToMathML mathmlToOmml input in
    let N := length (filter is_math (docxItems latexToMathML mathmlToOmml input)) in
    length (mathPlaceholders a) = N /\
    tokens a = map placeholder_of (seq 0 N) /\
    NoDup (tokens a) /\
    (occursb PLACEHOLDER_PREFIX input = false ->
     forall tok, In tok (tokens a) -> run_count tok (runs_of (paragraphs a)) = 1) /\
    (forall pieces : list Piece,
        forallb (piece_ok (tokens a)) pieces = true ->
        forallb (fun entry => fragment_ok (snd entry)) (mathPlaceholders a) = true ->
        forall tok, In tok (tokens a) ->
          occursb tok (substitute (document_xml pieces) (mathPlaceholders a)) = false).
Proof.
  intros l2m m2o input a N.
  destruct (assemble_tokens (docxItems l2m m2o input)) as [T P].
  change (tokens a = map placeholder_of (seq 0 N)) in T.
  assert (L : length (mathPlaceholders a) = N).
  { rewrite <- (length_map fst). fold (tokens a). now rewrite T, length_map, length_seq. }
  repeat split; [exact L|exact T| | |].
  - rewrite T. apply NoDup_map_NoDup_ForallPairs; [|apply seq_NoDup].
    intros x y _ _. apply placeholder_of_inj.
  - intros Hfree tok Htok. rewrite T in Htok. apply in_map_iff in Htok.
    destruct Htok as (k & <- & Hk). apply in_seq in Hk.
    unfold run_count, a, docxAssembly. rewrite assemble_runs.
    rewrite <- (filter_filter_implies _ _ has_prefix).
    + rewrite (assemble_fold_runs (docxItems l2m m2o input) emptyAssembly);
        [|intros v Hv; now apply (text_items_clean l2m m2o input)|reflexivity].
      destruct (assemble_fold_tokens (docxItems l2m m2o input) emptyAssembly eq_refl)
        as [_ ->].
      cbn [placeholderIndex emptyAssembly plus]. fold N.
      rewrite filter_map_length. cbn [placeholder_run run_text].
      rewrite (filter_ext _ (Nat.eqb k)) by (intros j; apply placeholder_occursb).
      apply count_in_seq. lia.
    + intros r Hr. unfold has_prefix. apply occursb_occurs.
      apply occursb_occurs in Hr.
      apply (occurs_trans _ (placeholder_of k)); [apply prefix_in_placeholder|exact Hr].
  - intros pieces Hp Hf tok Htok. unfold tokens in *.
    apply substitute_no_token; auto.
    intros t Ht. rewrite T in Ht. apply in_map_iff in Ht.
    destruct Ht as (k & <- & _). now exists k.
Qed.

Lemma placeholder_uniqueness_witness :
  let input := lit "if $a$ then $$b$$ else $c$" in
  let a := docxAssembly sample_latexToMathML sample_mathmlToOmml input in
  let pieces := sample_body (tokens a) (paragraphs a) in
  occursb PLACEHOLDER_PREFIX input = false /\
  In (placeholder_of 1) (tokens a) /\
  forallb (piece_ok (tokens a)) pieces = true /\
  forallb (fun entry => fragment_ok (snd entry)) (mathPlaceholders a) = true /\
  occursb (placeholder_of 1) (document_xml pieces) = true /\
  length (mathPlaceholders a) = 3 /\
  run_count (placeholder_of 1) (runs_of (paragraphs a)) = 1 /\
  occursb (placeholder_of 1)
    (substitute (document_xml pieces) (mathPlaceholders a)) = false.
Proof.
  intros input a pieces.
  assert (H1 : occursb PLACEHOLDER_PREFIX input = false) by reflexivity.
  assert (H2 : In (placeholder_of 1) (tokens a))
    by (vm_compute; right; left; reflexivity).
  assert (H3 : forallb (piece_ok (tokens a)) pieces = true)
    by (vm_compute; reflexivity).
  assert (H4 : forallb (fun entry => fragment_ok (snd entry)) (mathPlaceholders a)
               = true) by (vm_compute; reflexivity).
  assert (H5 : occursb (placeholder_of 1) (document_xml pieces) = true)
    by (vm_compute; reflexivity).
  destruct (placeholder_uniqueness sample_latexToMathML sample_mathmlToOmml input)
    as (L & _ & _ & U & V).
  split; [exact H1|]. split; [exact H2|]. split; [exact H3|]. split; [exact H4|].
  split; [exact H5|]. split; [exact L|]. split; [exact (U H1 (placeholder_of 1) H2)|].
  exact (V pieces H3 H4 (placeholder_of 1) H2).
Defined.

(** C3 as stated fails.  The text of the user may carry a registered token:
    it then occurs in two runs of the paragraph tree, and it is still in the
    document body after the substitution, which only replaces the runs made
    of a token alone.  And in an input without the reserved prefix, a
    fragment that holds [$&] brings the replaced run, token included, back
    into the body. *)
Lemma placeholder_uniqueness_counterexample :
  (let a := docxAssembly sample_latexToMathML sample_mathmlToOmml
              (lit "__MATH_PLACEHOLDER_0__ is $x$") in
   In (placeholder_of 0) (tokens a) /\
   run_count (placeholder_of 0) (runs_of (paragraphs a)) = 2 /\
   occursb (placeholder_of 0)
     (substitute (document_xml (sample_body (tokens a) (paragraphs a)))
        (mathPlaceholders a)) = true) /\
  (let a := docxAssembly sample_latexToMathML dollar_mathmlToOmml (lit "$x$") in
   occursb PLACEHOLDER_PREFIX (lit "$x$") = false /\
   In (placeholder_of 0) (tokens a) /\
   forallb (piece_ok (tokens a)) (sample_body (tokens a) (paragraphs a)) = true /\
   occursb (placeholder_of 0)
     (substitute (document_xml (sample_body (tokens a) (paragraphs a)))
        (mathPlaceholders a)) = true).
Proof.
  split; cbv zeta; repeat split; vm_compute; auto.
Qed.

(** The post-processing at work on a document body with one placeholder run,
    as the document builder writes runs. *)
Example substitute_sample :
  substitute
    (lit "<w:p><w:r><w:t xml:space=" ++ [DQUOTE] ++ lit "preserve" ++ [DQUOTE]
       ++ lit ">__MATH_PLACEHOLDER_0__</w:t></w:r><w:r><w:t>.</w:t></w:r></w:p>")
    [(placeholder_of 0, lit "<m:oMath>x</m:oMath>")]
  = lit "<w:p><m:oMath>x</m:oMath><w:r><w:t>.</w:t></w:r></w:p>".
Proof. vm_compute. reflexivity. Qed.

(* ================================================================== *)
(** * Part III: further properties of the code                          *)
(* ================================================================== *)

(** ** [escapeHtml] and the attribute escaping, character by character *)

Lemma escapeHtml_chars : forall s, escapeHtml s = flat_map esc3 s.
Proof.
  intros s. unfold escapeHtml.
  rewrite !replace_g_plain by reflexivity.
  cbn [list_ascii_of_string].
  rewrite !replace_char, !flat_map_comp.
  apply flat_map_ext. intros c. each_char c.
Qed.

Lemma existsb_flat_map_false : forall (f : ascii -> bool) (g : ascii -> str) s,
    (forall c, existsb f (g c) = false) -> existsb f (flat_map g s) = false.
Proof.
  intros f g s H. induction s as [|c s IH]; [reflexivity|].
  cbn [flat_map]. now rewrite existsb_app, H, IH.
Qed.

(** The escaped text carries no angle bracket, and the value of the
    [data-latex] attribute carries no angle bracket and no double quote:
    neither can close the tag or the attribute it is written in. *)
Theorem escaping_removes_markup :
  forall s : str,
    existsb is_markup (escapeHtml s) = false /\
    existsb (fun c => is_markup c || Ascii.eqb c DQUOTE) (escapeLatexAttr s) = false.
Proof.
  intros s. split.
  - rewrite escapeHtml_chars. apply existsb_flat_map_false. intros c. each_char c.
  - rewrite escapeLatexAttr_chars. apply existsb_flat_map_false. intros c. each_char c.
Qed.

(** Escaping works character by character: it distributes over
    concatenation. *)
Theorem escapeHtml_app :
  forall a b : str, escapeHtml (a ++ b) = escapeHtml a ++ escapeHtml b.
Proof. intros a b. rewrite !escapeHtml_chars. apply flat_map_app. Qed.

(** ** A replacement whose pattern does not occur *)

Lemma replace_go_never : forall re replacement s before,
    (forall j, re (skipn j s) = None) ->
    replace_go re replacement before 0 s = s.
Proof.
  intros re replacement s. induction s as [|c s IH]; intros before H; [reflexivity|].
  cbn [replace_go]. rewrite (H 0 : re (c :: s) = None). f_equal.
  apply IH. intros j. exact (H (S j)).
Qed.

Lemma re_lit_absent : forall p s j, ~ occurs p s -> re_lit p (skipn j s) = None.
Proof.
  intros p s j H. unfold re_lit. destruct (prefixb p (skipn j s)) eqn:P; [|reflexivity].
  exfalso. apply H. apply (occurs_skipn _ j), starts_occurs, prefixb_starts, P.
Qed.

Lemma replace_g_absent : forall p replacement s,
    occursb p s = false -> replace_g (re_lit p) replacement s = s.
Proof.
  intros p replacement s H. apply occursb_false in H.
  apply replace_go_never. intros j. now apply re_lit_absent.
Qed.

(** The decoding of [handleContextMenu] leaves alone a text in which none
    of the four entities occurs. *)
Theorem unescape_without_entity :
  forall s : str,
    forallb (fun e => negb (occursb e s)) entities = true ->
    unescapeLatexAttr s = s.
Proof.
  intros s H. unfold entities in H. cbn [forallb] in H.
  repeat (apply andb_true_iff in H; destruct H as [?H H]).
  repeat match goal with
         | K : negb _ = true |- _ => apply negb_true_iff in K
         end.
  unfold unescapeLatexAttr.
  rewrite (replace_g_absent (lit "&quot;")) by assumption.
  rewrite (replace_g_absent (lit "&lt;")) by assumption.
  rewrite (replace_g_absent (lit "&gt;")) by assumption.
  now rewrite (replace_g_absent (lit "&amp;")) by assumption.
Qed.

Lemma unescape_without_entity_witness :
  let s := lit "a & b \\ c & d" in
  forallb (fun e => negb (occursb e s)) entities = true /\ unescapeLatexAttr s = s.
Proof.
  intros s.
  assert (H : forallb (fun e => negb (occursb e s)) entities = true) by reflexivity.
  split; [exact H|]. exact (unescape_without_entity s H).
Defined.

(** ** Line endings *)

Lemma normalize_chars : forall s,
    normalize s
    = flat_map (ent CR [LF]) (replace_plain (re_lit [CR; LF]) [LF] 0 s).
Proof.
  intros s. unfold normalize. rewrite !replace_g_plain by reflexivity.
  now rewrite replace_char.
Qed.

Lemma occurs_In : forall (p s : str) c, In c p -> occurs p s -> In c s.
Proof.
  intros p s c Hc (a & b & ->). apply in_or_app. right. apply in_or_app. now left.
Qed.

Lemma occursb_no_char : forall (p s : str) c,
    In c p -> ~ In c s -> occursb p s = false.
Proof.
  intros p s c Hc Hs. apply occursb_false. intros Ho. apply Hs.
  now apply (occurs_In p).
Qed.

Lemma normalize_no_CR : forall s, ~ In CR (normalize s).
Proof.
  intros s. rewrite normalize_chars.
  generalize (replace_plain (re_lit [CR; LF]) [LF] 0 s). intros t H.
  apply in_flat_map in H. destruct H as (c & _ & H). unfold ent in H.
  destruct (Ascii.eqb CR c) eqn:E.
  - destruct H as [H|[]]. discriminate.
  - destruct H as [H|[]]. subst c. now rewrite Ascii.eqb_refl in E.
Qed.

Lemma normalize_id : forall s, ~ In CR s -> normalize s = s.
Proof.
  intros s H. unfold normalize.
  rewrite (replace_g_absent [CR; LF])
    by (apply (occursb_no_char _ _ CR); [now left|exact H]).
  apply replace_g_absent. apply (occursb_no_char _ _ CR); [now left|exact H].
Qed.

(** Normalising the line endings removes every carriage return, changes
    nothing in a text without carriage return, and is idempotent. *)
Theorem normalize_line_endings :
  forall s : str,
    ~ In CR (normalize s) /\
    (~ In CR s -> normalize s = s) /\
    normalize (normalize s) = normalize s.
Proof.
  intros s. split; [apply normalize_no_CR|]. split; [apply normalize_id|].
  apply normalize_id, normalize_no_CR.
Qed.

Lemma normalize_line_endings_witness :
  let s := lit "one" ++ [LF] ++ lit "two" in
  ~ In CR s /\ normalize s = s.
Proof.
  intros s.
  assert (H : ~ In CR s) by (simpl; intuition discriminate).
  split; [exact H|]. exact (proj1 (proj2 (normalize_line_endings s)) H).
Defined.

(** Induction on a text read the way the line-ending patterns read it: a
    carriage return followed by a line feed is one step. *)
Lemma crlf_ind : forall P : str -> Prop,
    P [] ->
    (forall s, P s -> P (CR :: LF :: s)) ->
    (forall c s, (c = CR -> forall s', s <> LF :: s') -> P s -> P (c :: s)) ->
    forall s, P s.
Proof.
  intros P H0 H2 H1 s.
  assert (Q : P s /\ forall c, P (c :: s)).
  { induction s as [|d s [IH1 IH2]].
    - split; [exact H0|]. intros c. apply H1; [|exact H0]. intros _ s'. discriminate.
    - split; [apply IH2|]. intros c.
      destruct (ascii_dec c CR) as [->|Nc].
      + destruct (ascii_dec d LF) as [->|Nd]; [now apply H2|].
        apply H1; [|apply IH2]. intros _ s' E. injection E as E _. contradiction.
      + apply H1; [|apply IH2]. intros E. contradiction. }
  apply Q.
Qed.

(** The pattern [/\r\n/g] at work. *)
Lemma crlf_pair : forall replacement s,
    replace_plain (re_lit [CR; LF]) replacement 0 (CR :: LF :: s)
    = replacement ++ replace_plain (re_lit [CR; LF]) replacement 0 s.
Proof. reflexivity. Qed.

Lemma crlf_other : forall replacement c s,
    (c = CR -> forall s', s <> LF :: s') ->
    replace_plain (re_lit [CR; LF]) replacement 0 (c :: s)
    = c :: replace_plain (re_lit [CR; LF]) replacement 0 s.
Proof.
  intros replacement c s H. cbn [replace_plain]. unfold re_lit at 1.
  cbn [prefixb]. destruct (Ascii.eqb CR c) eqn:E; [|reflexivity].
  apply Ascii.eqb_eq in E. symmetry in E. specialize (H E).
  destruct s as [|d s]; [reflexivity|].
  destruct (Ascii.eqb LF d) eqn:D; [|reflexivity].
  apply Ascii.eqb_eq in D. subst d. now elim (H s).
Qed.

Lemma normalize_pair : forall s, normalize (CR :: LF :: s) = LF :: normalize s.
Proof. intros s. rewrite !normalize_chars, crlf_pair. reflexivity. Qed.

Lemma normalize_other : forall c s,
    (c = CR -> forall s', s <> LF :: s') ->
    normalize (c :: s) = (if Ascii.eqb CR c then LF else c) :: normalize s.
Proof.
  intros c s H. rewrite !normalize_chars, crlf_other by exact H.
  cbn [flat_map]. unfold ent at 1. now destruct (Ascii.eqb CR c).
Qed.

Lemma escapeAndFormat_chars : forall s,
    escapeAndFormat s
    = flat_map (fun c => flat_map (ent CR (lit "<br>")) (ent LF (lit "<br>") c))
        (replace_plain (re_lit [CR; LF]) (lit "<br>") 0 (flat_map esc3 s)).
Proof.
  intros s. unfold escapeAndFormat. rewrite escapeHtml_chars.
  rewrite !replace_g_plain by reflexivity.
  now rewrite !replace_char, flat_map_comp.
Qed.

Lemma esc3_head : forall d,
    match esc3 d with
    | [] => false
    | h :: _ => implb (Ascii.eqb h LF) (Ascii.eqb d LF)
    end = true.
Proof. intros d. each_char d. Qed.

Lemma esc3_not_LF : forall s s', (forall t, s <> LF :: t) -> flat_map esc3 s <> LF :: s'.
Proof.
  intros s s' H E. destruct s as [|d s]; [discriminate|].
  cbn [flat_map] in E. pose proof (esc3_head d) as K.
  destruct (esc3 d) as [|h t]; [discriminate|].
  injection E as -> _. simpl in K. apply Ascii.eqb_eq in K. subst d. now elim (H s).
Qed.

Lemma crlf_esc3 : forall replacement c rest,
    (c = CR -> forall s', rest <> LF :: s') ->
    replace_plain (re_lit [CR; LF]) replacement 0 (esc3 c ++ rest)
    = esc3 c ++ replace_plain (re_lit [CR; LF]) replacement 0 rest.
Proof.
  intros replacement c rest H. destruct (ascii_dec c CR) as [->|N].
  - change (esc3 CR ++ rest) with (CR :: rest). now rewrite crlf_other by exact H.
  - clear H. destruct c as [[|] [|] [|] [|] [|] [|] [|] [|]];
      first [reflexivity | exfalso; apply N; reflexivity].
Qed.

Lemma escapeAndFormat_pair : forall s,
    escapeAndFormat (CR :: LF :: s) = lit "<br>" ++ escapeAndFormat s.
Proof.
  intros s. rewrite !escapeAndFormat_chars.
  change (flat_map esc3 (CR :: LF :: s)) with (CR :: LF :: flat_map esc3 s).
  rewrite crlf_pair, flat_map_app. reflexivity.
Qed.

Lemma escapeAndFormat_other : forall c s,
    (c = CR -> forall s', s <> LF :: s') ->
    escapeAndFormat (c :: s) = format_char c ++ escapeAndFormat s.
Proof.
  intros c s H. rewrite !escapeAndFormat_chars. cbn [flat_map].
  rewrite crlf_esc3, flat_map_app.
  - f_equal. each_char c.
  - intros E s'. apply esc3_not_LF. intros t. now apply H.
Qed.

(** The preview treats the three line endings alike: it is the same for a
    text and for the text with its line endings normalised the way
    [generateDocx] does; and no line break character is left in it. *)
Theorem escapeAndFormat_line_endings :
  forall s : str,
    escapeAndFormat (normalize s) = escapeAndFormat s /\
    existsb is_line_break (escapeAndFormat s) = false.
Proof.
  intros s. split.
  - induction s as [|s IH|c s H IH] using crlf_ind.
    + reflexivity.
    + rewrite normalize_pair, escapeAndFormat_pair.
      rewrite escapeAndFormat_other by (intros E; discriminate).
      now rewrite IH.
    + rewrite normalize_other, !escapeAndFormat_other; try exact H.
      * rewrite IH. f_equal. destruct (Ascii.eqb CR c) eqn:E; [|reflexivity].
        apply Ascii.eqb_eq in E. now subst c.
      * intros E. destruct (Ascii.eqb CR c) eqn:K; [discriminate|].
        subst c. discriminate.
  - induction s as [|s IH|c s H IH] using crlf_ind.
    + reflexivity.
    + rewrite escapeAndFormat_pair, existsb_app, IH. reflexivity.
    + rewrite escapeAndFormat_other, existsb_app, IH by exact H.
      rewrite orb_false_r. each_char c.
Qed.

(** ** The matches of the scanning loop *)

Lemma ExecLoop_matches : forall input k ms,
    ExecLoop input k ms ->
    Forall (match_in input k) ms /\ ForallOrdPairs match_before ms.
Proof.
  intros input k ms H. induction H as [k E|k m ms E _ [IH1 IH2]].
  - split; constructor.
  - pose proof (exec_spec _ _ _ E) as (H1 & H2 & H3 & H4).
    split; constructor; try exact IH2.
    + repeat split; assumption.
    + eapply Forall_impl; [|exact IH1].
      intros m' (K1 & K2 & K3 & K4). repeat split; try assumption. lia.
    + eapply Forall_impl; [|exact IH1].
      intros m' (K1 & _). exact K1.
Qed.

(** The loop goes strictly from left to right: every match lies within the
    subject, is at least one character long, is the text of the subject at
    its position, and ends before the next one starts. *)
Theorem matches_in_order :
  forall input : str,
    Forall (match_in input 0) (matches input) /\
    ForallOrdPairs match_before (matches input).
Proof. intros input. apply ExecLoop_matches, matches_loop. Qed.

(** ** The shape of a formula *)

Lemma firstn_length_app : forall (a b : str), firstn (length a) (a ++ b) = a.
Proof.
  intros a b. rewrite firstn_app, Nat.sub_diag, firstn_all. simpl. apply app_nil_r.
Qed.

Lemma delimited_match : forall (d body rest : str),
    firstn (length body + (length d + length d)) (d ++ body ++ d ++ rest)
    = d ++ body ++ d /\
    slice (d ++ body ++ d ++ rest) (length d)
          (length body + (length d + length d) - length d) = body.
Proof.
  intros d body rest. split.
  - replace (length body + (length d + length d)) with (length (d ++ body ++ d))
      by (rewrite !length_app; lia).
    replace (d ++ body ++ d ++ rest) with ((d ++ body ++ d) ++ rest)
      by (now rewrite <- !app_assoc).
    apply firstn_length_app.
  - unfold slice. rewrite skipn_length_app.
    replace (length body + (length d + length d) - length d - length d)
      with (length body) by lia.
    apply firstn_length_app.
Qed.

Lemma block_match_shape : forall i body rest,
    body <> [] -> forallb not_dollar body = true ->
    well_shaped
      (mkMatch i (firstn (length body + 4) (lit "$$" ++ body ++ lit "$$" ++ rest))
               (Some (slice (lit "$$" ++ body ++ lit "$$" ++ rest) 2
                            (length body + 4 - 2)))
               None).
Proof.
  intros i body rest Hne Hb.
  destruct (delimited_match (lit "$$") body rest) as [E1 E2].
  change (length (lit "$$")) with 2 in E1, E2.
  change (length body + (2 + 2)) with (length body + 4) in E1, E2.
  rewrite E1, E2. unfold well_shaped, latex_of, isBlock_of. cbn [m0 m1 m2].
  destruct body as [|c body]; [now elim Hne|].
  repeat split; [discriminate|exact Hb].
Qed.

Lemma inline_match_shape : forall i body rest,
    body <> [] -> forallb not_dollar body = true ->
    well_shaped
      (mkMatch i (firstn (length body + 2) (lit "$" ++ body ++ lit "$" ++ rest))
               None
               (Some (slice (lit "$" ++ body ++ lit "$" ++ rest) 1
                            (length body + 2 - 1)))).
Proof.
  intros i body rest Hne Hb.
  destruct (delimited_match (lit "$") body rest) as [E1 E2].
  change (length (lit "$")) with 1 in E1, E2.
  change (length body + (1 + 1)) with (length body + 2) in E1, E2.
  rewrite E1, E2. unfold well_shaped, latex_of, isBlock_of. cbn [m0 m1 m2].
  repeat split; [exact Hne|exact Hb].
Qed.

Lemma formula_at_shape : forall i s m, formula_at i s = Some m -> well_shaped m.
Proof.
  intros i s m. unfold formula_at.
  destruct (re_block s) as [n|] eqn:B.
  - apply re_block_iff in B. destruct B as (body & rest & Hne & Hb & -> & ->).
    intros H. injection H as <-. now apply block_match_shape.
  - destruct (re_inline s) as [n|] eqn:I; [|discriminate].
    apply re_inline_iff in I. destruct I as (body & rest & Hne & Hb & -> & ->).
    intros H. injection H as <-. now apply inline_match_shape.
Qed.

Lemma search_formula_at : forall s i m,
    search s i = Some m -> exists j, formula_at (i + j) (skipn j s) = Some m.
Proof.
  induction s as [|c s IH]; intros i m H.
  - discriminate.
  - rewrite search_cons in H. destruct (formula_at i (c :: s)) as [m'|] eqn:F.
    + injection H as <-. exists 0. now rewrite Nat.add_0_r.
    + apply IH in H. destruct H as [j H]. exists (S j).
      now rewrite Nat.add_succ_r.
Qed.

Lemma ExecLoop_shape : forall input k ms,
    ExecLoop input k ms -> Forall well_shaped ms.
Proof.
  intros input k ms H. induction H as [k E|k m ms E _ IH]; constructor; [|exact IH].
  unfold exec in E. destruct (length input <? k)%nat; [discriminate|].
  apply search_formula_at in E. destruct E as [j E]. now apply formula_at_shape in E.
Qed.

(** The members of the pieces of a scan. *)
Lemma pieces_In : forall (A : Type) (onText : str -> list A)
                         (onMatch : RegExpExecArray -> list A) input ms k x,
    In x (pieces_with onText onMatch input ms k) ->
    (exists t, In x (onText t)) \/ (exists m, In m ms /\ In x (onMatch m)).
Proof.
  intros A onText onMatch input ms. induction ms as [|m ms IH]; intros k x H.
  - left. eexists. exact H.
  - cbn [pieces_with] in H. apply in_app_or in H. destruct H as [H|H].
    + left. eexists. exact H.
    + apply in_app_or in H. destruct H as [H|H].
      * right. exists m. split; [now left|exact H].
      * apply IH in H. destruct H as [H|(m' & Hm & H)]; [now left|].
        right. exists m'. split; [now right|exact H].
Qed.

Lemma segment_formula_shape : forall text src latex b,
    In (SpanFormula src latex b) (segment text) ->
    latex <> [] /\
    forallb not_dollar latex = true /\
    src = delimiter b ++ latex ++ delimiter b.
Proof.
  intros text src latex b H. rewrite segment_pieces in H.
  apply pieces_In in H. destruct H as [[t H]|(m & Hm & H)].
  - unfold text_span in H. destruct (truthy t); [|contradiction].
    destruct H as [H|[]]. discriminate.
  - destruct H as [H|[]]. injection H as <- <- <-.
    pose proof (ExecLoop_shape _ _ _ (matches_loop text)) as S.
    rewrite Forall_forall in S. exact (S m Hm).
Qed.

Lemma span_source_nonempty : forall text sp,
    In sp (segment text) -> span_source sp <> [].
Proof.
  intros text sp H. destruct sp as [w|src latex b].
  - rewrite segment_pieces in H. apply pieces_In in H.
    destruct H as [[t H]|(m & _ & H)].
    + unfold text_span in H. destruct (truthy t) eqn:T; [|contradiction].
      destruct H as [H|[]]. injection H as <-. simpl. now destruct t.
    + destruct H as [H|[]]. discriminate.
  - apply segment_formula_shape in H. destruct H as (_ & _ & ->).
    simpl. now destruct b.
Qed.

(** Every formula span has a body that is not empty and holds no dollar; its
    source is the body between two delimiters, doubled for a block formula
    and single for an inline one. *)
Theorem formula_span_shape :
  forall (text src latex : str) (isBlock : bool),
    In (SpanFormula src latex isBlock) (segment text) ->
    latex <> [] /\
    forallb not_dollar latex = true /\
    src = delimiter isBlock ++ latex ++ delimiter isBlock.
Proof. exact segment_formula_shape. Qed.

Lemma formula_span_shape_witness :
  let text := lit "area $x^2$ of a square" in
  In (SpanFormula (lit "$x^2$") (lit "x^2") false) (segment text) /\
  lit "x^2" <> [] /\
  forallb not_dollar (lit "x^2") = true /\
  lit "$x^2$" = delimiter false ++ lit "x^2" ++ delimiter false.
Proof.
  intros text.
  assert (H : In (SpanFormula (lit "$x^2$") (lit "x^2") false) (segment text))
    by (vm_compute; right; left; reflexivity).
  split; [exact H|].
  exact (formula_span_shape text (lit "$x^2$") (lit "x^2") false H).
Defined.

(** No span and no content item holds an empty text. *)
Theorem no_empty_text :
  forall (latexToMathML : str -> bool -> option str)
         (mathmlToOmml : str -> option str) (text v : str),
    In (SpanText v) (segment text) \/
    In (ItemText v) (parseItems latexToMathML mathmlToOmml text) ->
    v <> [].
Proof.
  intros l2m m2o text v [H|H].
  - exact (span_source_nonempty text _ H).
  - rewrite parseItems_segment in H. apply in_map_iff in H.
    destruct H as (sp & E & Hin). pose proof (span_source_nonempty text sp Hin) as S.
    destruct sp as [w|src latex b]; simpl in *.
    + now injection E as <-.
    + unfold convert_match in E.
      destruct (l2m latex b) as [mathml|]; [destruct (m2o mathml)|];
        try discriminate; now injection E as <-.
Qed.

Lemma no_empty_text_witness :
  let text := lit "$a$ and $b" in
  (In (SpanText (lit " and $b")) (segment text) \/
   In (ItemText (lit " and $b"))
      (parseItems sample_latexToMathML sample_mathmlToOmml text)) /\
  lit " and $b" <> [].
Proof.
  intros text.
  assert (H : In (SpanText (lit " and $b")) (segment text) \/
              In (ItemText (lit " and $b"))
                 (parseItems sample_latexToMathML sample_mathmlToOmml text))
    by (left; vm_compute; right; left; reflexivity).
  split; [exact H|].
  exact (no_empty_text sample_latexToMathML sample_mathmlToOmml text _ H).
Defined.

(** ** The segmentation leaves no formula behind *)

Lemma formula_at_extend : forall i s u,
    formula_at i s <> None -> formula_at i (s ++ u) <> None.
Proof.
  intros i s u H. apply formula_at_Some. unfold formula_at in H.
  destruct (re_block s) as [n|] eqn:B.
  - left. apply re_block_iff in B. destruct B as (body & rest & Hne & Hb & -> & ->).
    exists (length body + 4). apply re_block_iff. exists body, (rest ++ u).
    repeat split; auto. now rewrite <- !app_assoc.
  - destruct (re_inline s) as [n|] eqn:I; [|now elim H].
    right. apply re_inline_iff in I. destruct I as (body & rest & Hne & Hb & -> & ->).
    exists (length body + 2). apply re_inline_iff. exists body, (rest ++ u).
    repeat split; auto. now rewrite <- !app_assoc.
Qed.

Lemma search_index : forall s i m, search s i = Some m -> i <= index m.
Proof.
  intros s i m H. apply search_spec in H. destruct H as (j & -> & _). lia.
Qed.

(** A match found in a prefix is found, or preceded, in the whole. *)
Lemma search_app : forall a u i m,
    search a i = Some m ->
    exists m', search (a ++ u) i = Some m' /\ index m' <= index m.
Proof.
  induction a as [|c a IH]; intros u i m H; [discriminate|].
  rewrite search_cons in H. change ((c :: a) ++ u) with (c :: a ++ u).
  destruct (formula_at i (c :: a)) as [m1|] eqn:F.
  - injection H as <-.
    assert (N : formula_at i ((c :: a) ++ u) <> None)
      by (apply formula_at_extend; congruence).
    change ((c :: a) ++ u) with (c :: a ++ u) in N.
    destruct (formula_at i (c :: a ++ u)) as [m2|] eqn:F2; [|now elim N].
    exists m2. split; [now rewrite search_cons, F2|].
    apply formula_at_spec in F. apply formula_at_spec in F2. lia.
  - destruct (formula_at i (c :: a ++ u)) as [m2|] eqn:F2.
    + exists m2. split; [now rewrite search_cons, F2|].
      apply formula_at_spec in F2. apply search_index in H. lia.
    + destruct (IH u (S i) m H) as (m' & E & L).
      exists m'. split; [now rewrite search_cons, F2|exact L].
Qed.

Lemma no_match_before : forall s i m,
    search s i = Some m -> scan Idle (firstn (index m - i) s) <> Found.
Proof.
  intros s i m H. apply (search_scan _ i).
  destruct (search (firstn (index m - i) s) i) as [m1|] eqn:E; [|reflexivity].
  exfalso.
  destruct (search_app _ (skipn (index m - i) s) _ _ E) as (m2 & E2 & L).
  rewrite firstn_skipn, H in E2. injection E2 as <-.
  apply search_spec in E. destruct E as (j & Hj & Hp & Hl & _).
  rewrite length_firstn in Hl. lia.
Qed.

Lemma ExecLoop_text_pieces : forall text k ms,
    ExecLoop text k ms ->
    forall v, In (SpanText v) (pieces_with text_span formula_span text ms k) ->
              matches v = [].
Proof.
  intros text k ms H. induction H as [k E|k m ms E _ IH]; intros v Hv.
  - cbn [pieces_with] in Hv. unfold text_span, slice_from in Hv.
    destruct (truthy (skipn k text)) eqn:T; [|contradiction].
    destruct Hv as [Hv|[]]. injection Hv as <-.
    unfold exec in E. destruct (length text <? k)%nat eqn:L.
    + apply Nat.ltb_lt in L. rewrite skipn_all2 in T by lia. discriminate.
    + apply matches_nil_iff. now apply (search_scan _ k).
  - cbn [pieces_with] in Hv. apply in_app_or in Hv. destruct Hv as [Hv|Hv].
    + unfold text_span in Hv.
      destruct (truthy (slice text k (index m))); [|contradiction].
      destruct Hv as [Hv|[]]. injection Hv as <-.
      unfold exec in E. destruct (length text <? k)%nat; [discriminate|].
      apply matches_nil_iff. unfold slice. now apply no_match_before.
    + apply in_app_or in Hv. destruct Hv as [[Hv|[]]|Hv]; [discriminate|].
      now apply IH.
Qed.

(** The segmentation is complete: a text span holds no formula, so that
    segmenting it again gives it back as it is. *)
Theorem text_span_stable :
  forall text v : str,
    In (SpanText v) (segment text) -> segment v = [SpanText v].
Proof.
  intros text v H.
  pose proof (span_source_nonempty text _ H) as N. simpl in N.
  rewrite segment_pieces in H.
  apply (ExecLoop_text_pieces _ _ _ (matches_loop text)) in H.
  rewrite segment_pieces, H. cbn [pieces_with]. unfold text_span, slice_from.
  cbn [skipn]. now destruct v.
Qed.

Lemma text_span_stable_witness :
  let text := lit "$$a$$ and $b$" in
  In (SpanText (lit " and ")) (segment text) /\
  segment (lit " and ") = [SpanText (lit " and ")].
Proof.
  intros text.
  assert (H : In (SpanText (lit " and ")) (segment text))
    by (vm_compute; right; left; reflexivity).
  split; [exact H|]. exact (text_span_stable text (lit " and ") H).
Defined.

(** ** [handleCopy] when no formula converts *)

Lemma pieces_with_ext : forall (A : Type) (onText : str -> list A)
                               (f g : RegExpExecArray -> list A) input ms k,
    (forall m, In m ms -> f m = g m) ->
    pieces_with onText f input ms k = pieces_with onText g input ms k.
Proof.
  intros A onText f g input ms. induction ms as [|m ms IH]; intros k H; [reflexivity|].
  cbn [pieces_with]. rewrite (H m) by now left.
  rewrite IH; [reflexivity|]. intros m' Hm. apply H. now right.
Qed.

(** When the converter throws on every formula of the input, the text put
    on the clipboard by [handleCopy] is the input itself. *)
Theorem handleCopy_all_failing :
  forall (latexToMathML : str -> bool -> option str) (input : str),
    (forall m, In m (matches input) ->
               latexToMathML (latex_of m) (isBlock_of m) = None) ->
    handleCopy latexToMathML input = input.
Proof.
  intros l2m input H. rewrite handleCopy_pieces.
  rewrite (pieces_with_ext _ _ _ m0).
  - apply cover_matches.
  - intros m Hm. unfold copy_match. now rewrite H.
Qed.

Lemma handleCopy_all_failing_witness :
  let input := lit "cost: $5 and $\badmacro$ here" in
  (forall m, In m (matches input) ->
             failing_latexToMathML (latex_of m) (isBlock_of m) = None) /\
  handleCopy failing_latexToMathML input = input.
Proof.
  intros input.
  assert (H : forall m, In m (matches input) ->
                        failing_latexToMathML (latex_of m) (isBlock_of m) = None)
    by (intros m _; reflexivity).
  split; [exact H|]. exact (handleCopy_all_failing failing_latexToMathML input H).
Defined.

(** ** The paragraph builder, step by step *)

Lemma flush_paragraphs : forall al a,
    paragraphs (flushParagraph al a)
    = paragraphs a
        ++ match currentParagraphItems a with
           | [] => []
           | _ :: _ => [mkParagraph (map run_of_item (currentParagraphItems a)) al]
           end.
Proof.
  intros al a. unfold flushParagraph.
  destruct (currentParagraphItems a) as [|x l]; [now rewrite app_nil_r|reflexivity].
Qed.

Lemma add_parts_cons : forall i part rest a,
    add_parts i (part :: rest) a
    = add_parts (S i) rest
        (let a1 := if (0 <? i)%nat then flushParagraph LEFT a else a in
         if truthy (cleanText part) then push_text (cleanText part) a1 else a1).
Proof. reflexivity. Qed.

(** Whatever is kept by closing the open paragraph and by adding a piece of
    text to it is kept by a whole text item. *)
Lemma add_parts_invariant : forall I : Assembly -> Prop,
    (forall a, I a -> I (flushParagraph LEFT a)) ->
    (forall a t, truthy t = true -> I a -> I (push_text t a)) ->
    forall parts i a, I a -> I (add_parts i parts a).
Proof.
  intros I Hf Hp parts. induction parts as [|part rest IH]; intros i a Ha; [exact Ha|].
  rewrite add_parts_cons. apply IH. cbv zeta.
  assert (H1 : I (if (0 <? i)%nat then flushParagraph LEFT a else a))
    by (destruct (0 <? i)%nat; auto).
  destruct (truthy (cleanText part)) eqn:T; auto.
Qed.

Lemma assemble_invariant : forall I : Assembly -> Prop,
    (forall a, I a -> I (flushParagraph LEFT a)) ->
    (forall a t, truthy t = true -> I a -> I (push_text t a)) ->
    (forall a omml b, I a -> I (assemble_step a (ItemMath omml b))) ->
    forall items a, I a -> I (fold_left assemble_step items a).
Proof.
  intros I Hf Hp Hm items. induction items as [|it items IH]; intros a Ha; [exact Ha|].
  cbn [fold_left]. apply IH. destruct it as [v|omml b]; [|now apply Hm].
  cbn [assemble_step]. now apply (add_parts_invariant I).
Qed.

(** ** The runs, in document order *)

Lemma add_parts_pending : forall parts i a,
    pending_runs (add_parts i parts a)
    = pending_runs a ++ map mkTextRun (filter truthy (map cleanText parts)).
Proof.
  induction parts as [|part rest IH]; intros i a.
  - simpl. now rewrite app_nil_r.
  - rewrite add_parts_cons, IH. cbv zeta.
    set (a1 := if (0 <? i)%nat then flushParagraph LEFT a else a).
    assert (E1 : pending_runs a1 = pending_runs a).
    { unfold a1. destruct (0 <? i)%nat; [apply pending_flush|reflexivity]. }
    cbn [map filter]. destruct (truthy (cleanText part)).
    + unfold pending_runs, push_text in *. cbn [paragraphs currentParagraphItems].
      rewrite map_app, app_assoc, E1. cbn [map run_of_item].
      now rewrite <- !app_assoc.
    + now rewrite E1.
Qed.

Lemma fold_pending : forall items a,
    pending_runs (fold_left assemble_step items a)
    = pending_runs a ++ expected_runs items (placeholderIndex a).
Proof.
  induction items as [|it items IH]; intros a.
  - simpl. now rewrite app_nil_r.
  - cbn [fold_left]. rewrite IH. destruct it as [v|omml [|]]; cbn [assemble_step expected_runs].
    + rewrite add_parts_pending.
      destruct (add_parts_placeholders (split re_blank_lines v) 0 a) as [_ ->].
      unfold text_runs. now rewrite <- app_assoc.
    + destruct (flushParagraph_placeholders LEFT a) as (_ & E2 & E3).
      rewrite <- (pending_flush LEFT a).
      unfold pending_runs. cbn [paragraphs currentParagraphItems placeholderIndex].
      rewrite E2, E3, runs_of_snoc. cbn [children map].
      rewrite !app_nil_r, <- app_assoc. reflexivity.
    + unfold pending_runs. cbn [paragraphs currentParagraphItems placeholderIndex].
      rewrite map_app, <- !app_assoc. reflexivity.
Qed.

Lemma assemble_expected_runs : forall items,
    runs_of (paragraphs (assemble items)) = expected_runs items 0.
Proof. intros items. now rewrite assemble_runs, fold_pending. Qed.

(** The runs of the paragraph tree are, in the order of the content items,
    the non-empty pieces of each text item (split at blank lines, each line
    feed turned into a space) and one placeholder run for each math item,
    numbered from 0: nothing is reordered, nothing else is dropped. *)
Theorem runs_in_document_order :
  forall (latexToMathML : str -> bool -> option str)
         (mathmlToOmml : str -> option str) (input : str),
    runs_of (paragraphs (docxAssembly latexToMathML mathmlToOmml input))
    = expected_runs (docxItems latexToMathML mathmlToOmml input) 0.
Proof. intros l2m m2o input. apply assemble_expected_runs. Qed.

(** ** The placeholder map *)

Lemma combine_snoc : forall (A B : Type) (l1 : list A) (l2 : list B) x y,
    length l1 = length l2 ->
    combine (l1 ++ [x]) (l2 ++ [y]) = combine l1 l2 ++ [(x, y)].
Proof.
  intros A B l1. induction l1 as [|a l1 IH]; intros [|b l2] x y H;
    try discriminate; [reflexivity|].
  simpl. f_equal. apply IH. now injection H.
Qed.

Lemma map_fst_combine : forall (A B : Type) (l1 : list A) (l2 : list B),
    length l1 = length l2 -> map fst (combine l1 l2) = l1.
Proof.
  intros A B l1. induction l1 as [|a l1 IH]; intros [|b l2] H;
    try discriminate; [reflexivity|].
  simpl. f_equal. apply IH. now injection H.
Qed.

Lemma fragments_app : forall l1 l2, fragments (l1 ++ l2) = fragments l1 ++ fragments l2.
Proof.
  induction l1 as [|[v|o b] l1 IH]; intros l2; simpl; now rewrite ?IH.
Qed.

Lemma placeholders_step : forall a it fs,
    mathPlaceholders a = combine (map placeholder_of (seq 0 (length fs))) fs ->
    placeholderIndex a = length fs ->
    mathPlaceholders (assemble_step a it)
    = combine (map placeholder_of (seq 0 (length (fs ++ fragments [it]))))
              (fs ++ fragments [it]) /\
    placeholderIndex (assemble_step a it) = length (fs ++ fragments [it]).
Proof.
  intros a it fs Hm Hi.
  assert (F : forall m omml,
             m = combine (map placeholder_of (seq 0 (length fs))) fs ->
             map_set (placeholder_of (length fs)) omml m
             = combine (map placeholder_of (seq 0 (length (fs ++ [omml]))))
                       (fs ++ [omml])).
  { intros m omml ->. rewrite map_set_fresh.
    - rewrite length_app, Nat.add_1_r, seq_S, map_app. cbn [map plus].
      rewrite combine_snoc; [reflexivity|]. now rewrite length_map, length_seq.
    - rewrite map_fst_combine by now rewrite length_map, length_seq.
      intros Hin. apply in_map_iff in Hin. destruct Hin as (j & Hj & Hin).
      apply placeholder_of_inj in Hj. subst j. apply in_seq in Hin. lia. }
  destruct it as [v|omml [|]]; cbn [fragments assemble_step].
  - rewrite app_nil_r.
    destruct (add_parts_placeholders (split re_blank_lines v) 0 a) as [-> ->].
    now split.
  - destruct (flushParagraph_placeholders LEFT a) as (-> & -> & _).
    cbn [mathPlaceholders placeholderIndex]. rewrite Hi.
    split; [now apply F|]. rewrite length_app. simpl. lia.
  - cbn [mathPlaceholders placeholderIndex]. rewrite Hi.
    split; [now apply F|]. rewrite length_app. simpl. lia.
Qed.

Lemma placeholders_fold : forall items a fs,
    mathPlaceholders a = combine (map placeholder_of (seq 0 (length fs))) fs ->
    placeholderIndex a = length fs ->
    mathPlaceholders (fold_left assemble_step items a)
    = combine (map placeholder_of (seq 0 (length (fs ++ fragments items))))
              (fs ++ fragments items).
Proof.
  induction items as [|it items IH]; intros a fs Hm Hi.
  - simpl. now rewrite app_nil_r.
  - cbn [fold_left]. destruct (placeholders_step a it fs Hm Hi) as [Hm' Hi'].
    rewrite (IH _ _ Hm' Hi'). rewrite <- app_assoc, <- fragments_app. reflexivity.
Qed.

(** The placeholder map associates, in order, the token of ordinal [k] with
    the fragment of the math item number [k]. *)
Theorem placeholder_map_contents :
  forall (latexToMathML : str -> bool -> option str)
         (mathmlToOmml : str -> option str) (input : str),
    let fs := fragments (docxItems latexToMathML mathmlToOmml input) in
    mathPlaceholders (docxAssembly latexToMathML mathmlToOmml input)
    = combine (map placeholder_of (seq 0 (length fs))) fs.
Proof.
  intros l2m m2o input fs. unfold docxAssembly, assemble.
  destruct (flushParagraph_placeholders LEFT
              (fold_left assemble_step (docxItems l2m m2o input) emptyAssembly))
    as (-> & _ & _).
  exact (placeholders_fold (docxItems l2m m2o input) emptyAssembly [] eq_refl eq_refl).
Qed.

(** ** What the paragraph tree is made of *)

Lemma paragraphs_nonempty : forall items,
    Forall (fun p => children p <> []) (paragraphs (assemble items)).
Proof.
  intros items. unfold assemble.
  assert (Hf : forall a, Forall (fun p => children p <> []) (paragraphs a) ->
                         Forall (fun p => children p <> [])
                                (paragraphs (flushParagraph LEFT a))).
  { intros a H. rewrite flush_paragraphs. apply Forall_app. split; [exact H|].
    destruct (currentParagraphItems a); constructor; [discriminate|constructor]. }
  apply Hf.
  apply (assemble_invariant
           (fun a => Forall (fun p => children p <> []) (paragraphs a))).
  - exact Hf.
  - intros a t _ H. exact H.
  - intros a omml [|] H; cbn [assemble_step paragraphs]; [|exact H].
    apply Forall_app. split; [now apply Hf|].
    constructor; [discriminate|constructor].
  - constructor.
Qed.

Lemma expected_runs_In : forall items k r,
    In r (expected_runs items k) ->
    (exists v part, In (ItemText v) items /\ In part (split re_blank_lines v) /\
                    r = mkTextRun (cleanText part) /\ truthy (cleanText part) = true)
    \/ (exists j, r = placeholder_run j).
Proof.
  induction items as [|[v|omml b] items IH]; intros k r H; [contradiction| |].
  - cbn [expected_runs] in H. apply in_app_or in H. destruct H as [H|H].
    + left. unfold text_runs in H. apply in_map_iff in H.
      destruct H as (t & <- & H). apply filter_In in H. destruct H as [H T].
      apply in_map_iff in H. destruct H as (part & <- & H).
      exists v, part. repeat split; auto. now left.
    + apply IH in H. destruct H as [(v' & part & H1 & H2)|H]; [|now right].
      left. exists v', part. split; [now right|exact H2].
  - cbn [expected_runs] in H. destruct H as [<-|H]; [right; now eexists|].
    apply IH in H. destruct H as [(v' & part & H1 & H2)|H]; [|now right].
    left. exists v', part. split; [now right|exact H2].
Qed.

Lemma cleanText_chars : forall part, cleanText part = flat_map (ent LF (lit " ")) part.
Proof.
  intros part. unfold cleanText. rewrite replace_g_plain by reflexivity.
  apply replace_char.
Qed.

Lemma cleanText_no_break : forall part,
    ~ In CR part -> existsb is_line_break (cleanText part) = false.
Proof.
  intros part. rewrite cleanText_chars. induction part as [|c part IH]; intros H;
    [reflexivity|].
  cbn [flat_map]. rewrite existsb_app, IH by (intros K; apply H; now right).
  rewrite orb_false_r. unfold ent. destruct (Ascii.eqb LF c) eqn:E; [reflexivity|].
  cbn [existsb]. unfold is_line_break. rewrite (Ascii.eqb_sym c LF), E.
  destruct (Ascii.eqb c CR) eqn:K; [|reflexivity].
  apply Ascii.eqb_eq in K. subst c. exfalso. apply H. now left.
Qed.

Lemma existsb_none : forall (f : ascii -> bool) (l : str),
    (forall c, In c l -> f c = false) -> existsb f l = false.
Proof.
  intros f l H. induction l as [|c l IH]; [reflexivity|].
  cbn [existsb]. rewrite (H c) by now left. apply IH. intros d Hd. apply H. now right.
Qed.

Lemma placeholder_no_break : forall k, existsb is_line_break (placeholder_of k) = false.
Proof.
  intros k. unfold placeholder_of. rewrite !existsb_app.
  replace (existsb is_line_break (string_of_nat k)) with false; [reflexivity|].
  symmetry. apply existsb_none. intros c H. apply string_of_nat_digits in H.
  simpl in H. intuition (subst; reflexivity).
Qed.

Lemma text_item_no_CR : forall l2m m2o input v,
    In (ItemText v) (docxItems l2m m2o input) -> ~ In CR v.
Proof.
  intros l2m m2o input v H K. apply (normalize_no_CR input).
  apply (occurs_In v); [exact K|]. now apply (item_text_in_text l2m m2o).
Qed.

(** Every paragraph handed to the document builder has at least one run, and
    no run is empty or holds a carriage return or a line feed. *)
Theorem paragraph_tree_clean :
  forall (latexToMathML : str -> bool -> option str)
         (mathmlToOmml : str -> option str) (input : str),
    let ps := paragraphs (docxAssembly latexToMathML mathmlToOmml input) in
    Forall (fun p => children p <> []) ps /\
    Forall (fun r => run_text r <> [] /\
                     existsb is_line_break (run_text r) = false) (runs_of ps).
Proof.
  intros l2m m2o input ps. split; [apply paragraphs_nonempty|].
  unfold ps, docxAssembly. rewrite assemble_expected_runs.
  apply Forall_forall. intros r H. apply expected_runs_In in H.
  destruct H as [(v & part & Hv & Hp & -> & T)|[j ->]]; cbn [run_text placeholder_run].
  - split; [intros E; now rewrite E in T|].
    apply cleanText_no_break. intros K.
    apply (text_item_no_CR l2m m2o input v Hv).
    apply (occurs_In part); [exact K|]. now apply (split_parts re_blank_lines).
  - split; [discriminate|apply placeholder_no_break].
Qed.

(** ** Centred paragraphs *)

Lemma filter_center_text : forall parts i a,
    filter is_center (paragraphs (add_parts i parts a))
    = filter is_center (paragraphs a).
Proof.
  intros parts i a.
  apply (add_parts_invariant
           (fun a' => filter is_center (paragraphs a')
                      = filter is_center (paragraphs a))); [| |reflexivity].
  - intros a' H. rewrite flush_paragraphs, filter_app, H.
    destruct (currentParagraphItems a'); simpl; apply app_nil_r.
  - intros a' t _ H. exact H.
Qed.

Lemma center_count_fold : forall items a,
    length (filter is_center (paragraphs (fold_left assemble_step items a)))
    = length (filter is_center (paragraphs a))
      + length (filter is_block_math items).
Proof.
  induction items as [|it items IH]; intros a; [simpl; lia|].
  cbn [fold_left]. rewrite IH. destruct it as [v|omml [|]]; cbn [assemble_step].
  - rewrite filter_center_text. simpl. lia.
  - cbn [paragraphs]. rewrite filter_app, flush_paragraphs, filter_app.
    rewrite !length_app.
    destruct (currentParagraphItems a); simpl; lia.
  - simpl. lia.
Qed.

Lemma center_shape : forall items,
    Forall (fun p => is_center p = true ->
                     exists k, k < placeholderIndex (assemble items) /\
                               children p = [placeholder_run k])
           (paragraphs (assemble items)).
Proof.
  intros items.
  set (I := fun a => Forall (fun p => is_center p = true ->
                                      exists k, k < placeholderIndex a /\
                                                children p = [placeholder_run k])
                            (paragraphs a)).
  assert (Hf : forall a, I a -> I (flushParagraph LEFT a)).
  { intros a H. unfold I in *. rewrite flush_paragraphs.
    destruct (flushParagraph_placeholders LEFT a) as (_ & -> & _).
    apply Forall_app. split; [exact H|].
    destruct (currentParagraphItems a); constructor; [discriminate|constructor]. }
  unfold assemble. apply Hf. apply (assemble_invariant I).
  - exact Hf.
  - intros a t _ H. exact H.
  - intros a omml b H. apply Hf in H. unfold I in *.
    destruct b; cbn [assemble_step paragraphs placeholderIndex].
    + apply Forall_app. split.
      * eapply Forall_impl; [|exact H]. intros p Hp C.
        destruct (Hp C) as (k & Hk & E). exists k. split; [lia|exact E].
      * constructor; [|constructor]. intros _.
        exists (placeholderIndex (flushParagraph LEFT a)). split; [lia|reflexivity].
    + destruct (flushParagraph_placeholders LEFT a) as (_ & E2 & _).
      rewrite flush_paragraphs in H. apply Forall_app in H. destruct H as [H _].
      eapply Forall_impl; [|exact H]. intros p Hp C.
      destruct (Hp C) as (k & Hk & E). exists k. split; [lia|exact E].
  - constructor.
Qed.

(** The centred paragraphs are those of the block formulas: there are as
    many as block math items, and each holds exactly one run, whose text is
    a registered token. *)
Theorem centred_paragraphs :
  forall (latexToMathML : str -> bool -> option str)
         (mathmlToOmml : str -> option str) (input : str),
    let a := docxAssembly latexToMathML mathmlToOmml input in
    length (filter is_center (paragraphs a))
    = length (filter is_block_math (docxItems latexToMathML mathmlToOmml input)) /\
    Forall (fun p => is_center p = true ->
                     exists tok, In tok (tokens a) /\ children p = [mkTextRun tok])
           (paragraphs a).
Proof.
  intros l2m m2o input a. split.
  - unfold a, docxAssembly, assemble.
    rewrite flush_paragraphs, filter_app, length_app, center_count_fold.
    destruct (currentParagraphItems _); simpl; lia.
  - unfold a, docxAssembly.
    destruct (assemble_tokens (docxItems l2m m2o input)) as [T P].
    eapply Forall_impl; [|apply center_shape]. intros p Hp C.
    destruct (Hp C) as (k & Hk & E). exists (placeholder_of k).
    split; [|exact E]. rewrite T. apply in_map. apply in_seq. lia.
Qed.

(** ** Text without formula *)

Lemma flush_twice : forall al a,
    flushParagraph al (flushParagraph al a) = flushParagraph al a.
Proof.
  intros al a. unfold flushParagraph at 1.
  now destruct (flushParagraph_placeholders al a) as (_ & _ & ->).
Qed.

Lemma add_parts_later : forall parts i a,
    paragraphs (flushParagraph LEFT (add_parts (S i) parts a))
    = paragraphs (flushParagraph LEFT a)
        ++ map single_paragraph (filter truthy (map cleanText parts)).
Proof.
  induction parts as [|part rest IH]; intros i a.
  - simpl. now rewrite app_nil_r.
  - rewrite add_parts_cons, IH. cbv zeta. cbn [Nat.ltb Nat.leb map filter].
    destruct (flushParagraph_placeholders LEFT a) as (_ & _ & E3).
    destruct (truthy (cleanText part)).
    + rewrite flush_paragraphs. unfold push_text.
      cbn [paragraphs currentParagraphItems]. rewrite E3. cbn [app map run_of_item].
      now rewrite <- app_assoc.
    + now rewrite flush_twice.
Qed.

Lemma add_parts_first : forall parts a,
    currentParagraphItems a = [] ->
    paragraphs (flushParagraph LEFT (add_parts 0 parts a))
    = paragraphs a ++ map single_paragraph (filter truthy (map cleanText parts)).
Proof.
  intros [|part rest] a H.
  - simpl. rewrite flush_paragraphs, H. reflexivity.
  - rewrite add_parts_cons, add_parts_later. cbv zeta. cbn [Nat.ltb Nat.leb map filter].
    destruct (truthy (cleanText part)).
    + rewrite flush_paragraphs. unfold push_text.
      cbn [paragraphs currentParagraphItems]. rewrite H. cbn [app map run_of_item].
      now rewrite <- app_assoc.
    + rewrite flush_paragraphs, H. now rewrite app_nil_r.
Qed.

(** For an input without formula, the paragraphs are the blocks of the text
    separated by blank lines, empty blocks left out: each block is one
    left-aligned paragraph of one run, its line feeds turned into spaces. *)
Theorem plain_text_paragraphs :
  forall (latexToMathML : str -> bool -> option str)
         (mathmlToOmml : str -> option str) (input : str),
    existsb is_formula (segment input) = false ->
    paragraphs (docxAssembly latexToMathML mathmlToOmml input)
    = map single_paragraph
          (filter truthy (map cleanText (split re_blank_lines (normalize input)))).
Proof.
  intros l2m m2o input H.
  apply segment_no_formula, matches_normalize in H.
  unfold docxAssembly, docxItems. rewrite parseItems_segment, segment_pieces, H.
  cbn [pieces_with]. unfold text_span, slice_from. cbn [skipn].
  destruct (normalize input) as [|c t] eqn:E; cbn [truthy map convert_span].
  - reflexivity.
  - unfold assemble. cbn [fold_left assemble_step].
    now rewrite add_parts_first.
Qed.

Lemma plain_text_paragraphs_witness :
  let input := lit "line1" ++ [CR; LF; CR; LF] ++ lit "line2" ++ [LF] ++ lit "more" in
  existsb is_formula (segment input) = false /\
  paragraphs (docxAssembly sample_latexToMathML sample_mathmlToOmml input)
  = [single_paragraph (lit "line1"); single_paragraph (lit "line2 more")].
Proof.
  intros input.
  assert (H : existsb is_formula (segment input) = false) by reflexivity.
  split; [exact H|].
  rewrite (plain_text_paragraphs sample_latexToMathML sample_mathmlToOmml input H).
  reflexivity.
Defined.

(** ** Inline formulas and single line feeds do not break a paragraph *)

Lemma split_go_never : forall re s cur,
    (forall j, re (skipn j s) = None) -> split_go re cur 0 s = [cur ++ s].
Proof.
  intros re s. induction s as [|c s IH]; intros cur H.
  - simpl. now rewrite app_nil_r.
  - cbn [split_go]. rewrite (H 0 : re (c :: s) = None).
    rewrite IH by (intros j; exact (H (S j))). now rewrite <- app_assoc.
Qed.

Lemma re_blank_lines_starts : forall t n,
    re_blank_lines t = Some n -> starts [LF; LF] t.
Proof.
  intros t n. unfold re_blank_lines, re_seq, re_lit, re_plus.
  destruct (prefixb [LF] t) eqn:P; [|discriminate].
  apply prefixb_starts in P. destruct P as [t' ->].
  change (skipn (length [LF]) ([LF] ++ t')) with t'.
  destruct t' as [|c t']; [discriminate|]. cbn [run].
  destruct (is_LF c) eqn:C; [|discriminate]. intros _.
  unfold is_LF in C. apply Ascii.eqb_eq in C. subst c. now exists t'.
Qed.

Lemma split_no_blank_line : forall v,
    ~ occurs [LF; LF] v -> split re_blank_lines v = [v].
Proof.
  intros v H. unfold split. rewrite split_go_never; [reflexivity|].
  intros j. destruct (re_blank_lines (skipn j v)) as [n|] eqn:E; [|reflexivity].
  exfalso. apply H. apply (occurs_skipn _ j), starts_occurs.
  now apply (re_blank_lines_starts _ n).
Qed.

Lemma fold_no_break : forall items a,
    (forall v, In (ItemText v) items -> ~ occurs [LF; LF] v) ->
    forallb (fun it => negb (is_block_math it)) items = true ->
    paragraphs (fold_left assemble_step items a) = paragraphs a.
Proof.
  induction items as [|it items IH]; intros a Hv Hb; [reflexivity|].
  cbn [fold_left]. cbn [forallb] in Hb. apply andb_true_iff in Hb. destruct Hb as [B Hb].
  rewrite IH; [|intros v K; apply Hv; now right|exact Hb].
  destruct it as [v|omml [|]]; [|discriminate|reflexivity].
  cbn [assemble_step]. rewrite split_no_blank_line by (apply Hv; now left).
  rewrite add_parts_cons. cbv zeta. cbn [Nat.ltb Nat.leb add_parts].
  now destruct (truthy (cleanText v)).
Qed.

(** An input without blank line and without block formula gives at most one
    paragraph: inline formulas and single line feeds never start a new one. *)
Theorem single_paragraph_input :
  forall (latexToMathML : str -> bool -> option str)
         (mathmlToOmml : str -> option str) (input : str),
    occursb [LF; LF] (normalize input) = false ->
    forallb (fun it => negb (is_block_math it))
            (docxItems latexToMathML mathmlToOmml input) = true ->
    length (paragraphs (docxAssembly latexToMathML mathmlToOmml input)) <= 1.
Proof.
  intros l2m m2o input H B. apply occursb_false in H.
  unfold docxAssembly, assemble. rewrite flush_paragraphs, fold_no_break.
  - cbn [paragraphs emptyAssembly app]. destruct (currentParagraphItems _); simpl; lia.
  - intros v Hv K. apply H. apply (occurs_trans _ v); [exact K|].
    now apply (item_text_in_text l2m m2o).
  - exact B.
Qed.

Lemma single_paragraph_input_witness :
  let input := lit "entropy $S$ relates" ++ [CR; LF] ++ lit "to $k$" in
  occursb [LF; LF] (normalize input) = false /\
  forallb (fun it => negb (is_block_math it))
          (docxItems sample_latexToMathML sample_mathmlToOmml input) = true /\
  length (paragraphs (docxAssembly sample_latexToMathML sample_mathmlToOmml input)) <= 1.
Proof.
  intros input.
  assert (H1 : occursb [LF; LF] (normalize input) = false) by reflexivity.
  assert (H2 : forallb (fun it => negb (is_block_math it))
                       (docxItems sample_latexToMathML sample_mathmlToOmml input) = true)
    by reflexivity.
  split; [exact H1|]. split; [exact H2|].
  exact (single_paragraph_input sample_latexToMathML sample_mathmlToOmml input H1 H2).
Defined.

(** ** An export in which every formula degrades *)

Lemma convert_all_failing : forall l2m m2o spans,
    (forall src latex b, In (SpanFormula src latex b) spans ->
                         conversion_fails l2m m2o latex b) ->
    forallb (fun it => negb (is_math it)) (map (convert_span l2m m2o) spans) = true.
Proof.
  intros l2m m2o spans H. induction spans as [|sp spans IH]; [reflexivity|].
  cbn [map forallb]. rewrite IH, andb_true_r.
  - destruct sp as [v|src latex b]; [reflexivity|].
    rewrite convert_failure; [reflexivity|]. apply (H src). now left.
  - intros src latex b Hin. apply (H src). now right.
Qed.

(** The formula spans of a text are those of its matches. *)
Lemma segment_formula_match : forall text src latex b,
    In (SpanFormula src latex b) (segment text) ->
    exists m, In m (matches text) /\ latex = latex_of m /\ b = isBlock_of m.
Proof.
  intros text src latex b H. rewrite segment_pieces in H.
  apply pieces_In in H. destruct H as [[t H]|[m [Hm H]]].
  - unfold text_span in H. destruct (truthy t); [|now elim H].
    destruct H as [H|[]]. discriminate.
  - exists m. split; [exact Hm|]. destruct H as [H|[]].
    unfold formula_span in H. injection H as _ <- <-. now split.
Qed.

(** When the conversion of every formula of the input fails, at either
    step, the export is that of a plain text: the placeholder map is empty
    and the container of the document builder is returned without the
    archive being opened.  The converters may well succeed on formulas that
    the input does not hold. *)
Theorem failed_conversions_fast_path :
  forall (latexToMathML : str -> bool -> option str)
         (mathmlToOmml : str -> option str)
         (Blob Zip : Type)
         (Packer_toBlob : list Paragraph -> Blob)
         (JSZip_loadAsync : Blob -> option Zip)
         (zip_read : Zip -> option str)
         (zip_write : Zip -> str -> Zip)
         (zip_generateAsync : Zip -> Blob)
         (input : str),
    (forall m, In m (matches (normalize input)) ->
               conversion_fails latexToMathML mathmlToOmml
                 (latex_of m) (isBlock_of m)) ->
    mathPlaceholders (docxAssembly latexToMathML mathmlToOmml input) = [] /\
    generateDocx latexToMathML mathmlToOmml Blob Zip Packer_toBlob
      JSZip_loadAsync zip_read zip_write zip_generateAsync input
    = (Resolved (Packer_toBlob
                   (paragraphs (docxAssembly latexToMathML mathmlToOmml input))),
       [CallPackerToBlob]).
Proof.
  intros l2m m2o Blob Zip toBlob load read write gen input H.
  assert (E : mathPlaceholders (docxAssembly l2m m2o input) = []).
  { unfold docxAssembly, assemble, docxItems.
    destruct (flushParagraph_placeholders LEFT
      (fold_left assemble_step
         (parseItems l2m m2o (normalize input)) emptyAssembly)) as [-> _].
    rewrite assemble_text_placeholders; [reflexivity|].
    rewrite parseItems_segment. apply convert_all_failing.
    intros src latex b Hin. apply segment_formula_match in Hin.
    destruct Hin as (m & Hm & -> & ->). now apply H. }
  split; [exact E|]. unfold generateDocx. now rewrite E.
Qed.

Lemma failed_conversions_fast_path_witness :
  let input := lit "see $\badmacro{x}$ and $$1+\badmacro$$" in
  strict_latexToMathML (lit "x^2") false = Some (lit "<math>x^2</math>") /\
  (forall m, In m (matches (normalize input)) ->
             conversion_fails strict_latexToMathML sample_mathmlToOmml
               (latex_of m) (isBlock_of m)) /\
  mathPlaceholders (docxAssembly strict_latexToMathML sample_mathmlToOmml input) = [] /\
  generateDocx strict_latexToMathML sample_mathmlToOmml _ _ sample_toBlob
    sample_loadAsync sample_read sample_write sample_generateAsync input
  = (Resolved (sample_toBlob
                 (paragraphs (docxAssembly strict_latexToMathML sample_mathmlToOmml
                                input))),
     [CallPackerToBlob]).
Proof.
  intros input.
  assert (H : forall m, In m (matches (normalize input)) ->
                        conversion_fails strict_latexToMathML sample_mathmlToOmml
                          (latex_of m) (isBlock_of m)).
  { intros m Hm. vm_compute in Hm.
    destruct Hm as [<-|[<-|[]]]; exact I. }
  split; [reflexivity|]. split; [exact H|].
  exact (failed_conversions_fast_path strict_latexToMathML sample_mathmlToOmml _ _
           sample_toBlob sample_loadAsync sample_read sample_write
           sample_generateAsync input H).
Defined.

(** ** The text of a token *)

Lemma forallb_all : forall (f : ascii -> bool) (l : str),
    (forall c, In c l -> f c = true) -> forallb f l = true.
Proof. intros f l H. apply forallb_forall. exact H. Qed.

(** A token is made of capital letters, digits and underscores only: spliced
    in the text of a pattern it stands for itself, and it holds no character
    that the document builder would have to escape. *)
Theorem placeholder_word_characters :
  forall k : nat, forallb is_word_char (placeholder_of k) = true.
Proof.
  intros k. unfold placeholder_of. rewrite !forallb_app.
  replace (forallb is_word_char (string_of_nat k)) with true; [reflexivity|].
  symmetry. apply forallb_all. intros c H. apply string_of_nat_digits in H.
  simpl in H. intuition (subst; reflexivity).
Qed.

(** ** The substitution of the placeholders *)

Lemma re_lit_occurs : forall p t n, re_lit p t = Some n -> occurs p t.
Proof.
  intros p t n. unfold re_lit. destruct (prefixb p t) eqn:P; [|discriminate].
  intros _. now apply starts_occurs, prefixb_starts.
Qed.

Lemma re_seq_occurs_l : forall (r1 r2 : matcher) p,
    (forall t n, r1 t = Some n -> occurs p t) ->
    forall t n, re_seq r1 r2 t = Some n -> occurs p t.
Proof.
  intros r1 r2 p H t n. unfold re_seq. destruct (r1 t) as [a|] eqn:E; [|discriminate].
  intros _. now apply (H t a).
Qed.

Lemma re_seq_occurs_r : forall (r1 r2 : matcher) p,
    (forall t n, r2 t = Some n -> occurs p t) ->
    forall t n, re_seq r1 r2 t = Some n -> occurs p t.
Proof.
  intros r1 r2 p H t n. unfold re_seq. destruct (r1 t) as [a|]; [|discriminate].
  destruct (r2 (skipn a t)) as [b|] eqn:E; [|discriminate].
  intros _. apply (occurs_skipn _ a). now apply (H _ b).
Qed.

(** The pattern built for a token matches only where the token stands. *)
Lemma placeholderPattern_occurs : forall tok t n,
    placeholderPattern tok t = Some n -> occurs tok t.
Proof.
  intros tok. unfold placeholderPattern.
  do 7 apply re_seq_occurs_r. apply re_seq_occurs_l. apply re_lit_occurs.
Qed.

(** A document body in which no registered token occurs comes out of the
    substitution unchanged. *)
Theorem substitute_untouched :
  forall (documentXml : str) (mathPlaceholders : list (str * str)),
    forallb (fun entry => negb (occursb (fst entry) documentXml)) mathPlaceholders
    = true ->
    substitute documentXml mathPlaceholders = documentXml.
Proof.
  intros doc m. unfold substitute. induction m as [|[tok omml] m IH]; intros H;
    [reflexivity|].
  cbn [forallb fst] in H. apply andb_true_iff in H. destruct H as [Ht H].
  apply negb_true_iff, occursb_false in Ht.
  cbn [fold_left fst snd]. unfold replace_g. rewrite replace_go_never.
  - now apply IH.
  - intros j. destruct (placeholderPattern tok (skipn j doc)) as [n|] eqn:E;
      [|reflexivity].
    exfalso. apply Ht. apply (occurs_skipn _ j).
    now apply (placeholderPattern_occurs tok _ n).
Qed.

Lemma substitute_untouched_witness :
  let doc := lit "<w:p><w:r><w:t>__MATH_PLACEHOLDER_7__</w:t></w:r></w:p>" in
  let m := [(placeholder_of 0, lit "<m:oMath>x</m:oMath>")] in
  forallb (fun entry => negb (occursb (fst entry) doc)) m = true /\
  substitute doc m = doc.
Proof.
  intros doc m.
  assert (H : forallb (fun entry => negb (occursb (fst entry) doc)) m = true)
    by reflexivity.
  split; [exact H|]. exact (substitute_untouched doc m H).
Defined.

(** ** The decoding of the context menu *)

Lemma replace_plain_length : forall p r s k,
    length r <= length p ->
    length (replace_plain (re_lit p) r k s) <= length s - k.
Proof.
  intros p r s. induction s as [|c s IH]; intros k H; [simpl; lia|].
  destruct k as [|k]; cbn [replace_plain length]; [|now apply IH].
  unfold re_lit at 1. destruct (prefixb p (c :: s)) eqn:P.
  - apply prefixb_length in P. cbn [length] in P.
    destruct (length p) as [|j] eqn:L.
    + cbn [length]. specialize (IH 0). lia.
    + rewrite length_app. specialize (IH j). lia.
  - cbn [length]. specialize (IH 0). lia.
Qed.

Lemma replace_plain_shrinks : forall p r s k,
    length r < length p -> occurs p (skipn k s) ->
    length (replace_plain (re_lit p) r k s) < length s - k.
Proof.
  intros p r s. induction s as [|c s IH]; intros k H O.
  - exfalso. rewrite skipn_nil in O. destruct O as (a & b & O).
    destruct a; [|discriminate]. destruct p; [simpl in H; lia|discriminate].
  - destruct k as [|k]; cbn [replace_plain length]; [|now apply IH].
    cbn [skipn] in O. unfold re_lit at 1. destruct (prefixb p (c :: s)) eqn:P.
    + pose proof (prefixb_length _ _ P) as B. cbn [length] in B.
      destruct (length p) as [|j] eqn:L; [lia|].
      rewrite length_app.
      pose proof (replace_plain_length p r s j) as K. lia.
    + apply occurs_cons_inv in O. destruct O as [O|O].
      * apply prefixb_starts in O. congruence.
      * cbn [length]. specialize (IH 0 H O). lia.
Qed.

Lemma decode_length : forall e c s,
    not_dollar c = true -> 1 <= length e ->
    length (replace_g (re_lit e) [c] s) <= length s.
Proof.
  intros e c s D H. rewrite replace_g_plain by (cbn [forallb]; now rewrite D).
  pose proof (replace_plain_length e [c] s 0 H). lia.
Qed.

(** The decoding never lengthens a text, and shortens it as soon as one of
    the four entities occurs in it. *)
Lemma unescape_shrinks : forall s,
    existsb (fun e => occursb e s) entities = true ->
    length (unescapeLatexAttr s) < length s.
Proof.
  intros s H. unfold unescapeLatexAttr.
  set (s1 := replace_g (re_lit (lit "&quot;")) [DQUOTE] s).
  set (s2 := replace_g (re_lit (lit "&lt;")) (lit "<") s1).
  set (s3 := replace_g (re_lit (lit "&gt;")) (lit ">") s2).
  assert (L1 : length s1 <= length s) by (apply decode_length; [reflexivity|simpl; lia]).
  assert (L2 : length s2 <= length s1) by (apply decode_length; [reflexivity|simpl; lia]).
  assert (L3 : length s3 <= length s2) by (apply decode_length; [reflexivity|simpl; lia]).
  assert (L4 : length (replace_g (re_lit (lit "&amp;")) (lit "&") s3) <= length s3)
    by (apply decode_length; [reflexivity|simpl; lia]).
  assert (St : forall e c t,
             not_dollar c = true -> 2 <= length e -> occursb e t = true ->
             length (replace_g (re_lit e) [c] t) < length t).
  { intros e c t D E O. rewrite replace_g_plain by (cbn [forallb]; now rewrite D).
    pose proof (replace_plain_shrinks e [c] t 0) as K. cbn [skipn length] in K.
    apply occursb_occurs in O. specialize (K ltac:(lia) O). lia. }
  unfold entities in H. cbn [existsb] in H.
  destruct (occursb (lit "&quot;") s) eqn:O1.
  { assert (X : length s1 < length s)
      by (apply (St (lit "&quot;") DQUOTE s); [reflexivity|simpl; lia|exact O1]).
    lia. }
  assert (E1 : s1 = s) by (apply replace_g_absent; exact O1).
  destruct (occursb (lit "&lt;") s) eqn:O2.
  { rewrite <- E1 in O2.
    assert (X : length s2 < length s1)
      by (apply (St (lit "&lt;") "<" s1); [reflexivity|simpl; lia|exact O2]).
    lia. }
  assert (E2 : s2 = s) by (unfold s2; rewrite E1; apply replace_g_absent; exact O2).
  destruct (occursb (lit "&gt;") s) eqn:O3.
  { rewrite <- E2 in O3.
    assert (X : length s3 < length s2)
      by (apply (St (lit "&gt;") ">" s2); [reflexivity|simpl; lia|exact O3]).
    lia. }
  assert (E3 : s3 = s) by (unfold s3; rewrite E2; apply replace_g_absent; exact O3).
  destruct (occursb (lit "&amp;") s) eqn:O4; [|discriminate H].
  rewrite <- E3 in O4.
  assert (X : length (replace_g (re_lit (lit "&amp;")) (lit "&") s3) < length s3)
    by (apply (St (lit "&amp;") "&" s3); [reflexivity|simpl; lia|exact O4]).
  lia.
Qed.

(** [handleContextMenu] decodes the four entities in the value it reads
    from the [data-latex] attribute of the formula under the pointer.  When
    one of the entities occurs in that value, the LaTeX source kept in the
    menu, which is what [handleCopyMathML] converts, is strictly shorter
    than the value read: it is another text.  The menu is opened and the
    default menu is prevented whatever the menu was before. *)
Theorem context_menu_decodes :
  forall (Coord : Type) (e : MouseEvent Coord)
         (before : option (ContextMenu Coord)) (mathFormula : Dataset)
         (latex : str),
    closest_formula e = Some mathFormula ->
    data_latex mathFormula = Some latex ->
    existsb (fun ent => occursb ent latex) entities = true ->
    exists menu,
      handleContextMenu e before = (Some menu, true) /\
      menu_x menu = clientX e /\ menu_y menu = clientY e /\
      menu_latex menu = unescapeLatexAttr latex /\
      length (menu_latex menu) < length latex.
Proof.
  intros Coord e before f latex Hf Hl He.
  unfold handleContextMenu. rewrite Hf, Hl.
  assert (E : match latex with [] => [] | c :: l => c :: l end = latex)
    by now destruct latex.
  rewrite E. eexists. split; [reflexivity|]. cbn [menu_x menu_y menu_latex].
  repeat split. now apply unescape_shrinks.
Qed.

Lemma context_menu_decodes_witness :
  let latex := lit "a&lt;b" in
  let e := mkMouseEvent 10 20 (Some (mkDataset (Some latex) (Some (lit "false")))) in
  existsb (fun ent => occursb ent latex) entities = true /\
  exists menu,
    handleContextMenu e None = (Some menu, true) /\
    menu_x menu = 10 /\ menu_y menu = 20 /\
    menu_latex menu = unescapeLatexAttr latex /\
    length (menu_latex menu) < length latex.
Proof.
  intros latex e.
  assert (H : existsb (fun ent => occursb ent latex) entities = true) by reflexivity.
  split; [exact H|].
  exact (context_menu_decodes nat e None (mkDataset (Some latex) (Some (lit "false")))
           latex eq_refl eq_refl H).
Defined.

(** ** A placeholder run is replaced by its fragment *)

Lemma no_run_start : forall a rest j,
    ~ occurs (lit "<w:r") a -> j < length a ->
    prefixb (lit "<w:r") (skipn j a ++ "<" :: rest) = false.
Proof.
  intros a rest j H Hj.
  destruct (prefixb (lit "<w:r") (skipn j a ++ "<" :: rest)) eqn:P; [|reflexivity].
  exfalso. apply H. apply (occurs_skipn _ j).
  assert (L : length (skipn j a) <> 0) by (rewrite length_skipn; lia).
  destruct (skipn j a) as [|c1 [|c2 [|c3 [|c4 u]]]]; cbn [app] in P.
  - now elim L.
  - cbn in P. rewrite andb_false_r in P. discriminate.
  - cbn in P. rewrite !andb_false_r in P. discriminate.
  - cbn in P. rewrite !andb_false_r in P. discriminate.
  - apply starts_occurs. apply prefixb_starts.
    cbn [list_ascii_of_string prefixb] in *.
    repeat (apply andb_true_iff in P; destruct P as [? P]).
    repeat (apply andb_true_iff; split); auto.
Qed.

(** When the first run of a document body is a placeholder run and the
    token occurs nowhere after it, the replacement of that token puts the
    fragment in the place of the whole run and changes nothing else,
    provided the fragment holds no dollar (which the replacement method
    would interpret). *)
Theorem placeholder_run_replaced :
  forall (a b attrs tok omml : str),
    occursb (lit "<w:r") a = false ->
    forallb not_gt attrs = true ->
    occursb tok b = false ->
    forallb not_dollar omml = true ->
    substitute (a ++ run_xml attrs tok ++ b) [(tok, omml)] = a ++ omml ++ b.
Proof.
  intros a b attrs tok omml Ha Hattrs Hb Homml.
  apply occursb_false in Ha. apply occursb_false in Hb.
  unfold substitute. cbn [fold_left fst snd]. unfold replace_g.
  rewrite replace_go_prefix.
  - f_equal. cbn [app].
    pose proof (placeholderPattern_run tok attrs b Hattrs) as M.
    remember (run_xml attrs tok ++ b) as s eqn:Es.
    assert (S : exists c s', s = c :: s').
    { subst s. unfold run_xml. cbn. eauto. }
    destruct S as (c & s' & ->).
    assert (L : exists k, length (run_xml attrs tok) = S k).
    { unfold run_xml. cbn. eauto. }
    destruct L as [k L]. rewrite L in M.
    cbn [replace_go]. rewrite M.
    rewrite GetSubstitution_literal by exact Homml. f_equal.
    rewrite replace_go_skip.
    assert (E : skipn k s' = b).
    { change (skipn k s') with (skipn (S k) (c :: s')).
      rewrite Es, <- L. apply skipn_length_app. }
    rewrite E. apply replace_go_never. intros j.
    destruct (placeholderPattern tok (skipn j b)) as [n|] eqn:N; [|reflexivity].
    exfalso. apply Hb. apply (occurs_skipn _ j).
    now apply (placeholderPattern_occurs tok _ n).
  - intros j Hj. rewrite skipn_app.
    replace (j - length a) with 0 by lia. cbn [skipn].
    assert (E : exists rest, run_xml attrs tok ++ b = "<" :: rest)
      by (unfold run_xml; cbn; eauto).
    destruct E as [rest ->].
    unfold placeholderPattern, re_seq at 1, re_lit at 1.
    now rewrite (no_run_start a rest j Ha Hj).
Qed.

Lemma placeholder_run_replaced_witness :
  let a := lit "<w:body><w:p><w:pPr><w:jc w:val=" ++ [DQUOTE] ++ lit "center"
             ++ [DQUOTE] ++ lit "/></w:pPr>" in
  let attrs := lit " xml:space=" ++ [DQUOTE] ++ lit "preserve" ++ [DQUOTE] in
  let b := lit "</w:p></w:body>" in
  let omml := lit "<m:oMath>x</m:oMath>" in
  occursb (lit "<w:r") a = false /\
  forallb not_gt attrs = true /\
  occursb (placeholder_of 0) b = false /\
  forallb not_dollar omml = true /\
  substitute (a ++ run_xml attrs (placeholder_of 0) ++ b) [(placeholder_of 0, omml)]
  = a ++ omml ++ b.
Proof.
  intros a attrs b omml.
  assert (H1 : occursb (lit "<w:r") a = false) by reflexivity.
  assert (H2 : forallb not_gt attrs = true) by reflexivity.
  assert (H3 : occursb (placeholder_of 0) b = false) by reflexivity.
  assert (H4 : forallb not_dollar omml = true) by reflexivity.
  split; [exact H1|]. split; [exact H2|]. split; [exact H3|]. split; [exact H4|].
  exact (placeholder_run_replaced a b attrs (placeholder_of 0) omml H1 H2 H3 H4).
Defined.
